(** * tach: the interactive package tree and the changed-files lookup

    A shallow embedding of [tach/interactive/packages.py] and
    [python/tach/filesystem/git_ops.py].

    Python objects live in a store: a [FileNode] is a record in a heap, a
    reference to it is its address, and [parent] / [children] hold addresses,
    so that mutation through one reference is seen through every other one.
    The operating system (directory listings, [os.path.isdir], ...) and the
    parts of tach that are outside the two files are an [environment]. *)

From Stdlib Require Import ZArith String Ascii List Bool Lia.
From Stdlib Require OrderedTypeEx.
From stdpp Require Import base option list gmap strings sorting.


(** ** Paths: [posixpath] *)

Module posixpath.

(** [s.startswith(p)] *)
Definition startswith (s p : string) : bool := String.prefix p s.

(** [s.endswith("/")] *)
Fixpoint endswith_sep (s : string) : bool :=
  match s with
  | EmptyString => false
  | String c EmptyString => Ascii.eqb c "/"
  | String _ s' => endswith_sep s'
  end.

(** [os.path.join(a, b)] for two components. *)
Definition join (a b : string) : string :=
  if startswith b "/" then b
  else if String.eqb a "" || endswith_sep a then a +:+ b
  else a +:+ "/" +:+ b.

End posixpath.

(** ** The environment *)

(** [os.listdir] either returns the names of the entries or raises
    [PermissionError]. *)
Inductive listing :=
  | Entries (names : list string)
  | PermissionError.

Record environment := {
  listdir : string -> listing;             (* os.listdir *)
  isdir : string -> bool;                  (* os.path.isdir *)
  isfile : string -> bool;                 (* os.path.isfile *)
  canonical : string -> string;            (* tach.filesystem.canonical *)
  file_to_module_path : string -> string;  (* tach.filesystem.file_to_module_path *)
  PACKAGE_FILE_NAME : string               (* tach.constants.PACKAGE_FILE_NAME *)
}.

(** ** Results of calls *)

Inductive exn := TachError (msg : string).

(** A call returns, raises, or does not come back (the model ran out of
    fuel: an unbounded loop or recursion in the source). *)
Inductive outcome (A : Type) :=
  | Ok (a : A)
  | Raise (e : exn)
  | Diverges.
Arguments Ok {A} a.
Arguments Raise {A} e.
Arguments Diverges {A}.

#[global] Instance outcome_bind : MBind outcome := fun A B k m =>
  match m with
  | Ok a => k a
  | Raise e => Raise e
  | Diverges => Diverges
  end.

(** ** Sorting by a string key *)

Section Sorting.
Context {A : Type} (key : A -> string).

Fixpoint insert_sorted (x : A) (l : list A) : list A :=
  match l with
  | [] => [x]
  | y :: l' =>
      if String.leb (key x) (key y) then x :: l else y :: insert_sorted x l'
  end.

(** [sorted(l, key=key)]: Python's sort is stable; among equal keys the
    element that came first stays first. *)
Definition sorted (l : list A) : list A := foldr insert_sorted [] l.

(** [sorted(l, key=key, reverse=True)]: descending, equal keys keep their
    original order (the list is reversed, sorted and reversed again). *)
Definition sorted_reverse (l : list A) : list A := rev (sorted (rev l)).

(** The order that [sorted] establishes. *)
Definition key_le (x y : A) : Prop := String.leb (key x) (key y) = true.

End Sorting.

(** ** FileNode *)

(** A reference to a node: its address in the store. *)
Abbreviation addr := nat (only parsing).

Record FileNode := mkFileNode {
  full_path : string;
  is_dir : bool;
  expanded : bool;
  is_package : bool;
  parent : option addr;
  children : list addr
}.

Definition set_expanded (b : bool) (n : FileNode) : FileNode :=
  mkFileNode (full_path n) (is_dir n) b (is_package n) (parent n) (children n).
Definition set_is_package (b : bool) (n : FileNode) : FileNode :=
  mkFileNode (full_path n) (is_dir n) (expanded n) b (parent n) (children n).
Definition set_parent (p : option addr) (n : FileNode) : FileNode :=
  mkFileNode (full_path n) (is_dir n) (expanded n) (is_package n) p (children n).
Definition append_child (c : addr) (n : FileNode) : FileNode :=
  mkFileNode (full_path n) (is_dir n) (expanded n) (is_package n) (parent n)
             (children n ++ [c]).

(** The object store.  Addresses are handed out in allocation order; a
    reference held by the program is always below [length h], and
    [h !!! a] is the node it refers to (beyond the store it is
    [default_node], a node without parent and children). *)
Abbreviation heap := (list FileNode) (only parsing).

Definition default_node : FileNode := mkFileNode "" false false false None [].
#[global] Instance FileNode_inhabited : Inhabited FileNode := populate default_node.

(** A new object. *)
Definition alloc (n : FileNode) (h : heap) : heap * addr := (h ++ [n], length h).

Definition path_of (h : heap) (a : addr) : string := full_path (h !!! a).

(** [node.empty] *)
Definition empty (h : heap) (a : addr) : bool :=
  Nat.eqb (length (children (h !!! a))) 0.

(** [node.visible_children] *)
Definition visible_children (h : heap) (a : addr) : list addr :=
  if negb (expanded (h !!! a)) then [] else children (h !!! a).

(** [sorted(nodes, key=lambda node: node.full_path)] *)
Definition sorted_by_path (h : heap) (l : list addr) : list addr :=
  sorted (path_of h) l.

(** [node.parent_sorted_children] *)
Definition parent_sorted_children (h : heap) (a : addr) : option (list addr) :=
  match parent (h !!! a) with
  | None => None
  | Some p => Some (sorted_by_path h (visible_children h p))
  end.

(** *** Equality of nodes

    [list.index] compares with [==].  [FileNode] is a dataclass, so [==] is
    the generated [__eq__]: the same object is equal to itself, and two
    objects are compared field by field in declaration order, stopping at
    the first difference.  [parent] is compared with [==] again and
    [children] as lists (lengths first, then element by element). *)

Section NodeEq.
Context (rec : addr -> addr -> option bool).

Definition option_eq (p q : option addr) : option bool :=
  match p, q with
  | None, None => Some true
  | Some a, Some b => rec a b
  | _, _ => Some false
  end.

Fixpoint elements_eq (l1 l2 : list addr) : option bool :=
  match l1, l2 with
  | a :: l1', b :: l2' =>
      match rec a b with
      | Some true => elements_eq l1' l2'
      | r => r
      end
  | _, _ => Some true
  end.

Definition list_eq (l1 l2 : list addr) : option bool :=
  if negb (Nat.eqb (length l1) (length l2)) then Some false
  else elements_eq l1 l2.
End NodeEq.

Fixpoint node_eq (fuel : nat) (h : heap) (a b : addr) : option bool :=
  if Nat.eqb a b then Some true
  else
    match fuel with
    | O => None
    | S fuel' =>
        let x := h !!! a in
        let y := h !!! b in
        if negb (String.eqb (full_path x) (full_path y)) then Some false
        else if negb (Bool.eqb (is_dir x) (is_dir y)) then Some false
        else if negb (Bool.eqb (expanded x) (expanded y)) then Some false
        else if negb (Bool.eqb (is_package x) (is_package y)) then Some false
        else
          match option_eq (node_eq fuel' h) (parent x) (parent y) with
          | Some true => list_eq (node_eq fuel' h) (children x) (children y)
          | r => r
          end
    end.

(** [l.index(x)]: [Some (Some i)] is the index, [Some None] is
    [ValueError], [None] is no answer. *)
Fixpoint index_from (fuel : nat) (h : heap) (i : nat) (l : list addr) (x : addr)
  : option (option nat) :=
  match l with
  | [] => Some None
  | y :: l' =>
      match node_eq fuel h y x with
      | Some true => Some (Some i)
      | Some false => index_from fuel h (S i) l' x
      | None => None
      end
  end.

Definition index (fuel : nat) (h : heap) (l : list addr) (x : addr) :=
  index_from fuel h 0 l x.

Definition navigation_error : exn :=
  TachError "Error occurred in interactive file tree navigation".

(** [node.prev_sibling] *)
Definition prev_sibling (fuel : nat) (h : heap) (a : addr) : outcome (option addr) :=
  match parent_sorted_children h a with
  | None | Some [] => Ok None
  | Some psc =>
      match index fuel h psc a with
      | None => Diverges
      | Some None => Raise navigation_error
      | Some (Some my_index) =>
          if Nat.eqb my_index 0 then Ok None
          else Ok (psc !! (my_index - 1))
      end
  end.

(** [node.next_sibling] *)
Definition next_sibling (fuel : nat) (h : heap) (a : addr) : outcome (option addr) :=
  match parent_sorted_children h a with
  | None | Some [] => Ok None
  | Some psc =>
      match index fuel h psc a with
      | None => Diverges
      | Some None => Raise navigation_error
      | Some (Some my_index) =>
          if Nat.eqb my_index (length psc - 1) then Ok None
          else Ok (psc !! (my_index + 1))
      end
  end.

(** ** FileTree *)

Record FileTree := mkFileTree {
  root : addr;
  nodes : gmap string addr
}.

Definition set_node (path : string) (a : addr) (t : FileTree) : FileTree :=
  mkFileTree (root t) (<[path := a]> (nodes t)).

Section Construction.
Context (E : environment).

(** [FileNode.build_from_path] *)
Definition FileNode_build_from_path (path : string) : FileNode :=
  mkFileNode path (isdir E path) false
    (isfile E (posixpath.join path (PACKAGE_FILE_NAME E +:+ ".yml")))
    None [].

(** The body of the [for entry in os.listdir(...)] loop of
    [_build_subtree]; [recurse] is the recursive call. *)
Definition build_entry
    (recurse : addr -> Z -> heap * FileTree -> option (heap * FileTree))
    (root : addr) (depth : Z) (st : heap * FileTree) (entry : string)
  : option (heap * FileTree) :=
  let '(h, t) := st in
  if posixpath.startswith entry "." then Some st
  else
    let entry_path := posixpath.join (full_path (h !!! root)) entry in
    if negb (isdir E entry_path) then Some st
    else
      let child_node := FileNode_build_from_path entry_path in
      let child_node :=
        if (depth >? 0)%Z then set_expanded true child_node else child_node in
      let child_node := set_parent (Some root) child_node in
      let '(h, c) := alloc child_node h in
      let h := <[root := append_child c (h !!! root)]> h in
      let t := set_node entry_path c t in
      if is_dir child_node then recurse c (Z.max (depth - 1) 0) (h, t)
      else Some (h, t).

(** [FileTree._build_subtree]; [None] when the fuel does not suffice. *)
Fixpoint _build_subtree (fuel : nat) (root : addr) (depth : Z)
    (st : heap * FileTree) : option (heap * FileTree) :=
  match fuel with
  | O => None
  | S fuel' =>
      if is_dir (st.1 !!! root) then
        match listdir E (full_path (st.1 !!! root)) with
        | PermissionError => Some st
        | Entries entries =>
            foldl (fun acc entry =>
                     st' ← acc; build_entry (_build_subtree fuel') root depth st' entry)
                  (Some st) entries
        end
      else Some st
  end.

(** [FileTree.build_from_path] *)
Definition FileTree_build_from_path (fuel : nat) (path : string) (depth : Z)
  : option (heap * FileTree) :=
  let root := FileNode_build_from_path (canonical E path) in
  let root := set_expanded true root in
  let '(h, r) := alloc root [] in
  let tree := mkFileTree r ∅ in
  let tree := set_node path r tree in
  _build_subtree fuel r depth (h, tree).

Definition not_found (path : string) : exn :=
  TachError ("Directory " +:+ path +:+ " not found in tree.").
Definition not_a_directory (path : string) : exn :=
  TachError (path +:+ " does not seem to be a directory and cannot be expanded.").

(** [FileTree.expand_path]: the store after the call, and how the call
    ended. *)
Definition expand_path (fuel : nat) (path : string) (st : heap * FileTree)
  : (heap * FileTree) * outcome unit :=
  match nodes st.2 !! path with
  | None => (st, Raise (not_found path))
  | Some node =>
      if negb (is_dir (st.1 !!! node)) then (st, Raise (not_a_directory path))
      else
        match _build_subtree fuel node 1 st with
        | Some st' => (st', Ok tt)
        | None => (st, Diverges)
        end
  end.

End Construction.

(** ** Traversal *)

(** [deque.extendleft(xs)]: the elements are pushed on the left one by
    one. *)
Definition extendleft (xs stack : list addr) : list addr :=
  foldl (fun st x => x :: st) stack xs.

(** The [while stack:] loop of [file_tree_iterator]; the result is the
    sequence of yielded nodes. *)
Fixpoint iterate (fuel : nat) (h : heap) (visible_only : bool) (stack : list addr)
  : option (list addr) :=
  match stack with
  | [] => Some []
  | node :: stack =>
      match fuel with
      | O => None
      | S fuel' =>
          let stack :=
            if visible_only
            then extendleft (sorted_reverse (path_of h) (visible_children h node)) stack
            else extendleft (sorted_reverse (path_of h) (children (h !!! node))) stack in
          cons node <$> iterate fuel' h visible_only stack
      end
  end.

Definition file_tree_iterator (fuel : nat) (h : heap) (tree : FileTree)
    (visible_only : bool) : option (list addr) :=
  iterate fuel h visible_only [root tree].

(** [iter(tree)] and [tree.visible()] *)
Definition FileTree_iter (fuel : nat) (h : heap) (tree : FileTree) :=
  file_tree_iterator fuel h tree false.
Definition FileTree_visible (fuel : nat) (h : heap) (tree : FileTree) :=
  file_tree_iterator fuel h tree true.

(** ** The interactive session *)

Inductive ExitCode := QUIT_NOSAVE | QUIT_SAVE.

Record SelectedPackage := mkSelectedPackage { sp_full_path : string }.

(** [SelectedPackage.tags] *)
Definition tags (E : environment) (p : SelectedPackage) : list string :=
  [file_to_module_path E (sp_full_path p)].

Record InteractivePackageTree := mkSession {
  exit_code : ExitCode;
  store : heap;
  file_tree : FileTree;
  selected_node : addr;
  cursor_point : Z * Z          (* Point(x, y) *)
}.

Definition select (a : addr) (cursor : Z * Z) (s : InteractivePackageTree) :=
  mkSession (exit_code s) (store s) (file_tree s) a cursor.
Definition with_store (h : heap) (s : InteractivePackageTree) :=
  mkSession (exit_code s) h (file_tree s) (selected_node s) (cursor_point s).
Definition with_exit_code (c : ExitCode) (s : InteractivePackageTree) :=
  mkSession c (store s) (file_tree s) (selected_node s) (cursor_point s).

(** [move_cursor_up] and [move_cursor_down], as the new point. *)
Definition move_cursor_up (s : InteractivePackageTree) : Z * Z :=
  ((cursor_point s).1, ((cursor_point s).2 - 1)%Z).
Definition move_cursor_down (s : InteractivePackageTree) : Z * Z :=
  ((cursor_point s).1, ((cursor_point s).2 + 1)%Z).

(** *** Drawing the tree

    [_render_tree] walks the visible nodes and attaches each of them to
    the branch of its parent, which it looks up by path in [tree_mapping];
    it raises when the parent has no branch yet.  The branches and the
    text are left out, [tree_mapping] is the set of its keys. *)

Definition render_error : exn := TachError "Failed to render package tree.".

Fixpoint render_nodes (h : heap) (visited : list addr) (tree_mapping : gset string)
  : outcome unit :=
  match visited with
  | [] => Ok tt
  | node :: visited =>
      match parent (h !!! node) with
      | None => render_nodes h visited ({[path_of h node]} ∪ tree_mapping)
      | Some p =>
          if bool_decide (path_of h p ∈ tree_mapping)
          then render_nodes h visited ({[path_of h node]} ∪ tree_mapping)
          else Raise render_error
      end
  end.

(** [_render_tree] *)
Definition _render_tree (fuel : nat) (h : heap) (tree : FileTree) : outcome unit :=
  match FileTree_visible fuel h tree with
  | Some visited => render_nodes h visited ∅
  | None => Diverges
  end.

(** [_update_display], returning the session that has been drawn. *)
Definition _update_display (fuel : nat) (s : InteractivePackageTree)
  : outcome InteractivePackageTree :=
  _ ← _render_tree fuel (store s) (file_tree s); Ok s.

(** [InteractivePackageTree.__init__], as far as the navigation state
    goes: the tree is built, the root is selected and the tree is drawn. *)
Definition init (E : environment) (fuel : nat) (path : string) (depth : Z)
  : outcome InteractivePackageTree :=
  match FileTree_build_from_path E fuel path depth with
  | Some (h, tree) =>
      _update_display fuel (mkSession QUIT_NOSAVE h tree (root tree) (0, 1)%Z)
  | None => Diverges
  end.

(** [while curr_node.visible_children: curr_node = sorted(...)[-1]] *)
Fixpoint last_descendant (n : nat) (h : heap) (curr_node : addr) : option addr :=
  match last (sorted_by_path h (visible_children h curr_node)) with
  | None => Some curr_node
  | Some c =>
      match n with
      | O => None
      | S n' => last_descendant n' h c
      end
  end.

(** The [up] key handler. *)
Definition up (fuel : nat) (s : InteractivePackageTree) : outcome InteractivePackageTree :=
  let h := store s in
  prev ← prev_sibling fuel h (selected_node s);
  match prev with
  | Some prev =>
      match last_descendant fuel h prev with
      | Some curr_node => _update_display fuel (select curr_node (move_cursor_up s) s)
      | None => Diverges
      end
  | None =>
      match parent (h !!! selected_node s) with
      | Some p => _update_display fuel (select p (move_cursor_up s) s)
      | None => Ok s
      end
  end.

(** [while next_sibling is None: ...] of the [down] handler; the result is
    [next_sibling] after the loop. *)
Fixpoint bubble_up (n fuel : nat) (h : heap) (curr_node : addr)
    (next : option addr) : outcome (option addr) :=
  match next with
  | Some _ => Ok next
  | None =>
      match parent (h !!! curr_node) with
      | None => Ok None
      | Some p =>
          match n with
          | O => Diverges
          | S n' =>
              next ← next_sibling fuel h p;
              bubble_up n' fuel h p next
          end
      end
  end.

(** The [down] key handler. *)
Definition down (fuel : nat) (s : InteractivePackageTree) : outcome InteractivePackageTree :=
  let h := store s in
  match sorted_by_path h (visible_children h (selected_node s)) with
  | first :: _ => _update_display fuel (select first (move_cursor_down s) s)
  | [] =>
      match parent (h !!! selected_node s) with
      | None => Ok s
      | Some _ =>
          next ← next_sibling fuel h (selected_node s);
          next ← bubble_up fuel fuel h (selected_node s) next;
          match next with
          | None => Ok s
          | Some next => _update_display fuel (select next (move_cursor_down s) s)
          end
      end
  end.

(** The [right], [left] and [enter] key handlers. *)
Definition right (fuel : nat) (s : InteractivePackageTree) : outcome InteractivePackageTree :=
  let a := selected_node s in
  _update_display fuel (with_store (<[a := set_expanded true (store s !!! a)]> (store s)) s).
Definition left (fuel : nat) (s : InteractivePackageTree) : outcome InteractivePackageTree :=
  let a := selected_node s in
  _update_display fuel (with_store (<[a := set_expanded false (store s !!! a)]> (store s)) s).
Definition enter (fuel : nat) (s : InteractivePackageTree) : outcome InteractivePackageTree :=
  let a := selected_node s in
  _update_display fuel
    (with_store (<[a := set_is_package (negb (is_package (store s !!! a))) (store s !!! a)]>
                   (store s)) s).

Inductive key := Up | Down | Right | Left | Enter | CtrlC | CtrlS.

(** One key event: the state after the handler, and whether the handler
    called [app.exit()]. *)
Definition handle (fuel : nat) (k : key) (s : InteractivePackageTree)
  : outcome (InteractivePackageTree * bool) :=
  match k with
  | CtrlC => Ok (with_exit_code QUIT_NOSAVE s, true)
  | CtrlS => Ok (with_exit_code QUIT_SAVE s, true)
  | Up => s' ← up fuel s; Ok (s', false)
  | Down => s' ← down fuel s; Ok (s', false)
  | Right => s' ← right fuel s; Ok (s', false)
  | Left => s' ← left fuel s; Ok (s', false)
  | Enter => s' ← enter fuel s; Ok (s', false)
  end.

(** [app.run()]: key events are handled one at a time until a handler
    exits the application; with no event left the application keeps
    waiting. *)
Fixpoint app_run (fuel : nat) (keys : list key) (s : InteractivePackageTree)
  : outcome InteractivePackageTree :=
  match keys with
  | [] => Diverges
  | k :: keys =>
      '(s', exited) ← handle fuel k s;
      if exited : bool then Ok s' else app_run fuel keys s'
  end.

(** The state of the session once the events [keys] have been delivered
    (or the application has exited before). *)
Fixpoint navigate (fuel : nat) (keys : list key) (s : InteractivePackageTree)
  : outcome InteractivePackageTree :=
  match keys with
  | [] => Ok s
  | k :: keys =>
      '(s', exited) ← handle fuel k s;
      if exited : bool then Ok s' else navigate fuel keys s'
  end.

(** The list comprehension of [run]. *)
Definition collect (h : heap) (visited : list addr) : list SelectedPackage :=
  (fun node : addr => mkSelectedPackage (full_path (h !!! node))) <$>
    filter (fun node : addr => is_package (h !!! node) = true) visited.

(** [InteractivePackageTree.run] *)
Definition run (fuel : nat) (keys : list key) (s : InteractivePackageTree)
  : outcome (option (list SelectedPackage)) :=
  s' ← app_run fuel keys s;
  match exit_code s' with
  | QUIT_SAVE =>
      match FileTree_iter fuel (store s') (file_tree s') with
      | Some visited => Ok (Some (collect (store s') visited))
      | None => Diverges
      end
  | QUIT_NOSAVE => Ok None
  end.

(** [get_selected_packages_interactive] *)
Definition get_selected_packages_interactive (E : environment) (fuel : nat)
    (path : string) (depth : Z) (keys : list key)
  : outcome (option (list SelectedPackage)) :=
  ipt ← init E fuel path depth; run fuel keys ipt.

(** ** Changed files: [git_ops.py] *)

Module git_ops.

Inductive repo_exn := InvalidGitRepositoryError | NoSuchPathError.
Inductive command_exn := GitCommandError.

(** GitPython and the parts of the standard library that the function
    calls.  [repository] is the [Repo] object, [path] is [pathlib.Path]. *)
Record git (repository path : Type) := {
  Repo : string -> repo_exn + repository;     (* Repo(root, search_parent_directories=True) *)
  diff : repository -> list string -> command_exn + string;      (* repo.git.diff *)
  ls_files : repository -> list string -> command_exn + string;  (* repo.git.ls_files *)
  splitlines : string -> list string;         (* str.splitlines *)
  Path : string -> path                       (* Path(s) *)
}.
Arguments Repo {repository path}.
Arguments diff {repository path}.
Arguments ls_files {repository path}.
Arguments splitlines {repository path}.
Arguments Path {repository path}.

(** The call returns a list or lets an exception through. *)
Inductive result (A : Type) :=
  | Returns (a : A)
  | Raises (e : command_exn).
Arguments Returns {A} a.
Arguments Raises {A} e.

(** Truth value of a [str]. *)
Definition truthy (s : string) : bool := negb (String.eqb s "").

(** [list(map(Path, set(changed_files)))]; the order of a Python set is
    not specified, the order of [elements] stands for it. *)
Definition unique_paths {repository path} (G : git repository path)
    (changed_files : list string) : list path :=
  Path G <$> elements (list_to_set changed_files : gset string).

(** [get_changed_files]; the two [print] calls are left out. *)
Definition get_changed_files {repository path} (G : git repository path)
    (project_root head base : string) : result (list path) :=
  match Repo G project_root with
  | inl _ => Returns []
  | inr repo =>
      match (if truthy head
             then diff G repo ["--name-only"; head; base]
             else diff G repo ["--name-only"; base]) with
      | inl _ => Returns []
      | inr diff_out =>
          let changed_files := splitlines G diff_out in
          if negb (truthy head) then
            match ls_files G repo ["--others"; "--exclude-standard"] with
            | inl e => Raises e
            | inr untracked_files =>
                Returns (unique_paths G (changed_files ++ splitlines G untracked_files))
            end
          else Returns (unique_paths G changed_files)
      end
  end.

(** A repository in which [git diff] works and [git ls-files] fails. *)
Definition flaky : git unit string := {|
  Repo _ := inr tt;
  diff _ _ := inr "a.py";
  ls_files _ _ := inl GitCommandError;
  splitlines s := [s];
  Path s := s
|}.

End git_ops.

(** ** A small project to run the definitions on

    <<
    /r            b/  .git/  a/  notes.txt
    /r/a          x/  package.yml
    /r/a/x        deep/
    /r/a/x/deep   (empty)
    /r/b          (not readable)
    >>
    The working directory is [/r].  In [project] the canonical form of a
    path is the absolute path, as the specification has it. *)

Definition mem (s : string) (l : list string) : bool := existsb (String.eqb s) l.

Definition project : environment := {|
  listdir p :=
    if String.eqb p "/r" then Entries ["b"; ".git"; "a"; "notes.txt"]
    else if String.eqb p "/r/a" then Entries ["x"; "package.yml"]
    else if String.eqb p "/r/a/x" then Entries ["deep"]
    else if String.eqb p "/r/a/x/deep" then Entries []
    else PermissionError;
  isdir p := mem p ["/r"; "/r/a"; "/r/b"; "/r/.git"; "/r/a/x"; "/r/a/x/deep"];
  isfile p := mem p ["/r/notes.txt"; "/r/a/package.yml"];
  canonical p := if String.eqb p "." then "/r" else p;
  file_to_module_path p := p;
  PACKAGE_FILE_NAME := "package"
|}.

(** The same project as [tach] sees it when it runs in [/r]:
    [fs.canonical] gives the path relative to the working directory, so
    that the root is [.] whether it is named [.] or [/r], and the paths
    below it start with [./]. *)
Definition checkout : environment := {|
  listdir p :=
    if String.eqb p "." then Entries ["b"; ".git"; "a"; "notes.txt"]
    else if String.eqb p "./a" then Entries ["x"; "package.yml"]
    else if String.eqb p "./a/x" then Entries ["deep"]
    else if String.eqb p "./a/x/deep" then Entries []
    else PermissionError;
  isdir p := mem p ["."; "./a"; "./b"; "./.git"; "./a/x"; "./a/x/deep"];
  isfile p := mem p ["./notes.txt"; "./a/package.yml"];
  canonical p :=
    if String.eqb p "/r" then "."
    else if String.eqb p "/r/a" then "a"
    else if String.eqb p "./a" then "a"
    else p;
  file_to_module_path p := p;
  PACKAGE_FILE_NAME := "package"
|}.

(** ** Listings *)

(** [entry.startswith(".")] *)
Definition hidden (entry : string) : bool := posixpath.startswith entry ".".

(** The paths for which one pass of the loop of [_build_subtree] over the
    directory [p] creates a node. *)
Definition subdirectories_among (E : environment) (p : string)
    (entries : list string) : list string :=
  filter (fun q => isdir E q = true)
         (posixpath.join p <$> filter (fun e => hidden e = false) entries).

Definition subdirectories (E : environment) (p : string) : list string :=
  match listdir E p with
  | PermissionError => []
  | Entries entries => subdirectories_among E p entries
  end.

(** The directories below [p] nest less than [n] levels deep (hidden
    entries and unreadable directories are not entered). *)
Fixpoint bounded (E : environment) (n : nat) (p : string) : bool :=
  match n with
  | O => false
  | S n' =>
      match listdir E p with
      | PermissionError => true
      | Entries entries =>
          forallb (fun e => hidden e || negb (isdir E (posixpath.join p e))
                            || bounded E n' (posixpath.join p e)) entries
      end
  end.

(** No directory lists the same subdirectory twice. *)
Definition sane (E : environment) : Prop :=
  ∀ p, NoDup (subdirectories E p).

(** ** Relations between the nodes of a store *)

(** [level h a k]: [a] is [k] parent links away from a node without
    parent. *)
Inductive level (h : heap) : addr -> nat -> Prop :=
  | level_root a : parent (h !!! a) = None -> level h a 0
  | level_child a p k :
      parent (h !!! a) = Some p -> level h p k -> level h a (S k).

(** [hops h a k b]: following [parent] [k] times from [a] leads to [b]. *)
Inductive hops (h : heap) : addr -> nat -> addr -> Prop :=
  | hops_O a : hops h a 0 a
  | hops_S a p k b :
      parent (h !!! a) = Some p -> hops h p k b -> hops h a (S k) b.

(** [b] is [a] or one of its ancestors. *)
Inductive on_path (h : heap) (a : addr) : addr -> Prop :=
  | on_path_self : on_path h a a
  | on_path_parent b p :
      on_path h a b -> parent (h !!! b) = Some p -> on_path h a p.

(** [b] can be reached from [a] through [children]. *)
Inductive descendant (h : heap) (a : addr) : addr -> Prop :=
  | descendant_self : descendant h a a
  | descendant_child b c :
      descendant h a b -> c ∈ children (h !!! b) -> descendant h a c.

(** A visible node: every strict ancestor is expanded. *)
Inductive visible (h : heap) : addr -> Prop :=
  | visible_root a : parent (h !!! a) = None -> visible h a
  | visible_child a p :
      parent (h !!! a) = Some p -> expanded (h !!! p) = true ->
      visible h p -> visible h a.

(** ** The invariants of the data model *)

Fixpoint distinct (l : list string) : bool :=
  match l with
  | [] => true
  | x :: l' => negb (mem x l') && distinct l'
  end.

(** The invariants of the data model at one node: children are younger
    objects whose [parent] is this node, no two children share a path, and
    a node with a parent is among the children of that parent. *)
Definition wf_node (h : heap) (a : addr) : bool :=
  let n := h !!! a in
  forallb (fun c => (a <? c) && (c <? length h)
                    && bool_decide (parent (h !!! c) = Some a)) (children n)
  && distinct (path_of h <$> children n)
  && match parent n with
     | None => true
     | Some p => (p <? a) && existsb (Nat.eqb a) (children (h !!! p))
     end.

Definition wf_heap (h : heap) : bool := forallb (wf_node h) (seq 0 (length h)).

(** The invariants only read the shape of the store: lengths, paths,
    parents and children. *)
Definition same_shape (h h' : heap) : Prop :=
  length h' = length h ∧
  ∀ a, full_path (h' !!! a) = full_path (h !!! a)
       ∧ parent (h' !!! a) = parent (h !!! a)
       ∧ children (h' !!! a) = children (h !!! a).

(** Two stores that differ only in the order of the children lists. *)
Definition children_permuted (h h' : heap) : Prop :=
  length h' = length h ∧
  ∀ a, full_path (h' !!! a) = full_path (h !!! a)
       ∧ expanded (h' !!! a) = expanded (h !!! a)
       ∧ parent (h' !!! a) = parent (h !!! a)
       ∧ children (h' !!! a) ≡ₚ children (h !!! a).

(** The invariant of a session: the store is well formed, the root has no
    parent and the selected node is visible. *)
Definition session_inv (s : InteractivePackageTree) : Prop :=
  wf_heap (store s) = true
  ∧ parent (store s !!! root (file_tree s)) = None
  ∧ visible (store s) (selected_node s).

(** ** Traversal, as the specification describes it *)

(** The children of a node as the traversal reads them. *)
Definition kids (h : heap) (visible_only : bool) (a : addr) : list addr :=
  if visible_only then visible_children h a else children (h !!! a).

(** The order in which the iterator visits a list of children. *)
Definition visit_order (h : heap) (kids : list addr) : list addr :=
  sorted (path_of h) (rev kids).

(** Pre-order listing of the subtree of [a], children in ascending order
    of path, cut below [n] levels. *)
Fixpoint preorder (n : nat) (h : heap) (visible_only : bool) (a : addr) : list addr :=
  match n with
  | O => [a]
  | S n' =>
      a :: concat (preorder n' h visible_only <$> sorted_by_path h (kids h visible_only a))
  end.

(** [pre_order h v a l]: [l] is the pre-order listing of the subtree of
    [a], that is [a] followed by the listings of its children, the
    children taken in strictly ascending order of path; with [v] set, a
    node that is not expanded counts as childless.  Which lists are
    listings is said on the fields of the nodes alone: neither the
    iterator nor the sorting function of the code occurs. *)
Inductive pre_order (h : heap) (visible_only : bool) : addr -> list addr -> Prop :=
  | pre_order_node a ks l :
      ks ≡ₚ (if visible_only && negb (expanded (h !!! a)) then []
            else children (h !!! a)) ->
      StronglySorted (fun x y => String.ltb (path_of h x) (path_of h y) = true) ks ->
      pre_orders h visible_only ks l ->
      pre_order h visible_only a (a :: l)
with pre_orders (h : heap) (visible_only : bool) : list addr -> list addr -> Prop :=
  | pre_orders_nil : pre_orders h visible_only [] []
  | pre_orders_cons k ks l ls :
      pre_order h visible_only k l -> pre_orders h visible_only ks ls ->
      pre_orders h visible_only (k :: ks) (l ++ ls).

(** ** Navigation *)

(** Move-down has nowhere to go, as the loop of [down] meets it: the
    node shows no children and [next_sibling] finds nothing for the node
    and for every ancestor. *)
Definition no_next_anywhere (fuel : nat) (h : heap) (a : addr) : Prop :=
  visible_children h a = [] ∧
  ∀ b, on_path h a b -> next_sibling fuel h b = Ok None.

(** [b] is a sibling that is shown after [a]: a child of the parent of
    [a], which is expanded, with a greater path. *)
Definition later_sibling (h : heap) (a b : addr) : Prop :=
  ∃ p, parent (h !!! a) = Some p ∧ expanded (h !!! p) = true
       ∧ b ∈ children (h !!! p)
       ∧ String.ltb (path_of h a) (path_of h b) = true.

(** The boundary case of move-down, said on the tree alone: the node
    shows no children, and neither the node nor any of its ancestors has
    a sibling that is shown after it. *)
Definition at_bottom (h : heap) (a : addr) : Prop :=
  (expanded (h !!! a) = false ∨ children (h !!! a) = [])
  ∧ ∀ b c, on_path h a b -> ¬ later_sibling h b c.

(** ** The effect of construction *)

(** The fields of a node that construction does not touch once the node
    exists: everything but [children]. *)
Definition same_fields (n n' : FileNode) : Prop :=
  full_path n' = full_path n ∧ is_dir n' = is_dir n ∧ expanded n' = expanded n
  ∧ is_package n' = is_package n ∧ parent n' = parent n.

(** The store after [child] has been allocated and appended to the
    children of [r], as [_build_subtree] does for one entry. *)
Definition linked (h : heap) (r : addr) (child : FileNode) : heap :=
  <[r := append_child (length h) ((h ++ [child]) !!! r)]> (h ++ [child]).

(** The node that [_build_subtree r depth] creates for [entry_path]. *)
Definition new_child (E : environment) (r : addr) (depth : Z)
    (entry_path : string) : FileNode :=
  set_parent (Some r)
    (if (depth >? 0)%Z then set_expanded true (FileNode_build_from_path E entry_path)
     else FileNode_build_from_path E entry_path).

(** What [_build_subtree root depth] leaves behind for a node [a] that it
    has created, in the store [h'] after the call. *)
Definition built_node (E : environment) (root : addr) (depth : Z)
    (h' : heap) (a : addr) : Prop :=
  is_dir (h' !!! a) = true
  ∧ (∃ k, 1 ≤ k ∧ hops h' a k root
          ∧ expanded (h' !!! a) = (Z.of_nat k <=? depth)%Z)
  ∧ path_of h' <$> children (h' !!! a) = subdirectories E (path_of h' a)
  ∧ (∀ c, c ∈ children (h' !!! a) ->
          a < c ∧ c < length h' ∧ parent (h' !!! c) = Some a)
  ∧ (∃ p, parent (h' !!! a) = Some p ∧ p < a ∧ a ∈ children (h' !!! p)).

(** The effect of [_build_subtree r depth] from the store and tree
    [st] to [st']: [paths] are the paths of the children that the node [r] has
    gained. *)
Definition grows (E : environment) (r : addr) (depth : Z) (paths : list string)
    (st st' : list FileNode * FileTree) : Prop :=
  length st.1 ≤ length st'.1
  ∧ root st'.2 = root st.2
  ∧ (∀ a, a < length st.1 -> a ≠ r -> st'.1 !!! a = st.1 !!! a)
  ∧ same_fields (st.1 !!! r) (st'.1 !!! r)
  ∧ (∃ new, children (st'.1 !!! r) = children (st.1 !!! r) ++ new
            ∧ path_of st'.1 <$> new = paths
            ∧ ∀ c, c ∈ new ->
                   length st.1 ≤ c ∧ c < length st'.1
                   ∧ parent (st'.1 !!! c) = Some r)
  ∧ (∀ a, length st.1 ≤ a -> a < length st'.1 -> built_node E r depth st'.1 a)
  ∧ (∀ key a, nodes st'.2 !! key = Some a ->
              nodes st.2 !! key = Some a
              ∨ (length st.1 ≤ a ∧ a < length st'.1 ∧ path_of st'.1 a = key)).

(** What a call of [_build_subtree] on [r] is expected to do: [r] gains a
    child for every subdirectory when it is a directory, and none
    otherwise. *)
Definition expected (E : environment) (r : addr) (d : Z)
    (st st' : list FileNode * FileTree) : Prop :=
  grows E r d (if is_dir (st.1 !!! r) then subdirectories E (path_of st.1 r) else [])
        st st'.

(** ** Two claims as the specification words them *)

(** C1 as the specification words it: in the tree built to [depth], a
    node more than [depth] levels below the root is unexpanded and has no
    children. *)
Definition unexplored_beyond_depth (E : environment) (path : string) (depth : Z) : Prop :=
  ∀ fuel h t a k,
    FileTree_build_from_path E fuel path depth = Some (h, t) ->
    level h a k -> (depth < Z.of_nat k)%Z ->
    expanded (h !!! a) = false ∧ children (h !!! a) = [].

(** C2 as the specification words it: expanding a childless directory
    node creates children of that node and nothing else. *)
Definition only_immediate_children (E : environment) (path : string)
    (st : list FileNode * FileTree) : Prop :=
  ∀ fuel st' target b,
    nodes st.2 !! path = Some target ->
    children (st.1 !!! target) = [] ->
    expand_path E fuel path st = (st', Ok tt) ->
    length st.1 ≤ b -> b < length st'.1 ->
    parent (st'.1 !!! b) = Some target.

(** ** Stores of the small project *)

(** The store of the small project after [build_from_path("/r", 2)]. *)
Definition small_store : heap :=
  [ mkFileNode "/r" true true false None [1; 2];
    mkFileNode "/r/b" true true false (Some 0) [];
    mkFileNode "/r/a" true true true (Some 0) [3];
    mkFileNode "/r/a/x" true true false (Some 2) [4];
    mkFileNode "/r/a/x/deep" true false false (Some 3) [] ].

(** A tree that holds the root of the small project alone, unexplored. *)
Definition lone_root : list FileNode * FileTree :=
  ([mkFileNode "/r" true true false None []], mkFileTree 0 (<["/r" := 0]> ∅)).

(** ** Drawing a node *)

(** [p[p.rfind("/") + 1:]] when [p] holds a slash. *)
Fixpoint after_last_sep (p : string) : option string :=
  match p with
  | EmptyString => None
  | String c p' =>
      match after_last_sep p' with
      | Some r => Some r
      | None => if Ascii.eqb c "/" then Some p' else None
      end
  end.

(** [os.path.basename] *)
Definition basename (p : string) : string := default p (after_last_sep p).

(** [_render_node]: the parts that are handed to [Text.assemble], each
    with its style; [None] when the comparison with the selected node
    gives no answer. *)
Definition _render_node (fuel : nat) (s : InteractivePackageTree) (node : addr)
  : option (list (string * option string)) :=
  let h := store s in
  selected ← node_eq fuel h node (selected_node s);
  let name := basename (full_path (h !!! node)) in
  Some ((if selected : bool then [("-> ", Some "bold cyan")] else [])
        ++ (if is_package (h !!! node)
            then [("[Package] " +:+ name, Some "bold yellow")]
            else if selected then [(name, Some "bold")] else [(name, None)])
        ++ (if negb (empty h node) && expanded (h !!! node) then [(" ∨", Some "cyan")]
            else if negb (empty h node) then [(" >", Some "cyan")] else [])).

(** ** The directories behind a tree *)

(** The file whose presence marks the directory [path] as a package. *)
Definition marker_file (E : environment) (path : string) : string :=
  posixpath.join path (PACKAGE_FILE_NAME E +:+ ".yml").

(** The directories that construction reaches from [r]: [r] itself and,
    in every directory that it reaches and can list, the entries that are
    directories and not hidden. *)
Inductive explored (E : environment) (r : string) : string -> Prop :=
  | explored_root : explored E r r
  | explored_sub p entries e :
      explored E r p -> isdir E p = true ->
      listdir E p = Entries entries -> e ∈ entries -> hidden e = false ->
      isdir E (posixpath.join p e) = true ->
      explored E r (posixpath.join p e).

(** The flags of every node are those of its directory. *)
Definition seeded (E : environment) (st : list FileNode * FileTree) : Prop :=
  ∀ a, a < length st.1 ->
       is_package (st.1 !!! a) = isfile E (marker_file E (path_of st.1 a))
       ∧ is_dir (st.1 !!! a) = isdir E (path_of st.1 a).

(** The index has an entry for the path of every node from [n0] on. *)
Definition indexed_from (n0 : nat) (st : list FileNode * FileTree) : Prop :=
  ∀ a, n0 ≤ a -> a < length st.1 -> is_Some (nodes st.2 !! path_of st.1 a).

(** Every node of the store hangs below [r]. *)
Definition connected (h : heap) (r : addr) : Prop :=
  ∀ a, a < length h -> on_path h a r.

(** ** The rows of the display *)

(** [b] can be reached from [a] through [visible_children]: [b] is one of
    the rows that are drawn for the subtree of [a]. *)
Inductive shown (h : heap) (a : addr) : addr -> Prop :=
  | shown_self : shown h a a
  | shown_child b c :
      shown h a b -> c ∈ visible_children h b -> shown h a c.

(** The rows that are drawn for a session, from top to bottom. *)
Definition rows (s : InteractivePackageTree) : list addr :=
  preorder (length (store s)) (store s) true (root (file_tree s)).

(** The session after the selection has moved to the row [i] of [L],
    when there is such a row. *)
Definition moved_to (L : list addr) (i : option nat) (cursor : Z * Z)
    (s : InteractivePackageTree) : InteractivePackageTree :=
  match i ≫= (L !!.) with
  | Some b => select b cursor s
  | None => s
  end.

(** The selected node is a row of the display, and the hidden cursor is
    on the line of that row: line 0 is the header. *)
Definition row_inv (s : InteractivePackageTree) : Prop :=
  session_inv s
  ∧ ∃ i, rows s !! i = Some (selected_node s)
         ∧ cursor_point s = (0, Z.of_nat i + 1)%Z.

(** ** The changed files, as sets *)

Module git_ops_spec.
Import git_ops.

(** The line [s] is reported as changed: it is a line of the diff, or,
    without a head, a line of the list of untracked files. *)
Definition reported {repository path} (G : git repository path)
    (project_root head base s : string) : Prop :=
  ∃ repo out,
    Repo G project_root = inr repo
    ∧ (if truthy head then diff G repo ["--name-only"; head; base]
       else diff G repo ["--name-only"; base]) = inr out
    ∧ (s ∈ splitlines G out
       ∨ (head = EmptyString
          ∧ ∃ untracked, ls_files G repo ["--others"; "--exclude-standard"] = inr untracked
                         ∧ s ∈ splitlines G untracked)).

End git_ops_spec.

(** * Properties *)

(** ** Changed files *)

Module git_ops_facts.
Import git_ops.

Section Facts.
Context {repository path : Type} (G : git repository path).

Lemma elem_of_unique_paths (l : list string) (p : path) :
  p ∈ unique_paths G l ↔ ∃ s, s ∈ l ∧ p = Path G s.
Proof.
  unfold unique_paths. rewrite list_elem_of_fmap.
  split; intros (s & H1 & H2); exists s.
  - rewrite elem_of_elements, elem_of_list_to_set in H2. done.
  - rewrite elem_of_elements, elem_of_list_to_set. done.
Qed.

(** With a head, the result is the set of the lines of the diff
    between head and base, each once. *)
Lemma get_changed_files_two_refs root head base repo out :
  head ≠ EmptyString ->
  Repo G root = inr repo ->
  diff G repo ["--name-only"; head; base] = inr out ->
  get_changed_files G root head base = Returns (unique_paths G (splitlines G out)).
Proof.
  intros Hh Hr Hd. unfold get_changed_files, truthy. rewrite Hr.
  destruct (String.eqb_spec head ""); [done|]. simpl. by rewrite Hd.
Qed.

(** Without a head, the untracked files are added when they can be
    listed. *)
Lemma get_changed_files_worktree root base repo out untracked :
  Repo G root = inr repo ->
  diff G repo ["--name-only"; base] = inr out ->
  ls_files G repo ["--others"; "--exclude-standard"] = inr untracked ->
  get_changed_files G root "" base
  = Returns (unique_paths G (splitlines G out ++ splitlines G untracked)).
Proof.
  intros Hr Hd Hl. unfold get_changed_files, truthy. rewrite Hr. simpl.
  by rewrite Hd, Hl.
Qed.

(** A repository that cannot be opened and a diff that fails give the
    empty list. *)
Lemma get_changed_files_no_repo root head base e :
  Repo G root = inl e -> get_changed_files G root head base = Returns [].
Proof. intros Hr. unfold get_changed_files. by rewrite Hr. Qed.

Lemma get_changed_files_diff_fails root head base repo e :
  Repo G root = inr repo ->
  (if truthy head then diff G repo ["--name-only"; head; base]
   else diff G repo ["--name-only"; base]) = inl e ->
  get_changed_files G root head base = Returns [].
Proof. intros Hr Hd. unfold get_changed_files. by rewrite Hr, Hd. Qed.

(** [ls_files] is called outside of the [try]: when it fails, the
    exception leaves [get_changed_files]. *)
Lemma get_changed_files_ls_files_fails root base repo out e :
  Repo G root = inr repo ->
  diff G repo ["--name-only"; base] = inr out ->
  ls_files G repo ["--others"; "--exclude-standard"] = inl e ->
  get_changed_files G root "" base = Raises e.
Proof.
  intros Hr Hd Hl. unfold get_changed_files, truthy. rewrite Hr. simpl.
  by rewrite Hd, Hl.
Qed.
End Facts.

(** C7: without a head, in a repository where the diff succeeds and
    listing the untracked files fails, [get_changed_files] does not
    return the empty list: the [GitCommandError] reaches the caller. *)
Theorem get_changed_files_raises :
  get_changed_files flaky "/repo" "" "main" = Raises GitCommandError.
Proof. reflexivity. Qed.

End git_ops_facts.

(** ** The order on paths and [sorted] *)

Lemma leb_iff (s1 s2 : string) :
  String.leb s1 s2 = true ↔ s1 = s2 ∨ OrderedTypeEx.String_as_OT.lt s1 s2.
Proof.
  unfold String.leb.
  destruct (String.compare s1 s2) eqn:Hc.
  - apply OrderedTypeEx.String_as_OT.cmp_eq in Hc. tauto.
  - apply OrderedTypeEx.String_as_OT.cmp_lt in Hc. tauto.
  - split; [done|]. intros [->|Hlt].
    + assert (String.compare s2 s2 = Eq) as He
        by (by apply OrderedTypeEx.String_as_OT.cmp_eq).
      congruence.
    + apply OrderedTypeEx.String_as_OT.cmp_lt in Hlt.
      unfold OrderedTypeEx.String_as_OT.cmp in Hlt. congruence.
Qed.

Lemma leb_refl (s : string) : String.leb s s = true.
Proof. apply leb_iff. by left. Qed.

Lemma leb_trans (s1 s2 s3 : string) :
  String.leb s1 s2 = true -> String.leb s2 s3 = true -> String.leb s1 s3 = true.
Proof.
  rewrite !leb_iff. intros [->|H1] [->|H2]; eauto.
  right. eapply OrderedTypeEx.String_as_OT.lt_trans; eauto.
Qed.

Lemma leb_false (s1 s2 : string) :
  String.leb s1 s2 = false -> String.leb s2 s1 = true.
Proof. destruct (String.leb_total s1 s2); congruence. Qed.

Lemma inj_on_NoDup {A B} (f : A -> B) (l : list A) x y :
  NoDup (f <$> l) -> x ∈ l -> y ∈ l -> f x = f y -> x = y.
Proof.
  induction l as [|z l IH]; simpl; intros Hnd Hx Hy Hf; [by inv Hx|].
  apply NoDup_cons in Hnd as [Hz Hnd].
  inv Hx; inv Hy; try done.
  - exfalso. apply Hz. rewrite Hf. by apply list_elem_of_fmap_2.
  - exfalso. apply Hz. rewrite <- Hf. by apply list_elem_of_fmap_2.
  - by apply IH.
Qed.

Section SortingFacts.
Context {A : Type} (key : A -> string).

Lemma insert_sorted_perm x l : insert_sorted key x l ≡ₚ x :: l.
Proof.
  induction l as [|y l IH]; simpl; [done|].
  destruct (String.leb (key x) (key y)); [done|].
  rewrite IH. apply Permutation_swap.
Qed.

Lemma sorted_perm l : sorted key l ≡ₚ l.
Proof.
  induction l as [|x l IH]; simpl; [done|].
  by rewrite insert_sorted_perm, IH.
Qed.

Lemma elem_of_sorted x l : x ∈ sorted key l ↔ x ∈ l.
Proof. by rewrite sorted_perm. Qed.

Lemma length_sorted l : length (sorted key l) = length l.
Proof. by rewrite sorted_perm. Qed.

Lemma sorted_nil_inv l : sorted key l = [] -> l = [].
Proof.
  intros H. apply Permutation_nil_r. rewrite <- H. by rewrite sorted_perm.
Qed.

Lemma insert_sorted_StronglySorted x l :
  StronglySorted (key_le key) l -> StronglySorted (key_le key) (insert_sorted key x l).
Proof.
  induction 1 as [|y l Hl IH Hy]; simpl.
  - repeat constructor.
  - destruct (String.leb (key x) (key y)) eqn:Hxy.
    + constructor; [by constructor|].
      constructor; [done|].
      eapply Forall_impl; [exact Hy|].
      intros z Hz. eapply leb_trans; eauto.
    + constructor; [done|].
      rewrite insert_sorted_perm. constructor; [|done].
      by apply leb_false.
Qed.

Lemma sorted_StronglySorted l : StronglySorted (key_le key) (sorted key l).
Proof.
  induction l; simpl; [constructor|]. by apply insert_sorted_StronglySorted.
Qed.

Lemma sorted_id l : StronglySorted (key_le key) l -> sorted key l = l.
Proof.
  induction 1 as [|x l Hl IH Hx]; simpl; [done|].
  rewrite IH. destruct Hx as [|y l Hxy _]; simpl; [done|].
  unfold key_le in Hxy. by rewrite Hxy.
Qed.

(** The sorted list does not depend on the order of the input when the
    keys are pairwise different. *)
Lemma sorted_unique l1 l2 :
  NoDup (key <$> l1) -> l1 ≡ₚ l2 -> sorted key l1 = sorted key l2.
Proof.
  intros Hnd Hp.
  apply (StronglySorted_unique_strong (key_le key));
    [|apply sorted_StronglySorted..|by rewrite !sorted_perm].
  intros x y Hx Hy Hxy Hyx.
  rewrite elem_of_sorted in Hx. rewrite elem_of_sorted in Hy.
  rewrite <- Hp in Hy.
  eapply inj_on_NoDup; eauto. by apply String.leb_antisym.
Qed.

Lemma sorted_rev l : NoDup (key <$> l) -> sorted key (rev l) = sorted key l.
Proof.
  intros Hnd. symmetry. apply sorted_unique; [done|].
  apply Permutation_rev.
Qed.

Lemma NoDup_sorted l : NoDup l -> NoDup (sorted key l).
Proof. by rewrite sorted_perm. Qed.

Lemma NoDup_keys_sorted l : NoDup (key <$> l) -> NoDup (key <$> sorted key l).
Proof. by rewrite sorted_perm. Qed.

(** With pairwise different keys the sorted list ascends strictly. *)
Lemma sorted_strict l :
  NoDup (key <$> l) ->
  StronglySorted (fun x y => String.ltb (key x) (key y) = true) (sorted key l).
Proof.
  intros Hnd. apply NoDup_keys_sorted in Hnd.
  pose proof (sorted_StronglySorted l) as Hs.
  induction Hs as [|x l' Hl IH Hx]; [constructor|].
  simpl in Hnd. apply NoDup_cons in Hnd as [Hx' Hnd].
  constructor; [by apply IH|].
  rewrite Forall_forall in Hx |- *. intros y Hy.
  specialize (Hx y Hy). unfold key_le in Hx.
  apply leb_iff in Hx as [Heq|Hlt].
  - exfalso. apply Hx'. rewrite Heq. by apply list_elem_of_fmap_2.
  - apply OrderedTypeEx.String_as_OT.cmp_lt in Hlt.
    unfold String.ltb, OrderedTypeEx.String_as_OT.cmp in *. by rewrite Hlt.
Qed.

Lemma extendleft_app (xs stack : list addr) : extendleft xs stack = rev xs ++ stack.
Proof.
  unfold extendleft. revert stack.
  induction xs as [|x xs IH]; intros stack; simpl; [done|].
  rewrite IH. by rewrite <- app_assoc.
Qed.

End SortingFacts.

Lemma extendleft_sorted_reverse (k : addr -> string) (l stack : list addr) :
  extendleft (sorted_reverse k l) stack = sorted k (rev l) ++ stack.
Proof. unfold sorted_reverse. by rewrite extendleft_app, rev_involutive. Qed.

(** ** The invariants of the store *)

Lemma mem_elem_of (s : string) (l : list string) : mem s l = true ↔ s ∈ l.
Proof.
  unfold mem. rewrite existsb_exists. split.
  - intros (x & Hx & Heq). apply String.eqb_eq in Heq as ->.
    by apply list_elem_of_In.
  - intros Hs. exists s. split; [by apply list_elem_of_In|apply String.eqb_refl].
Qed.

Lemma distinct_NoDup (l : list string) : distinct l = true -> NoDup l.
Proof.
  induction l as [|x l IH]; simpl; [constructor|].
  intros [Hx Hl]%andb_true_iff. constructor; [|by apply IH].
  rewrite <- mem_elem_of. by destruct (mem x l).
Qed.

Lemma NoDup_distinct (l : list string) : NoDup l -> distinct l = true.
Proof.
  induction 1 as [|x l Hx Hl IH]; simpl; [done|].
  rewrite IH, andb_true_r. rewrite <- mem_elem_of in Hx. by destruct (mem x l).
Qed.

Lemma lookup_total_ge (h : heap) (a : addr) : length h ≤ a -> h !!! a = default_node.
Proof.
  intros Hle. rewrite list_lookup_total_alt.
  by rewrite lookup_ge_None_2.
Qed.

Section HeapFacts.
Context (h : heap) (Hwf : wf_heap h = true).

Lemma wf_node_at a : wf_node h a = true.
Proof using Hwf.
  destruct (decide (a < length h)) as [Hlt|Hge].
  - unfold wf_heap in Hwf. rewrite forallb_forall in Hwf.
    apply Hwf, in_seq. lia.
  - unfold wf_node. by rewrite lookup_total_ge by lia.
Qed.

Lemma wf_children a c :
  c ∈ children (h !!! a) -> a < c ∧ c < length h ∧ parent (h !!! c) = Some a.
Proof using Hwf.
  intros Hc. pose proof (wf_node_at a) as Ha. unfold wf_node in Ha.
  apply andb_true_iff in Ha as [[Ha _]%andb_true_iff _].
  rewrite forallb_forall in Ha. apply list_elem_of_In, Ha in Hc.
  apply andb_true_iff in Hc as [[H1 H2]%andb_true_iff H3].
  apply Nat.ltb_lt in H1, H2. by apply bool_decide_eq_true in H3.
Qed.

Lemma wf_distinct a : NoDup (path_of h <$> children (h !!! a)).
Proof using Hwf.
  pose proof (wf_node_at a) as Ha. unfold wf_node in Ha.
  apply andb_true_iff in Ha as [[_ Ha]%andb_true_iff _].
  by apply distinct_NoDup.
Qed.

Lemma wf_NoDup_children a : NoDup (children (h !!! a)).
Proof using Hwf. eapply NoDup_fmap_1, wf_distinct. Qed.

Lemma wf_parent a p :
  parent (h !!! a) = Some p -> p < a ∧ a ∈ children (h !!! p).
Proof using Hwf.
  intros Hp. pose proof (wf_node_at a) as Ha. unfold wf_node in Ha.
  apply andb_true_iff in Ha as [_ Ha]. rewrite Hp in Ha.
  apply andb_true_iff in Ha as [H1 H2]. apply Nat.ltb_lt in H1.
  split; [done|]. apply existsb_exists in H2 as (x & Hx & Heq).
  apply Nat.eqb_eq in Heq as ->. by apply list_elem_of_In.
Qed.

Lemma wf_visible_children a c :
  c ∈ visible_children h a ->
  expanded (h !!! a) = true ∧ c ∈ children (h !!! a).
Proof.
  unfold visible_children. destruct (expanded (h !!! a)); simpl; [done|].
  by intros ?%elem_of_nil.
Qed.

Lemma visible_children_expanded a :
  expanded (h !!! a) = true -> visible_children h a = children (h !!! a).
Proof. unfold visible_children. by intros ->. Qed.

Lemma wf_distinct_visible a : NoDup (path_of h <$> visible_children h a).
Proof using Hwf.
  unfold visible_children. destruct (expanded (h !!! a)); simpl;
    [apply wf_distinct|constructor].
Qed.

End HeapFacts.


(** ** Locating a node among its siblings *)

Section Siblings.
Context (h : heap).

Lemma node_eq_refl fuel a : node_eq fuel h a a = Some true.
Proof. destruct fuel; simpl; by rewrite Nat.eqb_refl. Qed.

Lemma node_eq_paths fuel a b :
  path_of h a ≠ path_of h b -> node_eq (S fuel) h a b = Some false.
Proof.
  intros Hne. simpl.
  destruct (Nat.eqb_spec a b) as [->|_]; [done|].
  unfold path_of in Hne.
  by destruct (String.eqb_spec (full_path (h !!! a)) (full_path (h !!! b))).
Qed.

(** [index] finds a node that is in the list. *)
Lemma index_from_elem fuel j l x : x ∈ l -> index_from fuel h j l x ≠ Some None.
Proof.
  revert j. induction l as [|y l IH]; intros j Hx; [by inv Hx|].
  simpl. destruct (decide (y = x)) as [->|Hne].
  - by rewrite node_eq_refl.
  - destruct (node_eq fuel h y x) as [[]|]; try done.
    apply IH. by inv Hx.
Qed.

Lemma index_from_lookup fuel j l i x :
  NoDup (path_of h <$> l) -> l !! i = Some x ->
  index_from (S fuel) h j l x = Some (Some (j + i)).
Proof.
  revert i j. induction l as [|y l IH]; intros i j Hnd Hi; [done|].
  rewrite fmap_cons in Hnd. apply NoDup_cons in Hnd as [Hy Hnd].
  destruct i as [|i]; simplify_eq/=.
  - rewrite Nat.eqb_refl. do 2 f_equal. lia.
  - assert (path_of h y ≠ path_of h x) as Hne.
    { intros Heq. apply Hy. rewrite Heq.
      eapply list_elem_of_fmap_2, list_elem_of_lookup_2, Hi. }
    pose proof (node_eq_paths fuel y x Hne) as Hq. simpl in Hq. rewrite Hq.
    rewrite (IH i (S j)) by done. do 2 f_equal. lia.
Qed.

Context (Hwf : wf_heap h = true).

Lemma sibling_position a p :
  parent (h !!! a) = Some p ->
  ∃ i, sorted_by_path h (children (h !!! p)) !! i = Some a.
Proof using Hwf.
  intros Hp. apply (wf_parent h Hwf) in Hp as [_ Ha].
  apply list_elem_of_lookup. by apply elem_of_sorted.
Qed.

Lemma parent_sorted_children_expanded a p :
  parent (h !!! a) = Some p -> expanded (h !!! p) = true ->
  parent_sorted_children h a = Some (sorted_by_path h (children (h !!! p))).
Proof.
  intros Hp He. unfold parent_sorted_children.
  by rewrite Hp, visible_children_expanded.
Qed.

Lemma parent_sorted_children_collapsed a p :
  parent (h !!! a) = Some p -> expanded (h !!! p) = false ->
  parent_sorted_children h a = Some [].
Proof.
  intros Hp He. unfold parent_sorted_children, visible_children.
  by rewrite Hp, He.
Qed.

Lemma index_sorted fuel a p i :
  sorted_by_path h (children (h !!! p)) !! i = Some a ->
  index (S fuel) h (sorted_by_path h (children (h !!! p))) a = Some (Some i).
Proof using Hwf.
  intros Hi. unfold index.
  rewrite (index_from_lookup fuel 0 _ i); [done| |done].
  apply NoDup_keys_sorted, wf_distinct, Hwf.
Qed.

Lemma prev_sibling_spec fuel a p i :
  parent (h !!! a) = Some p -> expanded (h !!! p) = true ->
  sorted_by_path h (children (h !!! p)) !! i = Some a ->
  prev_sibling (S fuel) h a
  = Ok (if Nat.eqb i 0 then None
        else sorted_by_path h (children (h !!! p)) !! (i - 1)).
Proof using Hwf.
  intros Hp He Hi. unfold prev_sibling.
  rewrite (parent_sorted_children_expanded a p) by done.
  rewrite (index_sorted fuel a p i) by done.
  destruct (sorted_by_path h (children (h !!! p))); [done|].
  by destruct (Nat.eqb i 0).
Qed.

Lemma next_sibling_spec fuel a p i :
  parent (h !!! a) = Some p -> expanded (h !!! p) = true ->
  sorted_by_path h (children (h !!! p)) !! i = Some a ->
  next_sibling (S fuel) h a
  = Ok (if Nat.eqb i (length (sorted_by_path h (children (h !!! p))) - 1) then None
        else sorted_by_path h (children (h !!! p)) !! (i + 1)).
Proof using Hwf.
  intros Hp He Hi. unfold next_sibling.
  rewrite (parent_sorted_children_expanded a p) by done.
  rewrite (index_sorted fuel a p i) by done.
  destruct (sorted_by_path h (children (h !!! p))) eqn:Hs; [done|].
  by destruct (Nat.eqb i _).
Qed.

Lemma prev_sibling_hidden fuel a :
  (∀ p, parent (h !!! a) = Some p -> expanded (h !!! p) = false) ->
  prev_sibling fuel h a = Ok None.
Proof.
  intros Hp. unfold prev_sibling.
  destruct (parent (h !!! a)) as [p|] eqn:Hpa.
  - by rewrite (parent_sorted_children_collapsed a p) by auto.
  - unfold parent_sorted_children. by rewrite Hpa.
Qed.

Lemma next_sibling_hidden fuel a :
  (∀ p, parent (h !!! a) = Some p -> expanded (h !!! p) = false) ->
  next_sibling fuel h a = Ok None.
Proof.
  intros Hp. unfold next_sibling.
  destruct (parent (h !!! a)) as [p|] eqn:Hpa.
  - by rewrite (parent_sorted_children_collapsed a p) by auto.
  - unfold parent_sorted_children. by rewrite Hpa.
Qed.

(** Both lookups return. *)
Lemma prev_sibling_total fuel a : ∃ r, prev_sibling (S fuel) h a = Ok r.
Proof using Hwf.
  destruct (parent (h !!! a)) as [p|] eqn:Hp.
  - destruct (expanded (h !!! p)) eqn:He.
    + destruct (sibling_position a p Hp) as [i Hi].
      rewrite (prev_sibling_spec fuel a p i) by done. eauto.
    + rewrite prev_sibling_hidden; [eauto|]. intros; congruence.
  - rewrite prev_sibling_hidden; [eauto|]. intros; congruence.
Qed.

Lemma next_sibling_total fuel a : ∃ r, next_sibling (S fuel) h a = Ok r.
Proof using Hwf.
  destruct (parent (h !!! a)) as [p|] eqn:Hp.
  - destruct (expanded (h !!! p)) eqn:He.
    + destruct (sibling_position a p Hp) as [i Hi].
      rewrite (next_sibling_spec fuel a p i) by done. eauto.
    + rewrite next_sibling_hidden; [eauto|]. intros; congruence.
  - rewrite next_sibling_hidden; [eauto|]. intros; congruence.
Qed.

Lemma sorted_children_parent p b :
  b ∈ sorted_by_path h (children (h !!! p)) -> parent (h !!! b) = Some p.
Proof using Hwf.
  intros Hb. apply elem_of_sorted in Hb.
  by apply (wf_children h Hwf) in Hb as (_ & _ & ?).
Qed.

Lemma NoDup_sorted_children p : NoDup (sorted_by_path h (children (h !!! p))).
Proof using Hwf. apply NoDup_sorted, wf_NoDup_children, Hwf. Qed.

(** The node after [a] has [a] before it. *)
Lemma next_sibling_Some fuel a b :
  next_sibling (S fuel) h a = Ok (Some b) ->
  ∃ p, parent (h !!! a) = Some p ∧ parent (h !!! b) = Some p
       ∧ expanded (h !!! p) = true ∧ a ≠ b
       ∧ prev_sibling (S fuel) h b = Ok (Some a).
Proof using Hwf.
  intros Hn.
  destruct (parent (h !!! a)) as [p|] eqn:Hp;
    [|rewrite next_sibling_hidden in Hn; [done|intros; congruence]].
  destruct (expanded (h !!! p)) eqn:He;
    [|rewrite next_sibling_hidden in Hn; [done|intros; congruence]].
  destruct (sibling_position a p Hp) as [i Hi].
  rewrite (next_sibling_spec fuel a p i) in Hn by done.
  destruct (Nat.eqb i _); [done|]. injection Hn as Hb.
  assert (parent (h !!! b) = Some p) as Hpb
    by (eapply sorted_children_parent, list_elem_of_lookup_2, Hb).
  exists p. split_and!; try done.
  - intros ->. pose proof (NoDup_lookup _ _ _ _ (NoDup_sorted_children p) Hi Hb). lia.
  - rewrite (prev_sibling_spec fuel b p (i + 1)) by done.
    replace (i + 1 - 1) with i by lia. rewrite Hi.
    by replace (Nat.eqb (i + 1) 0) with false by (symmetry; apply Nat.eqb_neq; lia).
Qed.

(** Without a node after it, [a] is the last of the sorted children. *)
Lemma next_sibling_None fuel a p :
  parent (h !!! a) = Some p -> expanded (h !!! p) = true ->
  next_sibling (S fuel) h a = Ok None ->
  last (sorted_by_path h (visible_children h p)) = Some a.
Proof using Hwf.
  intros Hp He Hn. rewrite visible_children_expanded by done.
  destruct (sibling_position a p Hp) as [i Hi].
  rewrite (next_sibling_spec fuel a p i) in Hn by done.
  pose proof (lookup_lt_Some _ _ _ Hi) as Hlt.
  destruct (Nat.eqb_spec i (length (sorted_by_path h (children (h !!! p))) - 1))
    as [Heq|Hne].
  - rewrite last_lookup. rewrite <- Hi. f_equal. lia.
  - injection Hn as Hn. apply lookup_ge_None in Hn. lia.
Qed.

Lemma next_sibling_last fuel a p :
  parent (h !!! a) = Some p -> expanded (h !!! p) = true ->
  last (sorted_by_path h (visible_children h p)) = Some a ->
  next_sibling (S fuel) h a = Ok None.
Proof using Hwf.
  intros Hp He Hl. rewrite visible_children_expanded in Hl by done.
  rewrite last_lookup in Hl.
  rewrite (next_sibling_spec fuel a p _ Hp He Hl).
  destruct (Nat.eqb_spec (Nat.pred (length (sorted_by_path h (children (h !!! p)))))
              (length (sorted_by_path h (children (h !!! p))) - 1)); [done|lia].
Qed.

(** The first of the sorted children has no node before it. *)
Lemma first_child fuel a c l :
  sorted_by_path h (visible_children h a) = c :: l ->
  expanded (h !!! a) = true ∧ parent (h !!! c) = Some a
  ∧ prev_sibling (S fuel) h c = Ok None.
Proof using Hwf.
  intros Hs.
  assert (c ∈ visible_children h a) as Hc.
  { apply (elem_of_sorted (path_of h)). fold (sorted_by_path h (visible_children h a)).
    rewrite Hs. constructor. }
  apply wf_visible_children in Hc as [He Hc].
  rewrite visible_children_expanded in Hs by done.
  assert (parent (h !!! c) = Some a) as Hp
    by (by apply (wf_children h Hwf) in Hc as (_ & _ & ?)).
  split_and!; try done.
  rewrite (prev_sibling_spec fuel c a 0); [done..|by rewrite Hs].
Qed.

Lemma prev_sibling_Some fuel a b :
  prev_sibling (S fuel) h a = Ok (Some b) ->
  ∃ p, parent (h !!! a) = Some p ∧ parent (h !!! b) = Some p
       ∧ expanded (h !!! p) = true.
Proof using Hwf.
  intros Hn.
  destruct (parent (h !!! a)) as [p|] eqn:Hp;
    [|rewrite prev_sibling_hidden in Hn; [done|intros; congruence]].
  destruct (expanded (h !!! p)) eqn:He;
    [|rewrite prev_sibling_hidden in Hn; [done|intros; congruence]].
  destruct (sibling_position a p Hp) as [i Hi].
  rewrite (prev_sibling_spec fuel a p i) in Hn by done.
  destruct (Nat.eqb i 0); [done|]. injection Hn as Hb.
  exists p. split_and!; try done.
  eapply sorted_children_parent, list_elem_of_lookup_2, Hb.
Qed.

End Siblings.

(** C9: a node that is in the children list of its parent is found by
    [prev_sibling] and [next_sibling]: when the parent shows children,
    [index] does not end in [ValueError], so neither lookup raises the
    navigation error; and when no two children of the parent share a path,
    both lookups return. *)
Theorem sibling_lookup_never_fails (h : heap) (a p : addr) (fuel : nat) :
  parent (h !!! a) = Some p ->
  a ∈ children (h !!! p) ->
  (visible_children h p ≠ [] ->
   index fuel h (sorted_by_path h (visible_children h p)) a ≠ Some None)
  ∧ prev_sibling fuel h a ≠ Raise navigation_error
  ∧ next_sibling fuel h a ≠ Raise navigation_error
  ∧ (NoDup (path_of h <$> children (h !!! p)) -> 0 < fuel ->
     (∃ r, prev_sibling fuel h a = Ok r) ∧ (∃ r, next_sibling fuel h a = Ok r)).
Proof.
  intros Hp Ha.
  assert (visible_children h p ≠ [] ->
          a ∈ sorted_by_path h (visible_children h p)) as Hin.
  { intros Hv. apply elem_of_sorted. unfold visible_children in *.
    by destruct (expanded (h !!! p)). }
  assert (visible_children h p ≠ [] ->
          index fuel h (sorted_by_path h (visible_children h p)) a ≠ Some None) as Hidx.
  { intros Hv. by apply index_from_elem, Hin. }
  split_and!; [done| | |].
  - unfold prev_sibling, parent_sorted_children. rewrite Hp.
    destruct (sorted_by_path h (visible_children h p)) as [|y l] eqn:Hs; [done|].
    assert (visible_children h p ≠ []) as Hv
      by (intros Hv; by rewrite Hv in Hs).
    specialize (Hidx Hv). try rewrite Hs in Hidx.
    destruct (index fuel h (y :: l) a) as [[i|]|]; try done.
    by destruct (Nat.eqb i 0).
  - unfold next_sibling, parent_sorted_children. rewrite Hp.
    destruct (sorted_by_path h (visible_children h p)) as [|y l] eqn:Hs; [done|].
    assert (visible_children h p ≠ []) as Hv
      by (intros Hv; by rewrite Hv in Hs).
    specialize (Hidx Hv). try rewrite Hs in Hidx.
    destruct (index fuel h (y :: l) a) as [[i|]|]; try done.
    by destruct (Nat.eqb i _).
  - intros Hnd Hfuel. destruct fuel as [|fuel]; [lia|].
    unfold prev_sibling, next_sibling, parent_sorted_children. rewrite Hp.
    destruct (sorted_by_path h (visible_children h p)) as [|y l] eqn:Hs; [eauto|].
    assert (visible_children h p ≠ []) as Hv
      by (intros Hv; by rewrite Hv in Hs).
    destruct (proj1 (list_elem_of_lookup _ _) (Hin Hv)) as [i Hi].
    assert (NoDup (path_of h <$> sorted_by_path h (visible_children h p))) as Hnd'.
    { apply NoDup_keys_sorted. unfold visible_children.
      destruct (expanded (h !!! p)); [done|constructor]. }
    rewrite Hs in Hnd'. unfold index.
    rewrite (index_from_lookup h fuel 0 _ i a Hnd' Hi). simpl.
    destruct (Nat.eqb i 0), (Nat.eqb i _); eauto.
Qed.

Lemma sibling_lookup_never_fails_witness :
  (visible_children small_store 0 ≠ [] ->
   index 1 small_store (sorted_by_path small_store (visible_children small_store 0)) 2
   ≠ Some None)
  ∧ prev_sibling 1 small_store 2 ≠ Raise navigation_error
  ∧ next_sibling 1 small_store 2 ≠ Raise navigation_error
  ∧ (NoDup (path_of small_store <$> children (small_store !!! 0)) -> 0 < 1 ->
     (∃ r, prev_sibling 1 small_store 2 = Ok r)
     ∧ (∃ r, next_sibling 1 small_store 2 = Ok r)).
Proof.
  apply (sibling_lookup_never_fails small_store 2 0 1).
  - reflexivity.
  - simpl. set_solver.
Defined.

(** ** Moving the selection *)

Section Navigation.
Context (h : heap) (Hwf : wf_heap h = true).

Lemma visible_parent a p :
  visible h a -> parent (h !!! a) = Some p ->
  expanded (h !!! p) = true ∧ visible h p.
Proof. intros Hv Hp. destruct Hv as [a Hn|a q Hq He Hv]; by simplify_eq. Qed.

Lemma last_visible_child a c :
  last (sorted_by_path h (visible_children h a)) = Some c ->
  expanded (h !!! a) = true ∧ a < c ∧ c < length h ∧ parent (h !!! c) = Some a.
Proof using Hwf.
  intros Hl.
  assert (c ∈ visible_children h a) as Hc.
  { apply (elem_of_sorted (path_of h)). rewrite last_lookup in Hl.
    eapply list_elem_of_lookup_2, Hl. }
  apply wf_visible_children in Hc as [He Hc].
  by apply (wf_children h Hwf) in Hc.
Qed.

Lemma last_descendant_visible n a b :
  visible h a -> last_descendant n h a = Some b -> visible h b.
Proof using Hwf.
  revert a. induction n as [|n IH]; intros a Hv; simpl;
    destruct (last (sorted_by_path h (visible_children h a))) as [c|] eqn:Hl;
    intros Hd; simplify_eq; try done.
  apply last_visible_child in Hl as (He & _ & _ & Hp).
  eapply IH; [|exact Hd]. by eapply visible_child.
Qed.

Lemma last_descendant_total n a :
  length h ≤ n + a + 1 -> ∃ b, last_descendant n h a = Some b.
Proof using Hwf.
  revert a. induction n as [|n IH]; intros a Hn; simpl;
    destruct (last (sorted_by_path h (visible_children h a))) as [c|] eqn:Hl;
    eauto.
  - apply last_visible_child in Hl. lia.
  - apply last_visible_child in Hl. apply IH. lia.
Qed.

Lemma last_descendant_mono n m a b :
  last_descendant n h a = Some b -> n ≤ m -> last_descendant m h a = Some b.
Proof.
  revert m a. induction n as [|n IH]; intros m a; simpl;
    destruct (last (sorted_by_path h (visible_children h a))) as [c|] eqn:Hl;
    intros Hd Hm; simplify_eq.
  - destruct m; simpl; by rewrite Hl.
  - destruct m as [|m]; [lia|]. simpl. rewrite Hl. apply IH; [done|lia].
  - destruct m; simpl; by rewrite Hl.
Qed.

Lemma on_path_inv a b :
  on_path h a b -> b = a ∨ ∃ p, parent (h !!! a) = Some p ∧ on_path h p b.
Proof.
  induction 1 as [|b q Hab IH Hq]; [by left|]. right.
  destruct IH as [->|(p & Hp & Hpb)].
  - exists q. split; [done|constructor].
  - exists p. split; [done|]. by econstructor.
Qed.

Lemma on_path_step a p b :
  parent (h !!! a) = Some p -> on_path h p b -> on_path h a b.
Proof.
  intros Hp Hb. induction Hb; [econstructor; [constructor|done]|by econstructor].
Qed.

Lemma bubble_up_total n fuel curr next :
  curr ≤ n -> ∃ r, bubble_up n (S fuel) h curr next = Ok r.
Proof using Hwf.
  revert curr next. induction n as [|n IH]; intros curr next Hn;
    destruct next as [b|]; simpl; eauto;
    destruct (parent (h !!! curr)) as [p|] eqn:Hp; eauto;
    apply (wf_parent h Hwf) in Hp as [Hlt _]; [lia|].
  destruct (next_sibling_total h Hwf fuel p) as [r ->]. simpl.
  apply IH. lia.
Qed.

(** What the loop of [down] finds: a next sibling of the node or of one
    of its ancestors, from which the last visible descendant leads back
    to where the loop started; or nothing, when no node on the way up
    has a next sibling. *)
Lemma bubble_up_spec n fuel curr next origin m r :
  visible h curr ->
  next_sibling (S fuel) h curr = Ok next ->
  last_descendant m h curr = Some origin ->
  bubble_up n (S fuel) h curr next = Ok r ->
  match r with
  | Some ns =>
      ∃ curr' m', visible h curr' ∧ on_path h curr curr' ∧ m' ≤ m + n
                  ∧ next_sibling (S fuel) h curr' = Ok (Some ns)
                  ∧ last_descendant m' h curr' = Some origin
  | None => ∀ b, on_path h curr b -> next_sibling (S fuel) h b = Ok None
  end.
Proof using Hwf.
  revert curr next m. induction n as [|n IH]; intros curr next m Hv Hn Hd;
    destruct next as [b|]; simpl; intros Hb; simplify_eq.
  - exists curr, m. split_and!; try done; [constructor|lia].
  - destruct (parent (h !!! curr)) as [p|] eqn:Hp; simplify_eq.
    intros b Hb. apply on_path_inv in Hb as [->|(p & Hp' & _)]; [done|congruence].
  - exists curr, m. split_and!; try done; [constructor|lia].
  - destruct (parent (h !!! curr)) as [p|] eqn:Hp; simplify_eq.
    + destruct (next_sibling_total h Hwf fuel p) as [next' Hn'].
      rewrite Hn' in Hb. simpl in Hb.
      destruct (visible_parent curr p Hv Hp) as [He Hvp].
      assert (last_descendant (S m) h p = Some origin) as Hd'.
      { simpl. by rewrite (next_sibling_None h Hwf fuel curr p Hp He Hn). }
      specialize (IH p next' (S m) Hvp Hn' Hd' Hb).
      destruct r as [ns|].
      * destruct IH as (curr' & m' & ? & ? & ? & ? & ?).
        exists curr', m'. split_and!; try done; [by eapply on_path_step|lia].
      * intros b Hpb. apply on_path_inv in Hpb as [->|(p' & Hp' & Hpb)]; [done|].
        simplify_eq. by apply IH.
    + intros b Hpb. apply on_path_inv in Hpb as [->|(p' & Hp' & _)]; [done|congruence].
Qed.

Lemma bubble_up_nothing n fuel curr :
  curr ≤ n ->
  (∀ b, on_path h curr b -> next_sibling (S fuel) h b = Ok None) ->
  bubble_up n (S fuel) h curr None = Ok None.
Proof using Hwf.
  revert curr. induction n as [|n IH]; intros curr Hn Hall; simpl;
    destruct (parent (h !!! curr)) as [p|] eqn:Hp; try done;
    pose proof (wf_parent h Hwf _ _ Hp) as [Hlt _]; [lia|].
  rewrite (Hall p) by (econstructor; [constructor|done]). simpl.
  apply IH; [lia|]. intros b Hb. apply Hall. by eapply on_path_step.
Qed.

Lemma bubble_up_visible n fuel curr next r :
  visible h curr ->
  (∀ b, next = Some b -> visible h b) ->
  bubble_up n (S fuel) h curr next = Ok (Some r) -> visible h r.
Proof using Hwf.
  revert curr next. induction n as [|n IH]; intros curr next Hv Hnext;
    destruct next as [b|]; simpl; intros Hb; simplify_eq; auto;
    destruct (parent (h !!! curr)) as [p|] eqn:Hp; simplify_eq.
  destruct (next_sibling_total h Hwf fuel p) as [next' Hn'].
  rewrite Hn' in Hb. simpl in Hb.
  destruct (visible_parent curr p Hv Hp) as [He Hvp].
  eapply IH; [exact Hvp| |exact Hb].
  intros b ->. apply (next_sibling_Some h Hwf) in Hn' as (q & Hq & Hqb & Heq & _).
  destruct (visible_parent p q Hvp Hq). by eapply visible_child.
Qed.

Lemma last_descendant_below m c o :
  last_descendant m h c = Some o ->
  o = c ∨ ∃ p, parent (h !!! o) = Some p ∧ c ≤ p.
Proof using Hwf.
  revert c. induction m as [|m IH]; intros c; simpl;
    destruct (last (sorted_by_path h (visible_children h c))) as [cc|] eqn:Hl;
    intros Hd; simplify_eq; auto.
  apply last_visible_child in Hl as (_ & Hlt & _ & Hp).
  right. destruct (IH _ Hd) as [->|(p & Hpo & Hle)]; [by exists c|].
  exists p. split; [done|lia].
Qed.

End Navigation.

(** ** Traversal *)

Lemma sorted_ext {A} (k k' : A -> string) (l : list A) :
  (∀ x, k x = k' x) -> sorted k l = sorted k' l.
Proof.
  intros Hk. induction l as [|x l IH]; simpl; [done|]. rewrite IH.
  generalize (sorted k' l). intros l'.
  induction l' as [|y l' IH']; simpl; [done|].
  by rewrite !Hk, IH'.
Qed.

Lemma elem_of_concat {A} (x : A) (ls : list (list A)) :
  x ∈ concat ls ↔ ∃ l, x ∈ l ∧ l ∈ ls.
Proof.
  rewrite list_elem_of_In, in_concat. split; intros (l & H1 & H2); exists l.
  - by rewrite !list_elem_of_In.
  - by rewrite <- !list_elem_of_In.
Qed.

Section Traversal.
Context (h : heap) (Hwf : wf_heap h = true) (vis : bool).

Lemma elem_of_kids a c :
  c ∈ kids h vis a -> a < c ∧ c < length h ∧ parent (h !!! c) = Some a.
Proof using Hwf.
  unfold kids. destruct vis.
  - intros [_ Hc]%wf_visible_children. by apply wf_children.
  - by apply wf_children.
Qed.

Lemma NoDup_paths_kids a : NoDup (path_of h <$> kids h vis a).
Proof using Hwf.
  unfold kids. destruct vis; [by apply wf_distinct_visible|by apply wf_distinct].
Qed.

Lemma visit_order_sorted a :
  visit_order h (kids h vis a) = sorted_by_path h (kids h vis a).
Proof using Hwf. apply sorted_rev, NoDup_paths_kids. Qed.

(** One turn of the loop. *)
Lemma iterate_step fuel a stack :
  iterate (S fuel) h vis (a :: stack)
  = cons a <$> iterate fuel h vis (sorted_by_path h (kids h vis a) ++ stack).
Proof using Hwf.
  simpl. rewrite <- visit_order_sorted. unfold visit_order, kids.
  destruct vis; by rewrite extendleft_sorted_reverse.
Qed.

(** Below the height of the tree the cut of [preorder] has no effect. *)
Lemma preorder_stable n a :
  length h ≤ n + a + 1 -> preorder (S n) h vis a = preorder n h vis a.
Proof using Hwf.
  revert a. induction n as [|n IH]; intros a Hn.
  - simpl. destruct (sorted_by_path h (kids h vis a)) as [|c l] eqn:Hs; [done|].
    assert (c ∈ kids h vis a) as Hc.
    { apply (elem_of_sorted (path_of h)). fold (sorted_by_path h (kids h vis a)).
      rewrite Hs. constructor. }
    apply elem_of_kids in Hc. lia.
  - change (preorder (S (S n)) h vis a)
      with (a :: concat (preorder (S n) h vis <$> sorted_by_path h (kids h vis a))).
    change (preorder (S n) h vis a)
      with (a :: concat (preorder n h vis <$> sorted_by_path h (kids h vis a))).
    do 2 f_equal. apply list_fmap_ext. intros i c Hc.
    apply list_elem_of_lookup_2, elem_of_sorted, elem_of_kids in Hc.
    apply IH. lia.
Qed.

Lemma preorder_unfold a :
  preorder (length h) h vis a
  = a :: concat (preorder (length h) h vis <$> sorted_by_path h (kids h vis a)).
Proof using Hwf. rewrite <- preorder_stable at 1 by lia. done. Qed.

Lemma iterate_preorder fuel stack :
  length (concat (preorder (length h) h vis <$> stack)) ≤ fuel ->
  iterate fuel h vis stack = Some (concat (preorder (length h) h vis <$> stack)).
Proof using Hwf.
  revert stack. induction fuel as [|fuel IH]; intros [|a stack] Hlen; try done.
  - rewrite fmap_cons, preorder_unfold in Hlen. simpl in Hlen. lia.
  - rewrite iterate_step. rewrite fmap_cons, preorder_unfold.
    rewrite fmap_cons, preorder_unfold in Hlen. simpl in Hlen.
    rewrite IH.
    + simpl. by rewrite fmap_app, concat_app.
    + rewrite fmap_app, concat_app. lia.
Qed.

(** The nodes of a subtree are below its root. *)
Lemma preorder_on_path n a b : b ∈ preorder n h vis a -> on_path h b a.
Proof using Hwf.
  revert a. induction n as [|n IH]; intros a; simpl.
  - intros ->%list_elem_of_singleton. constructor.
  - intros [->|Hb]%elem_of_cons; [constructor|].
    apply elem_of_concat in Hb as (l & Hb & Hl).
    apply list_elem_of_fmap in Hl as (c & -> & Hc).
    apply elem_of_sorted, elem_of_kids in Hc as (_ & _ & Hp).
    econstructor; [by apply IH|done].
Qed.

Lemma on_path_le a x : on_path h a x -> x ≤ a.
Proof using Hwf.
  induction 1 as [|b p Hb IH Hp]; [done|].
  apply (wf_parent h Hwf) in Hp as [Hlt _]. lia.
Qed.

Lemma on_path_comparable b x y :
  on_path h b x -> on_path h b y -> on_path h x y ∨ on_path h y x.
Proof.
  intros Hx. revert y. induction Hx as [|x' x Hx' IH Hp]; intros y Hy; [by left|].
  destruct (IH y Hy) as [Hxy|Hyx].
  - apply on_path_inv in Hxy as [->|(p & Hp' & Hpy)].
    + right. econstructor; [constructor|done].
    + left. by simplify_eq.
  - right. by econstructor.
Qed.

Lemma preorder_bound n a b :
  a < length h -> b ∈ preorder n h vis a -> a ≤ b ∧ b < length h.
Proof using Hwf.
  revert a. induction n as [|n IH]; intros a Ha; simpl.
  - intros ->%list_elem_of_singleton. lia.
  - intros [->|Hb]%elem_of_cons; [lia|].
    apply elem_of_concat in Hb as (l & Hb & Hl).
    apply list_elem_of_fmap in Hl as (c & -> & Hc).
    apply elem_of_sorted, elem_of_kids in Hc as (? & ? & _).
    apply IH in Hb; lia.
Qed.

Lemma NoDup_concat_fmap {A} (f : addr -> list A) (l : list addr) :
  NoDup l ->
  (∀ c, c ∈ l -> NoDup (f c)) ->
  (∀ c1 c2 x, c1 ∈ l -> c2 ∈ l -> x ∈ f c1 -> x ∈ f c2 -> c1 = c2) ->
  NoDup (concat (f <$> l)).
Proof.
  induction 1 as [|c l Hc Hl IH]; intros Hf Hdisj; simpl; [constructor|].
  apply NoDup_app. split_and!.
  - apply Hf. constructor.
  - intros x Hx Hx'. apply elem_of_concat in Hx' as (l' & Hx' & Hl').
    apply list_elem_of_fmap in Hl' as (c' & -> & Hc').
    assert (c = c') as -> by (eapply Hdisj; eauto; by constructor).
    done.
  - apply IH.
    + intros c' Hc'. apply Hf. by constructor.
    + intros c1 c2 x H1 H2. apply Hdisj; by constructor.
Qed.

(** Every node is visited once. *)
Lemma NoDup_preorder n a : NoDup (preorder n h vis a).
Proof using Hwf.
  revert a. induction n as [|n IH]; intros a; simpl; [apply NoDup_singleton|].
  assert (∀ c, c ∈ sorted_by_path h (kids h vis a) ->
               a < c ∧ c < length h ∧ parent (h !!! c) = Some a) as Hkids.
  { intros c Hc. by apply elem_of_sorted, elem_of_kids in Hc. }
  constructor.
  - intros Hin. apply elem_of_concat in Hin as (l & Hb & Hl).
    apply list_elem_of_fmap in Hl as (c & -> & Hc).
    apply Hkids in Hc as (? & ? & _). apply preorder_bound in Hb; lia.
  - apply NoDup_concat_fmap.
    + apply NoDup_sorted, (NoDup_fmap_1 (path_of h)), NoDup_paths_kids.
    + intros c Hc. apply IH.
    + intros c1 c2 x H1 H2 Hx1 Hx2.
      apply Hkids in H1 as (Hlt1 & _ & Hp1). apply Hkids in H2 as (Hlt2 & _ & Hp2).
      apply preorder_on_path in Hx1, Hx2.
      destruct (on_path_comparable _ _ _ Hx1 Hx2) as [H12|H21].
      * apply on_path_inv in H12 as [->|(p & Hp & Hpa)]; [done|].
        simplify_eq. apply on_path_le in Hpa. lia.
      * apply on_path_inv in H21 as [->|(p & Hp & Hpa)]; [done|].
        simplify_eq. apply on_path_le in Hpa. lia.
Qed.

Lemma length_preorder n a : a < length h -> length (preorder n h vis a) ≤ length h.
Proof using Hwf.
  intros Ha.
  assert (preorder n h vis a ⊆+ seq 0 (length h)) as Hsub.
  { apply NoDup_submseteq; [apply NoDup_preorder|].
    intros b Hb. apply preorder_bound in Hb; [|done].
    apply list_elem_of_In, in_seq. lia. }
  apply submseteq_length in Hsub. by rewrite length_seq in Hsub.
Qed.

Lemma preorder_head n a : a ∈ preorder n h vis a.
Proof. destruct n; simpl; constructor. Qed.

Lemma preorder_kid n a b c :
  b ∈ preorder n h vis a -> c ∈ kids h vis b -> c ∈ preorder (S n) h vis a.
Proof.
  revert a. induction n as [|n IH]; intros a.
  - simpl. intros ->%list_elem_of_singleton Hc. right.
    apply elem_of_concat. exists [c]. split; [constructor|].
    apply list_elem_of_fmap. exists c. split; [done|]. by apply elem_of_sorted.
  - intros Hb Hc.
    change (preorder (S n) h vis a)
      with (a :: concat (preorder n h vis <$> sorted_by_path h (kids h vis a))) in Hb.
    change (preorder (S (S n)) h vis a)
      with (a :: concat (preorder (S n) h vis <$> sorted_by_path h (kids h vis a))).
    right. apply elem_of_concat.
    apply elem_of_cons in Hb as [->|Hb].
    + exists (preorder (S n) h vis c). split; [apply preorder_head|].
      apply list_elem_of_fmap. exists c. split; [done|]. by apply elem_of_sorted.
    + apply elem_of_concat in Hb as (l & Hb & Hl).
      apply list_elem_of_fmap in Hl as (k & -> & Hk).
      exists (preorder (S n) h vis k). split; [by apply IH|].
      apply list_elem_of_fmap. by exists k.
Qed.

(** The iterator yields the pre-order listing of the tree. *)
Lemma file_tree_iterator_preorder fuel (t : FileTree) :
  length h < fuel ->
  file_tree_iterator fuel h t vis = Some (preorder (length h) h vis (root t)).
Proof using Hwf.
  intros Hfuel. unfold file_tree_iterator.
  rewrite iterate_preorder; simpl; rewrite app_nil_r; [done|].
  destruct (decide (root t < length h)) as [Hlt|Hge].
  - pose proof (length_preorder (length h) (root t) Hlt). lia.
  - rewrite preorder_unfold. unfold kids, visible_children.
    rewrite lookup_total_ge by lia. simpl. destruct vis; simpl; lia.
Qed.

End Traversal.

(** The full traversal visits the nodes that can be reached from the root
    through [children]. *)
Lemma elem_of_preorder (h : heap) (a b : addr) :
  wf_heap h = true ->
  b ∈ preorder (length h) h false a ↔ descendant h a b.
Proof.
  intros Hwf. split.
  - generalize (length h). intros n. revert a.
    induction n as [|n IH]; intros a; simpl.
    + intros ->%list_elem_of_singleton. constructor.
    + intros [->|Hb]%elem_of_cons; [constructor|].
      apply elem_of_concat in Hb as (l & Hb & Hl).
      apply list_elem_of_fmap in Hl as (c & -> & Hc).
      apply elem_of_sorted in Hc. apply IH in Hb.
      clear -Hb Hc. induction Hb; [econstructor; [constructor|done]|by econstructor].
  - induction 1 as [|b c Hb IH Hc]; [apply preorder_head|].
    rewrite <- (preorder_stable h Hwf false) by lia.
    by eapply preorder_kid.
Qed.

Lemma StronglySorted_rev {A} (R : relation A) (l : list A) :
  StronglySorted R l -> StronglySorted (flip R) (rev l).
Proof.
  induction 1 as [|x l Hl IH Hx]; simpl; [constructor|].
  apply StronglySorted_app_2; [|done|repeat constructor].
  intros y z Hy ->%list_elem_of_singleton. unfold flip.
  rewrite Forall_forall in Hx. apply Hx.
  by apply list_elem_of_In, in_rev, list_elem_of_In.
Qed.

Lemma wf_node_intro (h : heap) (a : addr) :
  (∀ c, c ∈ children (h !!! a) ->
        a < c ∧ c < length h ∧ parent (h !!! c) = Some a) ->
  NoDup (path_of h <$> children (h !!! a)) ->
  (∀ p, parent (h !!! a) = Some p -> p < a ∧ a ∈ children (h !!! p)) ->
  wf_node h a = true.
Proof.
  intros Hc Hnd Hp. unfold wf_node. rewrite !andb_true_iff. split_and!.
  - apply forallb_forall. intros c Hin%list_elem_of_In.
    destruct (Hc c Hin) as (H1 & H2 & H3).
    rewrite !andb_true_iff, !Nat.ltb_lt, bool_decide_eq_true. done.
  - by apply NoDup_distinct.
  - destruct (parent (h !!! a)) as [p|]; [|done].
    destruct (Hp p eq_refl) as [H1 H2].
    rewrite andb_true_iff, Nat.ltb_lt. split; [done|].
    apply existsb_exists. exists a. split; [by apply list_elem_of_In|apply Nat.eqb_refl].
Qed.

Lemma wf_heap_intro (h : heap) :
  (∀ a, a < length h -> wf_node h a = true) -> wf_heap h = true.
Proof.
  intros Hn. unfold wf_heap. apply forallb_forall. intros a Ha%in_seq.
  apply Hn. lia.
Qed.

Lemma children_permuted_wf (h h' : heap) :
  wf_heap h = true -> children_permuted h h' -> wf_heap h' = true.
Proof.
  intros Hwf [Hlen Hsh]. apply wf_heap_intro. intros a _.
  destruct (Hsh a) as (_ & _ & Hpa & Hca). apply wf_node_intro.
  - intros c Hc. rewrite Hca in Hc. apply (wf_children h Hwf) in Hc.
    destruct (Hsh c) as (_ & _ & -> & _). by rewrite Hlen.
  - rewrite Hca. erewrite list_fmap_ext; [apply (wf_distinct h Hwf)|].
    intros _ c _. unfold path_of. by destruct (Hsh c) as (-> & _).
  - intros p Hp. rewrite Hpa in Hp. apply (wf_parent h Hwf) in Hp as [? Hin].
    destruct (Hsh p) as (_ & _ & _ & ->). done.
Qed.

Lemma children_permuted_preorder (h h' : heap) (vis : bool) (n : nat) (a : addr) :
  wf_heap h = true -> children_permuted h h' ->
  preorder n h' vis a = preorder n h vis a.
Proof.
  intros Hwf [Hlen Hsh]. revert a. induction n as [|n IH]; intros a; simpl; [done|].
  f_equal.
  assert (sorted_by_path h' (kids h' vis a) = sorted_by_path h (kids h vis a)) as ->.
  { unfold sorted_by_path.
    rewrite (sorted_ext (path_of h') (path_of h))
      by (intros c; unfold path_of; by destruct (Hsh c) as (-> & _)).
    assert (kids h' vis a ≡ₚ kids h vis a) as Hp.
    { unfold kids, visible_children. destruct (Hsh a) as (_ & -> & _ & Hc).
      by destruct vis, (expanded (h !!! a)). }
    symmetry. apply sorted_unique; [by apply NoDup_paths_kids|done]. }
  f_equal. apply list_fmap_ext. intros _ c _. apply IH.
Qed.

(** *** Pre-order, said on the tree *)

Lemma ltb_asym (s1 s2 : string) :
  String.ltb s1 s2 = true -> String.ltb s2 s1 = false.
Proof.
  unfold String.ltb. rewrite (String.compare_antisym s1 s2).
  by destruct (String.compare s2 s1).
Qed.

(** A list has one arrangement that ascends strictly. *)
Lemma strictly_sorted_unique {A} (key : A -> string) (l1 l2 : list A) :
  StronglySorted (fun x y => String.ltb (key x) (key y) = true) l1 ->
  StronglySorted (fun x y => String.ltb (key x) (key y) = true) l2 ->
  l1 ≡ₚ l2 -> l1 = l2.
Proof.
  intros H1 H2 Hp.
  apply (StronglySorted_unique_strong
           (fun x y => String.ltb (key x) (key y) = true)); [|done..].
  intros x1 x2 _ _ Hx Hy. rewrite (ltb_asym _ _ Hx) in Hy. done.
Qed.

Lemma sorted_reverse_perm {A} (key : A -> string) (l : list A) :
  sorted_reverse key l ≡ₚ l.
Proof.
  unfold sorted_reverse.
  by rewrite <- Permutation_rev, sorted_perm, <- Permutation_rev.
Qed.

Section PreOrder.
Context (h : heap) (Hwf : wf_heap h = true) (vis : bool).

Lemma kids_spec a :
  kids h vis a
  = if vis && negb (expanded (h !!! a)) then [] else children (h !!! a).
Proof. unfold kids, visible_children. by destruct vis, (expanded (h !!! a)). Qed.

(** [sorted] keeps the children and puts them in ascending order. *)
Lemma sorted_kids_spec a :
  sorted_by_path h (kids h vis a) ≡ₚ kids h vis a
  ∧ StronglySorted (fun x y => String.ltb (path_of h x) (path_of h y) = true)
                   (sorted_by_path h (kids h vis a)).
Proof using Hwf.
  split; [apply sorted_perm|]. apply sorted_strict. by apply NoDup_paths_kids.
Qed.

Lemma pre_orders_concat (f : addr -> list addr) ks :
  (∀ k, k ∈ ks -> pre_order h vis k (f k)) ->
  pre_orders h vis ks (concat (f <$> ks)).
Proof.
  induction ks as [|k ks IH]; intros Hf; simpl; constructor.
  - apply Hf. constructor.
  - apply IH. intros c Hc. apply Hf. by constructor.
Qed.

(** The listing that the iterator yields is a pre-order listing. *)
Lemma preorder_pre_order a :
  pre_order h vis a (preorder (length h) h vis a).
Proof using Hwf.
  remember (length h - a) as m eqn:Hm. revert a Hm.
  induction m as [m IH] using lt_wf_ind. intros a ->.
  rewrite (preorder_unfold h Hwf vis a).
  destruct (sorted_kids_spec a) as [Hp Hs].
  apply (pre_order_node h vis a (sorted_by_path h (kids h vis a)));
    [by rewrite <- kids_spec|done|].
  apply pre_orders_concat. intros k Hk.
  apply elem_of_sorted, (elem_of_kids h Hwf vis) in Hk as (Hlt & Hlen & _).
  apply (IH (length h - k)); [lia|done].
Qed.

(** There is no other. *)
Lemma pre_order_unique a l :
  pre_order h vis a l -> l = preorder (length h) h vis a.
Proof using Hwf.
  remember (length h - a) as m eqn:Hm. revert a l Hm.
  induction m as [m IH] using lt_wf_ind. intros a l -> Hl.
  inversion Hl as [a' ks l' Hp Hs Hks]; subst.
  rewrite (preorder_unfold h Hwf vis a). f_equal.
  destruct (sorted_kids_spec a) as [Hp' Hs'].
  assert (ks = sorted_by_path h (kids h vis a)) as <-.
  { apply (strictly_sorted_unique (path_of h)); [done..|].
    by rewrite Hp, Hp', kids_spec. }
  assert (∀ k, k ∈ ks -> a < k ∧ k < length h) as Hlt.
  { intros k Hk. rewrite Hp, <- kids_spec in Hk.
    by apply (elem_of_kids h Hwf vis) in Hk as (? & ? & _). }
  clear Hp Hs Hp' Hs' Hl. induction Hks as [|k ks l ls Hk Hks IHks]; [done|].
  simpl. f_equal.
  - apply (IH (length h - k)); [|done..].
    assert (a < k ∧ k < length h) by (apply Hlt; constructor). lia.
  - apply IHks. intros c Hc. apply Hlt. by constructor.
Qed.

End PreOrder.

(** C4: in a well-formed tree the full and the visible traversal return
    the pre-order listing of the tree in which the children of every node
    follow in strictly ascending order of path, and that listing is the
    only one: [pre_order] says so on the paths of the nodes, without the
    iterator and without [sorted].  On the way, [sorted] keeps the
    children of a node and puts them in strictly ascending order of
    path; the children are pushed in strictly descending order, each
    once, and [extendleft] leaves them on the stack in ascending order;
    and the listing does not depend on the order in which the children
    were inserted. *)
Theorem traversal_order (h : heap) (t : FileTree) (vis : bool) (fuel : nat) :
  wf_heap h = true -> length h < fuel ->
  (∃ l, file_tree_iterator fuel h t vis = Some l
        ∧ pre_order h vis (root t) l
        ∧ ∀ l', pre_order h vis (root t) l' -> l' = l)
  ∧ file_tree_iterator fuel h t vis = Some (preorder (length h) h vis (root t))
  ∧ (∀ a, sorted_by_path h (kids h vis a) ≡ₚ kids h vis a
          ∧ StronglySorted (fun x y => String.ltb (path_of h x) (path_of h y) = true)
                           (sorted_by_path h (kids h vis a)))
  ∧ (∀ a, sorted_reverse (path_of h) (kids h vis a) ≡ₚ kids h vis a
          ∧ StronglySorted (fun x y => String.ltb (path_of h y) (path_of h x) = true)
                           (sorted_reverse (path_of h) (kids h vis a)))
  ∧ (∀ xs stack, extendleft xs stack = rev xs ++ stack)
  ∧ (∀ a stack, extendleft (sorted_reverse (path_of h) (kids h vis a)) stack
                = sorted_by_path h (kids h vis a) ++ stack)
  ∧ (∀ h', children_permuted h h' ->
           file_tree_iterator fuel h' t vis = file_tree_iterator fuel h t vis).
Proof.
  intros Hwf Hfuel. split_and!.
  - exists (preorder (length h) h vis (root t)). split_and!.
    + by apply file_tree_iterator_preorder.
    + by apply preorder_pre_order.
    + intros l'. by apply pre_order_unique.
  - by apply file_tree_iterator_preorder.
  - intros a. by apply sorted_kids_spec.
  - intros a. split; [apply sorted_reverse_perm|]. unfold sorted_reverse.
    rewrite sorted_rev by (by apply NoDup_paths_kids).
    apply (StronglySorted_rev (fun x y => String.ltb (path_of h x) (path_of h y) = true)).
    apply sorted_strict. by apply NoDup_paths_kids.
  - apply extendleft_app.
  - intros a stack. rewrite extendleft_sorted_reverse.
    f_equal. apply sorted_rev. by apply NoDup_paths_kids.
  - intros h' Hperm.
    pose proof (children_permuted_wf h h' Hwf Hperm) as Hwf'.
    rewrite !file_tree_iterator_preorder by (done || (destruct Hperm as [-> _]; done)).
    destruct Hperm as [Hlen Hsh]. rewrite Hlen.
    f_equal. apply children_permuted_preorder; [done|by split].
Qed.

Lemma traversal_order_witness :
  (∃ l, file_tree_iterator 6 small_store (mkFileTree 0 ∅) true = Some l
        ∧ pre_order small_store true 0 l
        ∧ ∀ l', pre_order small_store true 0 l' -> l' = l)
  ∧ file_tree_iterator 6 small_store (mkFileTree 0 ∅) true
    = Some (preorder (length small_store) small_store true 0)
  ∧ (∀ a, sorted_by_path small_store (kids small_store true a) ≡ₚ kids small_store true a
          ∧ StronglySorted
              (fun x y => String.ltb (path_of small_store x) (path_of small_store y) = true)
              (sorted_by_path small_store (kids small_store true a)))
  ∧ (∀ a, sorted_reverse (path_of small_store) (kids small_store true a)
          ≡ₚ kids small_store true a
          ∧ StronglySorted
              (fun x y => String.ltb (path_of small_store y) (path_of small_store x) = true)
              (sorted_reverse (path_of small_store) (kids small_store true a)))
  ∧ (∀ xs stack, extendleft xs stack = rev xs ++ stack)
  ∧ (∀ a stack,
        extendleft (sorted_reverse (path_of small_store) (kids small_store true a)) stack
        = sorted_by_path small_store (kids small_store true a) ++ stack)
  ∧ (∀ h', children_permuted small_store h' ->
           file_tree_iterator 6 h' (mkFileTree 0 ∅) true
           = file_tree_iterator 6 small_store (mkFileTree 0 ∅) true).
Proof.
  apply (traversal_order small_store (mkFileTree 0 ∅) true 6); [reflexivity|simpl; lia].
Defined.

(** ** Construction *)

Lemma hops_stable (h1 h2 : heap) (a b : addr) (k : nat) :
  (∀ x, x < length h1 -> parent (h2 !!! x) = parent (h1 !!! x)) ->
  hops h1 a k b -> hops h2 a k b.
Proof.
  intros Hst. induction 1 as [|a p k b Hp _ IH]; [constructor|].
  econstructor; [|exact IH].
  destruct (decide (a < length h1)) as [Hlt|Hge]; [by rewrite Hst|].
  by rewrite lookup_total_ge in Hp by lia.
Qed.

Lemma hops_snoc (h : heap) (a b r : addr) (k : nat) :
  hops h a k b -> parent (h !!! b) = Some r -> hops h a (S k) r.
Proof.
  induction 1 as [b|a p k b Hp _ IH]; intros Hr.
  - econstructor; [done|constructor].
  - econstructor; [done|by apply IH].
Qed.

Lemma hops_level (h : heap) (a r : addr) (k : nat) :
  hops h a k r -> parent (h !!! r) = None -> level h a k.
Proof.
  induction 1 as [r|a p k r Hp _ IH]; intros Hr; [by constructor|].
  econstructor; [done|by apply IH].
Qed.

Lemma same_fields_refl (n : FileNode) : same_fields n n.
Proof. by repeat split. Qed.

Lemma same_fields_trans (n1 n2 n3 : FileNode) :
  same_fields n1 n2 -> same_fields n2 n3 -> same_fields n1 n3.
Proof.
  intros (? & ? & ? & ? & ?) (? & ? & ? & ? & ?). repeat split; congruence.
Qed.

Section Subdirectories.
Context (E : environment) (p : string).

Lemma subdirectories_among_app es1 es2 :
  subdirectories_among E p (es1 ++ es2)
  = subdirectories_among E p es1 ++ subdirectories_among E p es2.
Proof.
  unfold subdirectories_among. by rewrite filter_app, fmap_app, filter_app.
Qed.

Lemma subdirectories_among_skip e :
  hidden e = true ∨ isdir E (posixpath.join p e) = false ->
  subdirectories_among E p [e] = [].
Proof.
  unfold subdirectories_among. intros [He|He].
  - rewrite filter_cons_False; [done|]. by rewrite He.
  - destruct (hidden e) eqn:Hh.
    + rewrite filter_cons_False; [done|]. by rewrite Hh.
    + rewrite filter_cons_True by done. simpl.
      rewrite filter_cons_False; [done|]. by rewrite He.
Qed.

Lemma subdirectories_among_take e :
  hidden e = false -> isdir E (posixpath.join p e) = true ->
  subdirectories_among E p [e] = [posixpath.join p e].
Proof.
  unfold subdirectories_among. intros Hh He.
  rewrite filter_cons_True by done. simpl. by rewrite filter_cons_True.
Qed.
End Subdirectories.

Section Allocation.
Context (h : heap) (r : addr) (child : FileNode) (Hr : r < length h).

Lemma linked_length : length (linked h r child) = S (length h).
Proof using Type.
  unfold linked. rewrite length_insert, length_app. simpl. apply Nat.add_1_r.
Qed.

Lemma linked_new : linked h r child !!! length h = child.
Proof using Hr.
  unfold linked. rewrite list_lookup_total_insert_ne by lia.
  by rewrite list_lookup_total_middle.
Qed.

Lemma linked_parent : linked h r child !!! r = append_child (length h) (h !!! r).
Proof using Hr.
  unfold linked. rewrite list_lookup_total_insert_eq by (rewrite length_app; lia).
  by rewrite lookup_total_app_l.
Qed.

Lemma linked_other a : a < length h -> a ≠ r -> linked h r child !!! a = h !!! a.
Proof using Type.
  intros Ha Hne. unfold linked. rewrite list_lookup_total_insert_ne by done.
  by rewrite lookup_total_app_l.
Qed.
End Allocation.

Lemma grows_refl (E : environment) (r : addr) (d : Z) (st : list FileNode * FileTree) :
  grows E r d [] st st.
Proof.
  unfold grows. split_and!.
  - done.
  - done.
  - done.
  - apply same_fields_refl.
  - exists []. split_and!; [by rewrite app_nil_r|done|by intros c ?%elem_of_nil].
  - intros; lia.
  - auto.
Qed.

Lemma expanded_budget (d : Z) (k : nat) :
  1 ≤ k -> (Z.of_nat k <=? Z.max (d - 1) 0)%Z = (Z.of_nat (S k) <=? d)%Z.
Proof.
  intros Hk.
  destruct (Z.leb_spec (Z.of_nat k) (Z.max (d - 1) 0)),
           (Z.leb_spec (Z.of_nat (S k)) d); try done; lia.
Qed.

Lemma new_child_fields (E : environment) (r : addr) (d : Z) (q : string) :
  full_path (new_child E r d q) = q
  ∧ is_dir (new_child E r d q) = isdir E q
  ∧ expanded (new_child E r d q) = (1 <=? d)%Z
  ∧ parent (new_child E r d q) = Some r
  ∧ children (new_child E r d q) = [].
Proof.
  unfold new_child.
  destruct (Z.gtb_spec d 0), (Z.leb_spec 1 d); simpl; try done; lia.
Qed.

(** One entry of the listing: the effect of the loop so far, the new
    child and the recursive call on it add up to the effect of the loop
    with that entry. *)
Lemma grows_step (E : environment) (r : addr) (d : Z) (ps : list string)
    (h : heap) (t : FileTree) (h1 : heap) (t1 : FileTree) (q : string)
    (h3 : heap) (t3 : FileTree) :
  r < length h ->
  grows E r d ps (h, t) (h1, t1) ->
  isdir E q = true ->
  grows E (length h1) (Z.max (d - 1) 0) (subdirectories E q)
        (linked h1 r (new_child E r d q), set_node q (length h1) t1) (h3, t3) ->
  grows E r d (ps ++ [q]) (h, t) (h3, t3).
Proof.
  intros Hr (L1 & R1 & F1 & S1 & (new1 & C1 & P1 & N1) & B1 & I1) Hq
         (L2 & R2 & F2 & S2 & (new2 & C2 & P2 & N2) & B2 & I2).
  simpl in *.
  assert (r < length h1) as Hrc by lia.
  rewrite linked_length in L2, F2, N2, B2, I2 by done.
  rewrite (linked_new h1 r _ Hrc) in S2, C2.
  pose proof (linked_other h1 r (new_child E r d q)) as Kother.
  pose proof (linked_parent h1 r (new_child E r d q) Hrc) as Klink.
  set (h2 := linked h1 r (new_child E r d q)) in *.
  set (c := length h1) in *.
  set (child := new_child E r d q) in *.
  destruct (new_child_fields E r d q) as (Kp & Kd & Ke & Kpar & Kch).
  fold child in Kp, Kd, Ke, Kpar, Kch.
  (* the old part of the store *)
  assert (∀ x, x < c -> x ≠ r -> h3 !!! x = h1 !!! x) as Kold.
  { intros x Hx Hne. rewrite F2 by lia. by apply Kother. }
  assert (h3 !!! r = append_child c (h1 !!! r)) as Kr.
  { rewrite F2 by lia. done. }
  assert (∀ x, x < c -> same_fields (h1 !!! x) (h3 !!! x)) as Kfields.
  { intros x Hx. destruct (decide (x = r)) as [->|Hne].
    - rewrite Kr. by repeat split.
    - rewrite Kold by done. apply same_fields_refl. }
  assert (∀ x, x < c -> path_of h3 x = path_of h1 x) as Kpath.
  { intros x Hx. unfold path_of. by destruct (Kfields x Hx) as (-> & _). }
  assert (∀ x, x < c -> parent (h3 !!! x) = parent (h1 !!! x)) as Kparent.
  { intros x Hx. by destruct (Kfields x Hx) as (_ & _ & _ & _ & ->). }
  assert (∀ l : list nat, (∀ x, x ∈ l -> x < c) -> path_of h3 <$> l = path_of h1 <$> l)
    as Kpaths.
  { intros l Hl. apply list_fmap_ext. intros i x Hx. apply Kpath, Hl.
    by eapply list_elem_of_lookup_2. }
  destruct S2 as (Sp & Sd & Se & Spk & Spar).
  rewrite Kch in C2. simpl in C2.
  unfold grows. simpl. split_and!.
  - lia.
  - by rewrite R2.
  - intros a Ha Hne. rewrite Kold by lia. by apply F1.
  - eapply same_fields_trans; [exact S1|]. rewrite Kr. by repeat split.
  - exists (new1 ++ [c]). split_and!.
    + rewrite Kr. simpl. by rewrite C1, app_assoc.
    + rewrite fmap_app. f_equal.
      * rewrite Kpaths; [done|]. intros x Hx. apply N1 in Hx. lia.
      * simpl. unfold path_of. by rewrite Sp, Kp.
    + intros x [Hx| ->%list_elem_of_singleton]%elem_of_app.
      * apply N1 in Hx as (? & ? & Hpx). split_and!; [lia..|].
        by rewrite Kparent.
      * split_and!; [lia..|]. by rewrite Spar.
  - intros a Hlo Hhi.
    destruct (decide (a < c)) as [Hlt|Hge]; [|destruct (decide (a = c)) as [->|Hne]].
    + (* created earlier in the loop *)
      destruct (B1 a Hlo Hlt) as (D & (k & Hk & Hh & He) & Pc & Ch & (p & Hp & Hpa & Hin)).
      assert (h3 !!! a = h1 !!! a) as Ka by (apply Kold; lia).
      unfold built_node. rewrite Ka. split_and!.
      * done.
      * exists k. split_and!; [done| |done]. by eapply hops_stable.
      * rewrite Kpaths by (intros x Hx; apply Ch in Hx; lia).
        rewrite Pc. unfold path_of. by rewrite Ka.
      * intros x Hx. destruct (Ch x Hx) as (? & ? & ?). split_and!; [lia..|].
        by rewrite Kparent.
      * exists p. split_and!; [done..|].
        destruct (decide (p = r)) as [->|Hne].
        -- rewrite Kr. simpl. apply elem_of_app. by left.
        -- rewrite Kold by lia. done.
    + (* the new child *)
      unfold built_node. split_and!.
      * by rewrite Sd, Kd.
      * exists 1. split_and!; [done| |by rewrite Se, Ke].
        econstructor; [by rewrite Spar|constructor].
      * rewrite C2, P2. unfold path_of. by rewrite Sp, Kp.
      * intros x Hx. rewrite C2 in Hx. apply N2 in Hx as (? & ? & ?).
        split_and!; [lia..|done].
      * exists r. split_and!; [by rewrite Spar|done|].
        rewrite Kr. simpl. apply elem_of_app. right. constructor.
    + (* created by the recursive call *)
      destruct (B2 a) as (D & (k & Hk & Hh & He) & Pc & Ch & Par); [lia..|].
      unfold built_node. split_and!; try done.
      exists (S k). split_and!; [lia| |].
      * eapply hops_snoc; [exact Hh|by rewrite Spar].
      * by rewrite He, expanded_budget.
  - intros key a Ha. apply I2 in Ha as [Ha|(? & ? & ?)]; [|right; split_and!; [lia..|done]].
    unfold set_node in Ha. simpl in Ha.
    destruct (decide (q = key)) as [->|Hne].
    + rewrite lookup_insert_eq in Ha. injection Ha as <-.
      right. split_and!; [lia..|]. unfold path_of. by rewrite Sp, Kp.
    + rewrite lookup_insert_ne in Ha by done.
      apply I1 in Ha as [Ha|(? & ? & ?)]; [by left|].
      right. split_and!; [lia..|]. by rewrite Kpath.
Qed.

Lemma foldl_None {A B} (f : option A -> B -> option A) (l : list B) :
  (∀ x, f None x = None) -> foldl f None l = None.
Proof. intros Hf. induction l as [|x l IH]; simpl; [done|]. by rewrite Hf. Qed.

Lemma grows_root (E : environment) (r : addr) (d : Z) (ps : list string)
    (h : heap) (t : FileTree) (h1 : heap) (t1 : FileTree) :
  grows E r d ps (h, t) (h1, t1) ->
  full_path (h1 !!! r) = path_of h r ∧ length h ≤ length h1.
Proof. intros (? & _ & _ & (? & _) & _). simpl in *. done. Qed.

Section BuildSubtree.
Context (E : environment).

Section Loop.
Context (recurse : addr -> Z -> list FileNode * FileTree -> option (list FileNode * FileTree)).
Context (Hrec : ∀ c dd st st',
            recurse c dd st = Some st' -> c < length st.1 -> expected E c dd st st').
Context (r : addr) (d : Z) (h : heap) (t : FileTree) (Hr : r < length h).

Lemma build_entry_spec ps st1 e st' :
  grows E r d ps (h, t) st1 ->
  build_entry E recurse r d st1 e = Some st' ->
  grows E r d (ps ++ subdirectories_among E (path_of h r) [e]) (h, t) st'.
Proof using Hrec Hr.
  destruct st1 as [h1 t1]. intros Hg. unfold build_entry.
  destruct (grows_root _ _ _ _ _ _ _ _ Hg) as [-> Hlen].
  fold (hidden e).
  destruct (hidden e) eqn:Hh.
  { intros [= <-]. rewrite subdirectories_among_skip by auto. by rewrite app_nil_r. }
  destruct (isdir E (posixpath.join (path_of h r) e)) eqn:Hd; simpl.
  2:{ intros [= <-]. rewrite subdirectories_among_skip by auto. by rewrite app_nil_r. }
  rewrite subdirectories_among_take by done.
  set (q := posixpath.join (path_of h r) e) in *.
  fold (new_child E r d q). fold (linked h1 r (new_child E r d q)).
  replace (is_dir (if (d >? 0)%Z
                   then set_expanded true (FileNode_build_from_path E q)
                   else FileNode_build_from_path E q))
    with true by (destruct (d >? 0)%Z; simpl; by rewrite Hd).
  intros Hcall.
  assert (r < length h1) as Hr1 by lia.
  apply Hrec in Hcall; [|simpl; rewrite linked_length; lia].
  eapply grows_step; [done|exact Hg|exact Hd|].
  unfold expected in Hcall. simpl in Hcall.
  destruct (new_child_fields E r d q) as (Kp & Kd & _).
  unfold path_of in Hcall.
  rewrite (linked_new h1 r _ Hr1), Kp, Kd, Hd in Hcall. exact Hcall.
Qed.

Lemma build_entries_spec es ps st1 st' :
  grows E r d ps (h, t) st1 ->
  foldl (fun acc entry => st ← acc; build_entry E recurse r d st entry)
        (Some st1) es = Some st' ->
  grows E r d (ps ++ subdirectories_among E (path_of h r) es) (h, t) st'.
Proof using Hrec Hr.
  revert ps st1. induction es as [|e es IH]; intros ps st1 Hg; simpl.
  - intros [= <-]. unfold subdirectories_among. simpl. by rewrite app_nil_r.
  - destruct (build_entry E recurse r d st1 e) as [st2|] eqn:He;
      [|by rewrite foldl_None].
    intros Hl. apply (build_entry_spec ps) in He; [|done].
    apply (IH (ps ++ subdirectories_among E (path_of h r) [e])) in Hl; [|exact He].
    rewrite <- app_assoc in Hl.
    by rewrite <- subdirectories_among_app in Hl.
Qed.
End Loop.

(** The effect of [_build_subtree]. *)
Lemma build_subtree_spec fuel r d st st' :
  _build_subtree E fuel r d st = Some st' -> r < length st.1 ->
  expected E r d st st'.
Proof.
  revert r d st st'. induction fuel as [|fuel IH]; intros r d [h t] st'; [done|].
  simpl. intros Hb Hr. unfold expected. simpl.
  destruct (is_dir (h !!! r)); [|injection Hb as <-; apply grows_refl].
  unfold subdirectories. fold (path_of h r) in Hb.
  destruct (listdir E (path_of h r)) as [es|]; [|injection Hb as <-; apply grows_refl].
  apply (build_entries_spec (_build_subtree E fuel) IH r d h t Hr es []) in Hb;
    [done|apply grows_refl].
Qed.

(** [_build_subtree] returns when the directories below the node are
    of bounded depth. *)
Lemma build_subtree_total n fuel r d st :
  bounded E n (path_of st.1 r) = true -> n ≤ fuel -> r < length st.1 ->
  ∃ st', _build_subtree E fuel r d st = Some st'.
Proof.
  revert fuel r d st. induction n as [|n IH]; intros fuel r d [h t]; [done|].
  simpl. intros Hb Hfuel Hr. destruct fuel as [|fuel]; [lia|]. simpl.
  destruct (is_dir (h !!! r)); [|eauto].
  fold (path_of h r).
  destruct (listdir E (path_of h r)) as [es|]; [|eauto].
  assert (grows E r d [] (h, t) (h, t)) as Hg by apply grows_refl.
  revert Hg. generalize (@nil string). generalize (h, t) at 2 3.
  induction es as [|e es IHes]; intros st1 ps Hg; simpl; [eauto|].
  apply andb_true_iff in Hb as [He Hes].
  assert (∃ st2, build_entry E (_build_subtree E fuel) r d st1 e = Some st2)
    as [st2 Hst2].
  { destruct st1 as [h1 t1]. unfold build_entry.
    destruct (grows_root _ _ _ _ _ _ _ _ Hg) as [-> Hlen].
    fold (hidden e). destruct (hidden e); [eauto|]. simpl in He.
    destruct (isdir E (posixpath.join (path_of h r) e)) eqn:Hd; simpl; [|eauto].
    simpl in He.
    set (q := posixpath.join (path_of h r) e) in *.
    fold (new_child E r d q). fold (linked h1 r (new_child E r d q)).
    replace (is_dir (if (d >? 0)%Z
                     then set_expanded true (FileNode_build_from_path E q)
                     else FileNode_build_from_path E q))
      with true by (destruct (d >? 0)%Z; simpl; by rewrite Hd).
    assert (r < length h1) as Hr1 by lia.
    apply IH; [|lia|simpl; rewrite linked_length; lia].
    simpl. unfold path_of. rewrite (linked_new h1 r _ Hr1).
    by destruct (new_child_fields E r d q) as (-> & _). }
  rewrite Hst2. simpl.
  eapply (IHes Hes), (build_entry_spec (_build_subtree E fuel)); eauto.
  intros c dd st st'. apply build_subtree_spec.
Qed.

End BuildSubtree.

(** ** [build_from_path] *)

Section BuildFromPath.
Context (E : environment) (path : string) (depth : Z).

(** The store and the tree in which [build_from_path] calls
    [_build_subtree]. *)
Lemma build_from_path_unfold fuel :
  FileTree_build_from_path E fuel path depth
  = _build_subtree E fuel 0 depth
      ([set_expanded true (FileNode_build_from_path E (canonical E path))],
       mkFileTree 0 (<[path := 0]> ∅)).
Proof. done. Qed.

Lemma build_from_path_total n fuel :
  bounded E n (canonical E path) = true -> n ≤ fuel ->
  ∃ st, FileTree_build_from_path E fuel path depth = Some st.
Proof.
  intros Hb Hfuel. rewrite build_from_path_unfold.
  eapply build_subtree_total; [exact Hb|done|simpl; lia].
Qed.

Lemma build_from_path_grows fuel st :
  FileTree_build_from_path E fuel path depth = Some st ->
  expected E 0 depth
    ([set_expanded true (FileNode_build_from_path E (canonical E path))],
     mkFileTree 0 (<[path := 0]> ∅)) st.
Proof.
  rewrite build_from_path_unfold. intros Hb.
  apply build_subtree_spec in Hb; [done|simpl; lia].
Qed.

(** The root of the built tree. *)
Lemma build_from_path_root fuel h t :
  FileTree_build_from_path E fuel path depth = Some (h, t) ->
  root t = 0 ∧ 0 < length h
  ∧ full_path (h !!! 0) = canonical E path
  ∧ is_dir (h !!! 0) = isdir E (canonical E path)
  ∧ expanded (h !!! 0) = true
  ∧ parent (h !!! 0) = None
  ∧ path_of h <$> children (h !!! 0)
    = (if isdir E (canonical E path) then subdirectories E (canonical E path) else [])
  ∧ (∀ c, c ∈ children (h !!! 0) -> 0 < c ∧ c < length h ∧ parent (h !!! c) = Some 0).
Proof.
  intros Hb. apply build_from_path_grows in Hb.
  destruct Hb as (L & R & _ & (Sp & Sd & Se & _ & Spar) & (new & C & P & N) & _).
  simpl in *. split_and!; try done.
  - by rewrite C, P.
  - intros c Hc. rewrite C in Hc. apply N in Hc. split_and!; [lia|tauto..].
Qed.

(** The other nodes of the built tree. *)
Lemma build_from_path_node fuel h t a :
  FileTree_build_from_path E fuel path depth = Some (h, t) ->
  0 < a -> a < length h -> built_node E 0 depth h a.
Proof.
  intros Hb Ha Hlt. apply build_from_path_grows in Hb.
  destruct Hb as (_ & _ & _ & _ & _ & B & _). apply B; simpl; lia.
Qed.

(** Where the index points. *)
Lemma build_from_path_index fuel h t key a :
  FileTree_build_from_path E fuel path depth = Some (h, t) ->
  nodes t !! key = Some a ->
  (key = path ∧ a = 0) ∨ (0 < a ∧ a < length h ∧ path_of h a = key).
Proof.
  intros Hb Hk. apply build_from_path_grows in Hb.
  destruct Hb as (_ & _ & _ & _ & _ & _ & I).
  apply I in Hk as [Hk|(? & ? & ?)]; simpl in *; [|right; split_and!; [lia|done..]].
  left. destruct (decide (path = key)) as [->|Hne].
  - rewrite lookup_insert_eq in Hk. by injection Hk as <-.
  - by rewrite lookup_insert_ne in Hk.
Qed.

(** The built tree satisfies the invariants of the data model. *)
Lemma build_from_path_wf fuel h t :
  sane E ->
  FileTree_build_from_path E fuel path depth = Some (h, t) ->
  wf_heap h = true.
Proof.
  intros Hsane Hb. apply wf_heap_intro. intros a Ha.
  destruct (decide (a = 0)) as [->|Hne].
  - destruct (build_from_path_root _ _ _ Hb) as (_ & _ & _ & _ & _ & Hp & Hc & Hk).
    apply wf_node_intro; [done| |by rewrite Hp].
    rewrite Hc. destruct (isdir E (canonical E path)); [apply Hsane|constructor].
  - destruct (build_from_path_node _ _ _ a Hb) as (_ & _ & Hc & Hk & (p & Hp & ? & ?));
      [lia|done|].
    apply wf_node_intro; [done|rewrite Hc; apply Hsane|].
    intros p' Hp'. by simplify_eq.
Qed.

End BuildFromPath.

(** C1, amended: when the directories below the root nest less than [n]
    levels deep, [build_from_path] returns, and in the tree it builds for
    a depth that is not negative a node [k] levels below the root is
    expanded exactly when [k] is at most [depth]; the root is the only
    node at level 0; and every directory node, whatever its level, has
    one child for each of its subdirectories that are not hidden. *)
Theorem build_from_path_levels (E : environment) (path : string) (depth : Z)
    (n fuel : nat) :
  bounded E n (canonical E path) = true -> n ≤ fuel -> (0 ≤ depth)%Z ->
  ∃ h t, FileTree_build_from_path E fuel path depth = Some (h, t)
    ∧ ∀ a, a < length h ->
        ∃ k, level h a k
          ∧ (k = 0 ↔ a = root t)
          ∧ (expanded (h !!! a) = true ↔ (Z.of_nat k ≤ depth)%Z)
          ∧ (is_dir (h !!! a) = true ->
             path_of h <$> children (h !!! a) = subdirectories E (path_of h a)).
Proof.
  intros Hb Hfuel Hdepth.
  destruct (build_from_path_total E path depth n fuel Hb Hfuel) as [[h t] Hst].
  exists h, t. split; [done|]. intros a Ha.
  destruct (build_from_path_root _ _ _ _ _ _ Hst)
    as (Hroot & _ & Hpath & Hdir & Hexp & Hpar & Hch & _).
  destruct (decide (a = 0)) as [->|Hne].
  - exists 0. split_and!.
    + by constructor.
    + by rewrite Hroot.
    + rewrite Hexp. simpl. split; [lia|done].
    + intros Hd. rewrite Hch. unfold path_of. rewrite Hpath.
      rewrite Hdir in Hd. by rewrite Hd.
  - destruct (build_from_path_node _ _ _ _ _ _ a Hst) as (_ & (k & Hk & Hh & He) & Hc & _);
      [lia|done|].
    exists k. split_and!.
    + by eapply hops_level.
    + rewrite Hroot. lia.
    + rewrite He. apply Z.leb_le.
    + done.
Qed.

Lemma build_from_path_levels_witness :
  ∃ h t, FileTree_build_from_path project 5 "/r" 2 = Some (h, t)
    ∧ ∀ a, a < length h ->
        ∃ k, level h a k
          ∧ (k = 0 ↔ a = root t)
          ∧ (expanded (h !!! a) = true ↔ (Z.of_nat k ≤ 2)%Z)
          ∧ (is_dir (h !!! a) = true ->
             path_of h <$> children (h !!! a) = subdirectories project (path_of h a)).
Proof.
  apply (build_from_path_levels project "/r" 2 5 5); [reflexivity|lia|lia].
Defined.

(** [small_store] is the store that [build_from_path] builds for the small
    project. *)
Example small_store_built :
  fst <$> FileTree_build_from_path project 5 "/r" 2 = Some small_store.
Proof. by vm_compute. Qed.

(** C1 as worded fails: built to depth 0, the node of [/r/a] is one level
    below the root, beyond the limit, and has its child [/r/a/x]. *)
Lemma build_from_path_explores_below_depth :
  ¬ unexplored_beyond_depth project "/r" 0.
Proof.
  intros H.
  destruct (FileTree_build_from_path project 5 "/r" 0) as [[h t]|] eqn:Hb;
    [|by vm_compute in Hb].
  specialize (H 5 h t 2 1 Hb).
  vm_compute in Hb. injection Hb as <- _.
  destruct H as [_ H]; [|lia|discriminate H].
  econstructor; [reflexivity|]. by constructor.
Qed.

(** ** [expand_path] *)

Lemma string_length_app (s1 s2 : string) :
  String.length (s1 +:+ s2) = String.length s1 + String.length s2.
Proof. induction s1 as [|c s1 IH]; simpl; [done|]. by rewrite IH. Qed.

Lemma not_found_not_a_directory (p1 p2 : string) :
  String.length p1 = String.length p2 -> not_found p1 ≠ not_a_directory p2.
Proof.
  unfold not_found, not_a_directory. intros Hlen [= Heq].
  apply (f_equal String.length) in Heq.
  rewrite !string_length_app in Heq. simpl in Heq. lia.
Qed.

(** C6: [expand_path] raises the not-found error exactly when the path is
    not a key of the index, and the not-a-directory error when the
    indexed node is not a directory; for a directory node it is one call
    of [_build_subtree] on that node with depth 1, which returns when
    the directories below the node are of bounded depth; and when it
    raises, the store and the tree are as before. *)
Theorem expand_path_errors (E : environment) (fuel : nat) (path : string)
    (h : heap) (t : FileTree) :
  ((expand_path E fuel path (h, t)).2 = Raise (not_found path) ↔ nodes t !! path = None)
  ∧ (∀ a, nodes t !! path = Some a -> is_dir (h !!! a) = false ->
          expand_path E fuel path (h, t) = ((h, t), Raise (not_a_directory path)))
  ∧ (∀ a, nodes t !! path = Some a -> is_dir (h !!! a) = true ->
          expand_path E fuel path (h, t)
          = match _build_subtree E fuel a 1 (h, t) with
            | Some st' => (st', Ok tt)
            | None => ((h, t), Diverges)
            end
          ∧ ∀ n, a < length h -> bounded E n (path_of h a) = true -> n ≤ fuel ->
                 ∃ st', expand_path E fuel path (h, t) = (st', Ok tt))
  ∧ (∀ e, (expand_path E fuel path (h, t)).2 = Raise e ->
          (expand_path E fuel path (h, t)).1 = (h, t)).
Proof.
  unfold expand_path. simpl. split_and!.
  - destruct (nodes t !! path) as [a|]; [|done].
    destruct (is_dir (h !!! a)); simpl.
    + destruct (_build_subtree E fuel a 1 (h, t)); by split.
    + split; [|done]. intros Heq. exfalso.
      apply (not_found_not_a_directory path path); [done|congruence].
  - intros a -> ->. done.
  - intros a -> ->. simpl. split; [done|]. intros n Ha Hb Hfuel.
    destruct (build_subtree_total E n fuel a 1 (h, t) Hb Hfuel Ha) as [st' ->].
    by exists st'.
  - intros e. destruct (nodes t !! path) as [a|]; [|done].
    destruct (is_dir (h !!! a)); simpl; [|done].
    by destruct (_build_subtree E fuel a 1 (h, t)).
Qed.

Lemma expand_path_errors_witness :
  ((expand_path project 5 "/r/zzz" lone_root).2 = Raise (not_found "/r/zzz")
   ↔ nodes lone_root.2 !! "/r/zzz" = None)
  ∧ (∀ a, nodes lone_root.2 !! "/r/zzz" = Some a -> is_dir (lone_root.1 !!! a) = false ->
          expand_path project 5 "/r/zzz" lone_root
          = (lone_root, Raise (not_a_directory "/r/zzz")))
  ∧ (∀ a, nodes lone_root.2 !! "/r/zzz" = Some a -> is_dir (lone_root.1 !!! a) = true ->
          expand_path project 5 "/r/zzz" lone_root
          = match _build_subtree project 5 a 1 lone_root with
            | Some st' => (st', Ok tt)
            | None => (lone_root, Diverges)
            end
          ∧ ∀ n, a < length lone_root.1 -> bounded project n (path_of lone_root.1 a) = true ->
                 n ≤ 5 -> ∃ st', expand_path project 5 "/r/zzz" lone_root = (st', Ok tt))
  ∧ (∀ e, (expand_path project 5 "/r/zzz" lone_root).2 = Raise e ->
          (expand_path project 5 "/r/zzz" lone_root).1 = lone_root).
Proof. apply (expand_path_errors project 5 "/r/zzz" lone_root.1 lone_root.2). Defined.

(** C2, amended: on a directory node without children, [expand_path]
    returns when the directories below the node are of bounded depth.
    The nodes that existed before keep all their fields, except that the
    target gains one child for each of its subdirectories; every new node
    lies below the target, is expanded exactly when it is a child of the
    target, and has in turn one child for each of its subdirectories. *)
Theorem expand_path_populates (E : environment) (fuel n : nat) (path : string)
    (h : heap) (t : FileTree) (a : addr) :
  nodes t !! path = Some a -> a < length h ->
  is_dir (h !!! a) = true -> children (h !!! a) = [] ->
  bounded E n (path_of h a) = true -> n ≤ fuel ->
  ∃ h' t', expand_path E fuel path (h, t) = ((h', t'), Ok tt)
    ∧ length h ≤ length h'
    ∧ (∀ b, b < length h -> b ≠ a -> h' !!! b = h !!! b)
    ∧ same_fields (h !!! a) (h' !!! a)
    ∧ path_of h' <$> children (h' !!! a) = subdirectories E (path_of h a)
    ∧ (∀ c, c ∈ children (h' !!! a) ->
            length h ≤ c ∧ c < length h' ∧ parent (h' !!! c) = Some a)
    ∧ (∀ b, length h ≤ b -> b < length h' ->
            ∃ k, 1 ≤ k ∧ hops h' b k a
                 ∧ (expanded (h' !!! b) = true ↔ k = 1)
                 ∧ path_of h' <$> children (h' !!! b)
                   = subdirectories E (path_of h' b)).
Proof.
  intros Hk Ha Hd Hc Hb Hfuel. unfold expand_path. simpl. rewrite Hk, Hd. simpl.
  destruct (build_subtree_total E n fuel a 1 (h, t) Hb Hfuel Ha) as [[h' t'] Hst].
  rewrite Hst. exists h', t'. split; [done|].
  apply build_subtree_spec in Hst; [|done].
  destruct Hst as (L & _ & F & S & (new & C & P & N) & B & _). simpl in *.
  rewrite Hd in P. rewrite Hc in C. simpl in C.
  split_and!; try done.
  - by rewrite C.
  - intros c Hin. rewrite C in Hin. by apply N.
  - intros b Hlo Hhi.
    destruct (B b Hlo Hhi) as (_ & (k & Hk1 & Hh & He) & Hp & _).
    exists k. split_and!; try done.
    rewrite He, Z.leb_le. lia.
Qed.

Lemma expand_path_populates_witness :
  ∃ h' t', expand_path project 5 "/r" lone_root = ((h', t'), Ok tt)
    ∧ length lone_root.1 ≤ length h'
    ∧ (∀ b, b < length lone_root.1 -> b ≠ 0 -> h' !!! b = lone_root.1 !!! b)
    ∧ same_fields (lone_root.1 !!! 0) (h' !!! 0)
    ∧ path_of h' <$> children (h' !!! 0) = subdirectories project (path_of lone_root.1 0)
    ∧ (∀ c, c ∈ children (h' !!! 0) ->
            length lone_root.1 ≤ c ∧ c < length h' ∧ parent (h' !!! c) = Some 0)
    ∧ (∀ b, length lone_root.1 ≤ b -> b < length h' ->
            ∃ k, 1 ≤ k ∧ hops h' b k 0
                 ∧ (expanded (h' !!! b) = true ↔ k = 1)
                 ∧ path_of h' <$> children (h' !!! b)
                   = subdirectories project (path_of h' b)).
Proof.
  apply (expand_path_populates project 5 5 "/r" lone_root.1 lone_root.2 0);
    [reflexivity|simpl; lia|reflexivity..|lia].
Defined.

(** C2 as worded fails: expanding the unexplored root of the small
    project also creates the node of [/r/a/x], whose parent is the node of
    [/r/a] and not the root. *)
Lemma expand_path_creates_grandchildren :
  ¬ only_immediate_children project "/r" lone_root.
Proof.
  intros H.
  destruct (expand_path project 5 "/r" lone_root) as [st' r] eqn:He.
  assert (r = Ok tt) as -> by (by vm_compute in He; injection He as _ <-).
  specialize (H 5 st' 0 3 eq_refl eq_refl He).
  assert (st'.1 !!! 3 = mkFileNode "/r/a/x" true false false (Some 2) [4]) as Hx
    by (by vm_compute in He; injection He as <-).
  assert (length st'.1 = 5) as Hlen
    by (by vm_compute in He; injection He as <-).
  rewrite Hx, Hlen in H. simpl in H.
  assert (Some 2 = Some 0) as [=] by (apply H; lia).
Qed.

(** ** The index of the tree *)

(** A node other than the root that the index holds is held under its
    own path; the root is held under the path that was passed in. *)
Lemma root_key (E : environment) (fuel : nat) (path : string) (depth : Z)
    (h : heap) (t : FileTree) :
  FileTree_build_from_path E fuel path depth = Some (h, t) ->
  canonical E path ≠ path ->
  nodes t !! full_path (h !!! root t) ≠ Some (root t).
Proof.
  intros Hb Hne Hk.
  destruct (build_from_path_root _ _ _ _ _ _ Hb) as (Hr & _ & Hp & _).
  rewrite Hr in Hk.
  apply (build_from_path_index _ _ _ _ _ _ _ _ Hb) in Hk as [[Hk _]|(? & _)]; [|lia].
  congruence.
Qed.

(** C8: [tach] runs in [/r] and the tree is built from the path [/r],
    whose canonical form is [.]: the root has [full_path] [.] and is
    held in the index under [/r], the path that was passed in; looking
    up its [full_path] finds nothing, and [expand_path] on it raises the
    not-found error.  Built from [.], which is its own canonical form,
    the root is held under its [full_path]. *)
Theorem root_not_indexed_under_full_path :
  (∃ h t, FileTree_build_from_path checkout 5 "/r" 1 = Some (h, t)
     ∧ full_path (h !!! root t) = "."
     ∧ nodes t !! "/r" = Some (root t)
     ∧ nodes t !! full_path (h !!! root t) = None
     ∧ expand_path checkout 5 (full_path (h !!! root t)) (h, t)
       = ((h, t), Raise (not_found ".")))
  ∧ (∃ h t, FileTree_build_from_path checkout 5 "." 1 = Some (h, t)
       ∧ nodes t !! full_path (h !!! root t) = Some (root t)).
Proof.
  split.
  - destruct (FileTree_build_from_path checkout 5 "/r" 1) as [[h t]|] eqn:Hb;
      [|by vm_compute in Hb].
    exists h, t. split; [done|].
    assert (full_path (h !!! root t) = ".") as Hp
      by (vm_compute in Hb; by injection Hb as <- <-).
    assert (nodes t !! "/r" = Some (root t)) as Hk
      by (vm_compute in Hb; by injection Hb as <- <-).
    assert (nodes t !! "." = None) as Hn
      by (vm_compute in Hb; by injection Hb as <- <-).
    rewrite Hp. split_and!; try done. unfold expand_path. simpl. by rewrite Hn.
  - destruct (FileTree_build_from_path checkout 5 "." 1) as [[h t]|] eqn:Hb;
      [|by vm_compute in Hb].
    exists h, t. split; [done|].
    vm_compute in Hb. by injection Hb as <- <-.
Qed.

(** ** Changing the flags of a node *)

Lemma forallb_ext_in {A} (f g : A -> bool) (l : list A) :
  (∀ x, In x l -> f x = g x) -> forallb f l = forallb g l.
Proof.
  induction l as [|x l IH]; simpl; intros Hfg; [done|].
  rewrite Hfg by auto. f_equal. apply IH. auto.
Qed.

Lemma same_shape_wf (h h' : heap) : same_shape h h' -> wf_heap h' = wf_heap h.
Proof.
  intros [Hlen Hsh]. unfold wf_heap. rewrite Hlen.
  apply forallb_ext_in. intros a _. unfold wf_node.
  destruct (Hsh a) as (_ & -> & ->). rewrite Hlen.
  f_equal; [f_equal|].
  - apply forallb_ext_in. intros c _. by destruct (Hsh c) as (_ & -> & _).
  - f_equal. apply list_fmap_ext. intros _ c _. unfold path_of.
    by destruct (Hsh c) as (-> & _ & _).
  - destruct (parent (h !!! a)) as [p|]; [|done].
    by destruct (Hsh p) as (_ & _ & ->).
Qed.

Lemma update_lookup (h : heap) (a b : addr) (n : FileNode) :
  b ≠ a -> <[a := n]> h !!! b = h !!! b.
Proof. intros Hne. by apply list_lookup_total_insert_ne. Qed.

Lemma update_shape (h : heap) (a : addr) (f : FileNode -> FileNode) :
  (∀ n, full_path (f n) = full_path n ∧ parent (f n) = parent n
        ∧ children (f n) = children n) ->
  same_shape h (<[a := f (h !!! a)]> h).
Proof.
  intros Hf. split; [apply length_insert|]. intros b.
  destruct (decide (b = a)) as [->|Hne]; [|by rewrite update_lookup].
  destruct (decide (a < length h)) as [Hlt|Hge].
  - rewrite list_lookup_total_insert_eq by done. apply Hf.
  - by rewrite list_insert_ge by lia.
Qed.

Lemma visible_update (h h' : heap) (a : addr) :
  wf_heap h = true -> same_shape h h' ->
  (∀ c, c < a -> expanded (h' !!! c) = expanded (h !!! c)) ->
  visible h a -> visible h' a.
Proof.
  intros Hwf [_ Hsh] He Hv. induction Hv as [a Hn|a p Hp Hep Hv IH].
  - apply visible_root. destruct (Hsh a) as (_ & -> & _). done.
  - pose proof (wf_parent h Hwf a p Hp) as [Hlt _].
    apply (visible_child h' a p).
    + destruct (Hsh a) as (_ & -> & _). done.
    + rewrite He; done.
    + apply IH. intros c Hc. apply He. lia.
Qed.

(** ** Drawing the tree *)

(** In a well-formed tree every visible node is drawn after its parent,
    so the lookup of the parent's branch succeeds. *)
Lemma render_nodes_ok (h : heap) (fuel : nat) (stack visited : list addr)
    (M : gset string) :
  wf_heap h = true ->
  iterate fuel h true stack = Some visited ->
  (∀ x, x ∈ stack ->
        parent (h !!! x) = None
        ∨ ∃ p, parent (h !!! x) = Some p ∧ path_of h p ∈ M) ->
  render_nodes h visited M = Ok tt.
Proof.
  intros Hwf. revert stack visited M.
  induction fuel as [|fuel IH]; intros [|a stack] visited M Hit Hst;
    try (simpl in Hit; by simplify_eq).
  rewrite (iterate_step h Hwf true) in Hit.
  destruct (iterate fuel h true (sorted_by_path h (kids h true a) ++ stack))
    as [l|] eqn:Hrec; simplify_eq/=.
  assert (render_nodes h l ({[path_of h a]} ∪ M) = Ok tt) as Hrest.
  { apply (IH _ _ _ Hrec). intros x [Hx|Hx]%elem_of_app.
    - right. exists a. split; [|set_solver].
      by apply elem_of_sorted, (elem_of_kids h Hwf true) in Hx as (_ & _ & ?).
    - destruct (Hst x) as [Hn|(p & Hp & Hin)]; [by right|by left|].
      right. exists p. split; [done|set_solver]. }
  destruct (Hst a) as [Hn|(p & Hp & Hin)]; [by left|by rewrite Hn|].
  by rewrite Hp, bool_decide_true.
Qed.

Lemma update_display_ok (fuel : nat) (s : InteractivePackageTree) :
  wf_heap (store s) = true ->
  parent (store s !!! root (file_tree s)) = None ->
  length (store s) < fuel ->
  _update_display fuel s = Ok s.
Proof.
  intros Hwf Hroot Hfuel. unfold _update_display, _render_tree, FileTree_visible.
  pose proof (file_tree_iterator_preorder (store s) Hwf true fuel (file_tree s) Hfuel)
    as Hit.
  rewrite Hit. unfold file_tree_iterator in Hit.
  rewrite (render_nodes_ok _ _ _ _ ∅ Hwf Hit); [done|].
  intros x ->%list_elem_of_singleton. by left.
Qed.

(** ** The key handlers keep the invariant *)

Section Handlers.
Context (fuel : nat) (s : InteractivePackageTree).
Context (Hinv : session_inv s) (Hfuel : length (store s) < fuel).

Lemma display_select a c :
  _update_display fuel (select a c s) = Ok (select a c s).
Proof. destruct Hinv as (? & ? & _). by apply update_display_ok. Qed.

Lemma select_inv a c :
  visible (store s) a -> session_inv (select a c s).
Proof. intros Hv. destruct Hinv as (? & ? & _). by split_and!. Qed.

Lemma flag_inv (f : FileNode -> FileNode) :
  (∀ n, full_path (f n) = full_path n ∧ parent (f n) = parent n
        ∧ children (f n) = children n) ->
  let s' := with_store (<[selected_node s := f (store s !!! selected_node s)]> (store s)) s in
  _update_display fuel s' = Ok s'
  ∧ session_inv s' ∧ length (store s') = length (store s).
Proof.
  intros Hf. destruct Hinv as (Hwf & Hroot & Hv).
  pose proof (update_shape (store s) (selected_node s) f Hf) as Hsh.
  assert (session_inv
            (with_store (<[selected_node s := f (store s !!! selected_node s)]> (store s)) s))
    as Hinv'.
  { split_and!; simpl.
    - by rewrite (same_shape_wf _ _ Hsh).
    - destruct Hsh as [_ Hsh]. by destruct (Hsh (root (file_tree s))) as (_ & -> & _).
    - eapply visible_update; eauto.
      intros c Hc. rewrite update_lookup; [done|lia]. }
  split_and!; [|done|apply length_insert].
  destruct Hinv' as (? & ? & _).
  apply update_display_ok; [done..|]. simpl. by rewrite length_insert.
Qed.

Lemma right_inv :
  ∃ s', right fuel s = Ok s' ∧ session_inv s' ∧ length (store s') = length (store s).
Proof. eexists. by apply (flag_inv (set_expanded true)). Qed.

Lemma left_inv :
  ∃ s', left fuel s = Ok s' ∧ session_inv s' ∧ length (store s') = length (store s).
Proof. eexists. by apply (flag_inv (set_expanded false)). Qed.

Lemma enter_inv :
  ∃ s', enter fuel s = Ok s' ∧ session_inv s' ∧ length (store s') = length (store s).
Proof.
  eexists. by apply (flag_inv (fun n => set_is_package (negb (is_package n)) n)).
Qed.

Lemma up_inv : ∃ s', up fuel s = Ok s' ∧ session_inv s' ∧ store s' = store s.
Proof.
  pose proof Hinv as (Hwf & Hroot & Hv).
  pose proof display_select as display_select.
  pose proof select_inv as select_inv.
  pose proof Hfuel as Hfuel'. clear Hinv.
  destruct fuel as [|f]; [lia|].
  unfold up.
  destruct (prev_sibling_total _ Hwf f (selected_node s)) as [[b|] Hb];
    rewrite Hb; cbn [mbind outcome_bind].
  - apply (prev_sibling_Some _ Hwf) in Hb as (p & Hp & Hpb & He).
    destruct (visible_parent _ _ _ Hv Hp) as [_ Hvp].
    assert (visible (store s) b) as Hvb by (by eapply visible_child).
    destruct (last_descendant_total _ Hwf (S f) b) as [c Hc]; [lia|].
    rewrite Hc, display_select. eexists. split; [done|]. split; [|done].
    apply select_inv. by eapply last_descendant_visible.
  - destruct (parent (store s !!! selected_node s)) as [p|] eqn:Hp.
    + rewrite display_select. eexists. split; [done|]. split; [|done].
      apply select_inv. by destruct (visible_parent _ _ _ Hv Hp).
    + by exists s.
Qed.

Lemma down_inv : ∃ s', down fuel s = Ok s' ∧ session_inv s' ∧ store s' = store s.
Proof.
  pose proof Hinv as (Hwf & Hroot & Hv).
  pose proof display_select as display_select.
  pose proof select_inv as select_inv.
  pose proof Hfuel as Hfuel'. clear Hinv.
  destruct fuel as [|f]; [lia|].
  unfold down.
  destruct (sorted_by_path (store s) (visible_children (store s) (selected_node s)))
    as [|c l] eqn:Hs.
  - destruct (parent (store s !!! selected_node s)) as [p|] eqn:Hp; [|by exists s].
    destruct (next_sibling_total _ Hwf f (selected_node s)) as [next Hn].
    rewrite Hn. cbn [mbind outcome_bind].
    pose proof (wf_parent _ Hwf _ _ Hp) as [_ Hin].
    apply (wf_children _ Hwf) in Hin as (_ & Hlt & _).
    destruct (bubble_up_total _ Hwf (S f) f (selected_node s) next) as [r Hr]; [lia|].
    rewrite Hr. cbn [mbind outcome_bind]. destruct r as [ns|]; [|by exists s].
    rewrite display_select. eexists. split; [done|]. split; [|done].
    apply select_inv.
    eapply bubble_up_visible; [done|exact Hv| |exact Hr].
    intros b ->. apply (next_sibling_Some _ Hwf) in Hn as (q & Hq & Hqb & Heq & _).
    destruct (visible_parent _ _ _ Hv Hq). by eapply visible_child.
  - destruct (first_child _ Hwf f _ _ _ Hs) as (He & Hp & _).
    rewrite display_select. eexists. split; [done|]. split; [|done].
    apply select_inv. by eapply visible_child.
Qed.

Lemma handle_inv k :
  ∃ s' exited, handle fuel k s = Ok (s', exited) ∧ session_inv s'
                ∧ length (store s') = length (store s).
Proof.
  destruct k; simpl.
  - destruct up_inv as (s' & -> & ? & Hst). exists s', false. by rewrite Hst.
  - destruct down_inv as (s' & -> & ? & Hst). exists s', false. by rewrite Hst.
  - destruct right_inv as (s' & -> & ? & ?). by exists s', false.
  - destruct left_inv as (s' & -> & ? & ?). by exists s', false.
  - destruct enter_inv as (s' & -> & ? & ?). by exists s', false.
  - eexists _, true. split; [done|]. by split.
  - eexists _, true. split; [done|]. by split.
Qed.

End Handlers.

Lemma navigate_inv (fuel : nat) (keys : list key) (s : InteractivePackageTree) :
  session_inv s -> length (store s) < fuel ->
  ∃ s', navigate fuel keys s = Ok s' ∧ session_inv s'
        ∧ length (store s') = length (store s).
Proof.
  revert s. induction keys as [|k keys IH]; intros s Hinv Hfuel; simpl; [by exists s|].
  destruct (handle_inv fuel s Hinv Hfuel k) as (s' & exited & -> & Hinv' & Hlen).
  cbn [mbind outcome_bind]. destruct exited; [by exists s'|].
  destruct (IH s' Hinv') as (s'' & ? & ? & ?); [lia|].
  exists s''. split_and!; [done..|lia].
Qed.

Lemma app_run_inv (fuel : nat) (keys : list key) (s s' : InteractivePackageTree) :
  session_inv s -> length (store s) < fuel ->
  app_run fuel keys s = Ok s' ->
  session_inv s' ∧ length (store s') = length (store s).
Proof.
  revert s. induction keys as [|k keys IH]; intros s Hinv Hfuel; simpl; [done|].
  destruct (handle_inv fuel s Hinv Hfuel k) as (s1 & exited & -> & Hinv' & Hlen).
  cbn [mbind outcome_bind]. destruct exited.
  - intros [= <-]. done.
  - intros Hrun. apply IH in Hrun as [? ?]; [|done|lia]. split; [done|lia].
Qed.

(** ** The initial state *)

(** The initial state of a session satisfies the session invariant, with
    the root selected. *)
Lemma init_inv (E : environment) (fuel : nat) (path : string) (depth : Z)
    (s : InteractivePackageTree) :
  sane E -> init E fuel path depth = Ok s ->
  session_inv s ∧ selected_node s = root (file_tree s)
  ∧ expanded (store s !!! root (file_tree s)) = true.
Proof.
  intros Hsane. unfold init.
  destruct (FileTree_build_from_path E fuel path depth) as [[h t]|] eqn:Hb; [|done].
  unfold _update_display. simpl.
  destruct (_render_tree fuel h t); simpl; [|done..]. intros [= <-]. simpl.
  destruct (build_from_path_root _ _ _ _ _ _ Hb) as (Hr & _ & _ & _ & He & Hp & _).
  rewrite Hr. split_and!; [|done..]. unfold session_inv. simpl. rewrite Hr.
  split_and!; [by eapply build_from_path_wf|done|by apply visible_root].
Qed.

(** More fuel does not change what [_build_subtree] returns. *)
Lemma build_entry_mono (E : environment)
    (rec rec' : nat -> Z -> list FileNode * FileTree -> option (list FileNode * FileTree))
    (r : addr) (d : Z) (st st' : list FileNode * FileTree) (e : string) :
  (∀ c dd x y, rec c dd x = Some y -> rec' c dd x = Some y) ->
  build_entry E rec r d st e = Some st' -> build_entry E rec' r d st e = Some st'.
Proof.
  intros Hrec. destruct st as [h t]. unfold build_entry.
  destruct (posixpath.startswith e "."); [done|].
  destruct (negb (isdir E (posixpath.join (full_path (h !!! r)) e))); [done|].
  simpl. destruct (is_dir _); [apply Hrec|done].
Qed.

Lemma build_subtree_mono (E : environment) (fuel : nat) (r : addr) (d : Z)
    (st st' : list FileNode * FileTree) :
  _build_subtree E fuel r d st = Some st' ->
  _build_subtree E (S fuel) r d st = Some st'.
Proof.
  revert r d st st'. induction fuel as [|fuel IH]; intros r d st st'; [done|].
  intros Hb. simpl in Hb.
  change (_build_subtree E (S (S fuel)) r d st) with
    (if is_dir (st.1 !!! r) then
       match listdir E (full_path (st.1 !!! r)) with
       | PermissionError => Some st
       | Entries entries =>
           foldl (fun acc entry =>
                    st' ← acc; build_entry E (_build_subtree E (S fuel)) r d st' entry)
                 (Some st) entries
       end
     else Some st).
  destruct (is_dir (st.1 !!! r)); [|done].
  destruct (listdir E (full_path (st.1 !!! r))) as [es|]; [|done].
  revert Hb. generalize st. induction es as [|e es IHes]; intros st1; [done|].
  cbn [foldl mbind option_bind].
  destruct (build_entry E (_build_subtree E fuel) r d st1 e) as [st2|] eqn:He;
    [|by rewrite foldl_None].
  rewrite (build_entry_mono E _ (_build_subtree E (S fuel)) r d st1 st2 e IH He).
  apply IHes.
Qed.

Lemma build_subtree_mono_le (E : environment) (fuel fuel' : nat) (r : addr) (d : Z)
    (st st' : list FileNode * FileTree) :
  fuel ≤ fuel' ->
  _build_subtree E fuel r d st = Some st' ->
  _build_subtree E fuel' r d st = Some st'.
Proof.
  induction 1 as [|fuel' _ IH]; [done|]. intros Hb. by apply build_subtree_mono, IH.
Qed.

(** [__init__] returns when the directories below the root are of bounded
    depth. *)
Lemma init_total (E : environment) (path : string) (depth : Z) (n : nat) :
  sane E -> bounded E n (canonical E path) = true ->
  ∃ fuel0 s, ∀ fuel, fuel0 ≤ fuel -> init E fuel path depth = Ok s.
Proof.
  intros Hsane Hb.
  destruct (build_from_path_total E path depth n n Hb) as [[h t] Hst]; [done|].
  exists (n `max` S (length h)), (mkSession QUIT_NOSAVE h t (root t) (0, 1)%Z).
  intros fuel Hfuel. unfold init.
  rewrite build_from_path_unfold in Hst |- *.
  rewrite (build_subtree_mono_le E n fuel _ _ _ _ ltac:(lia) Hst).
  rewrite <- build_from_path_unfold in Hst.
  destruct (build_from_path_root _ _ _ _ _ _ Hst) as (Hr & _ & _ & _ & _ & Hp & _).
  apply update_display_ok; simpl; [by eapply build_from_path_wf|by rewrite Hr|lia].
Qed.

Lemma project_sane : sane project.
Proof.
  intros p. unfold subdirectories. simpl.
  destruct (String.eqb_spec p "/r") as [->|_];
    [apply (bool_decide_unpack _); by vm_compute|].
  destruct (String.eqb_spec p "/r/a") as [->|_];
    [apply (bool_decide_unpack _); by vm_compute|].
  destruct (String.eqb_spec p "/r/a/x") as [->|_];
    [apply (bool_decide_unpack _); by vm_compute|].
  destruct (String.eqb_spec p "/r/a/x/deep") as [->|_];
    [apply (bool_decide_unpack _); by vm_compute|].
  constructor.
Qed.

(** ** The selection stays visible *)

(** C10: in a session started by [__init__] the root is selected and
    expanded, and from there every sequence of key events is handled
    without error and leaves the selection on a visible node: all
    strict ancestors of the selected node are expanded. *)
Theorem selection_stays_visible (E : environment) (fuel0 : nat) (path : string)
    (depth : Z) (s : InteractivePackageTree) (fuel : nat) (keys : list key) :
  sane E ->
  init E fuel0 path depth = Ok s ->
  length (store s) < fuel ->
  selected_node s = root (file_tree s)
  ∧ expanded (store s !!! root (file_tree s)) = true
  ∧ ∃ s', navigate fuel keys s = Ok s' ∧ visible (store s') (selected_node s').
Proof.
  intros Hsane Hinit Hfuel.
  destruct (init_inv E fuel0 path depth s Hsane Hinit) as (Hinv & Hsel & Hexp).
  split_and!; [done..|].
  destruct (navigate_inv fuel keys s Hinv Hfuel) as (s' & Hs' & (_ & _ & Hv) & _).
  by exists s'.
Qed.

Lemma selection_stays_visible_witness :
  ∃ s, init project 6 "/r" 2 = Ok s
    ∧ selected_node s = root (file_tree s)
    ∧ expanded (store s !!! root (file_tree s)) = true
    ∧ ∃ s', navigate 6 [Down; Down; Left; Down; Up; Right; Enter; Down] s = Ok s'
            ∧ visible (store s') (selected_node s').
Proof.
  eexists. split; [vm_compute; reflexivity|].
  eapply (selection_stays_visible project 6 "/r" 2 _ 6);
    [apply project_sane|vm_compute; reflexivity|vm_compute; lia].
Defined.

(** ** Down, then up *)

Lemma select_back (s : InteractivePackageTree) (a : addr) :
  select (selected_node s)
         (move_cursor_up (select a (move_cursor_down s) s))
         (select a (move_cursor_down s) s) = s.
Proof.
  destruct s as [e h t sel [x y]]. unfold select, move_cursor_up, move_cursor_down.
  simpl. do 2 f_equal. lia.
Qed.

(** From a state that satisfies the session invariant. *)
Lemma down_then_up_inv (fuel : nat) (s : InteractivePackageTree) :
  session_inv s -> length (store s) < fuel ->
  ∃ s1, down fuel s = Ok s1
    ∧ ((no_next_anywhere fuel (store s) (selected_node s) ∧ s1 = s)
       ∨ (¬ no_next_anywhere fuel (store s) (selected_node s)
          ∧ selected_node s1 ≠ selected_node s
          ∧ up fuel s1 = Ok s))
    ∧ (parent (store s !!! selected_node s) = None -> up fuel s = Ok s).
Proof.
  intros (Hwf & Hroot & Hv) Hfuel.
  assert (∀ a c, _update_display fuel (select a c s) = Ok (select a c s)) as Hdisp
    by (intros; by apply update_display_ok).
  assert (_update_display fuel s = Ok s) as Hdisp'
    by (by apply update_display_ok).
  destruct fuel as [|f]; [lia|].
  set (h := store s) in *. set (sel := selected_node s) in *.
  assert (parent (h !!! sel) = None -> up (S f) s = Ok s) as Hup_root.
  { intros Hp. unfold up. fold h sel.
    rewrite prev_sibling_hidden by (intros; congruence).
    cbn [mbind outcome_bind]. by rewrite Hp. }
  unfold down. fold h sel.
  destruct (sorted_by_path h (visible_children h sel)) as [|c l] eqn:Hs.
  - apply sorted_nil_inv in Hs.
    destruct (parent (h !!! sel)) as [p|] eqn:Hp.
    + destruct (next_sibling_total h Hwf f sel) as [next Hn].
      rewrite Hn. cbn [mbind outcome_bind].
      pose proof (wf_parent _ Hwf _ _ Hp) as [_ Hin].
      apply (wf_children _ Hwf) in Hin as (_ & Hlt & _).
      destruct (bubble_up_total h Hwf (S f) f sel next) as [r Hr]; [lia|].
      rewrite Hr. cbn [mbind outcome_bind].
      assert (last_descendant 0 h sel = Some sel) as Hd
        by (simpl; by rewrite Hs).
      pose proof (bubble_up_spec h Hwf _ _ _ _ _ _ _ Hv Hn Hd Hr) as Hspec.
      destruct r as [ns|].
      * destruct Hspec as (curr' & m' & Hvc & Hpath & Hm & Hnc & Hdc).
        rewrite Hdisp. eexists. split; [done|]. split; [|done]. right.
        pose proof (next_sibling_Some h Hwf _ _ _ Hnc) as (q & Hq & Hqn & He & Hne & Hprev).
        split_and!.
        -- intros [_ Hall]. rewrite (Hall curr' Hpath) in Hnc. done.
        -- simpl. fold sel. intros ->.
           destruct (last_descendant_below h Hwf _ _ _ Hdc) as [->|(p' & Hp' & Hle)];
             [done|].
           pose proof (wf_parent _ Hwf _ _ Hq) as [Hlt' _].
           assert (p' = q) by congruence. lia.
        -- unfold up. simpl store. simpl selected_node. fold h.
           rewrite Hprev. cbn [mbind outcome_bind].
           rewrite (last_descendant_mono h _ (S f) _ _ Hdc) by lia.
           etrans; [|exact Hdisp']. f_equal. apply select_back.
      * exists s. split; [done|]. split; [|done]. left. by split.
    + exists s. split; [done|]. split; [|done]. left. split; [|done].
      split; [done|]. intros b Hb.
      apply on_path_inv in Hb as [->|(p & Hp' & _)]; [|congruence].
      apply next_sibling_hidden. intros; congruence.
  - destruct (first_child h Hwf f _ _ _ Hs) as (He & Hp & Hprev).
    rewrite Hdisp. eexists. split; [done|]. split.
    + right. split_and!.
      * intros [Hnil _]. rewrite Hnil in Hs. done.
      * simpl. fold sel. intros ->.
        pose proof (wf_parent _ Hwf _ _ Hp) as [Hlt _]. lia.
      * unfold up. simpl store. simpl selected_node. fold h.
        rewrite Hprev. cbn [mbind outcome_bind]. rewrite Hp.
        etrans; [|exact Hdisp']. f_equal. apply select_back.
    + intros Hpn. by apply Hup_root.
Qed.

(** ** The result of the session *)

(** C5: when the application exits after [CtrlS] (exit code [QUIT_SAVE]),
    [run] returns the packages of the marked nodes in the order of the
    full traversal, which lists every node of the tree once, whatever the
    [expanded] flags; when it exits with [QUIT_NOSAVE], [run] returns
    [None]. *)
Theorem run_collects (E : environment) (fuel0 : nat) (path : string) (depth : Z)
    (s : InteractivePackageTree) (fuel : nat) (keys : list key)
    (s' : InteractivePackageTree) :
  sane E ->
  init E fuel0 path depth = Ok s ->
  length (store s) < fuel ->
  app_run fuel keys s = Ok s' ->
  let h' := store s' in
  let visited := preorder (length h') h' false (root (file_tree s')) in
  (exit_code s' = QUIT_SAVE -> run fuel keys s = Ok (Some (collect h' visited)))
  ∧ (exit_code s' = QUIT_NOSAVE -> run fuel keys s = Ok None)
  ∧ NoDup visited
  ∧ (∀ a, a ∈ visited ↔ descendant h' (root (file_tree s')) a)
  ∧ (∀ p, p ∈ collect h' visited ↔
          ∃ a, descendant h' (root (file_tree s')) a
               ∧ is_package (h' !!! a) = true
               ∧ p = mkSelectedPackage (full_path (h' !!! a))).
Proof.
  intros Hsane Hinit Hfuel Hrun. cbv zeta.
  destruct (init_inv E fuel0 path depth s Hsane Hinit) as (Hinv & _).
  destruct (app_run_inv fuel keys s s' Hinv Hfuel Hrun) as [(Hwf & _) Hlen].
  assert (∀ a, a ∈ preorder (length (store s')) (store s') false (root (file_tree s'))
               ↔ descendant (store s') (root (file_tree s')) a) as Hvis
    by (intros a; by apply elem_of_preorder).
  split_and!.
  - intros Hsave. unfold run. rewrite Hrun. cbn [mbind outcome_bind].
    rewrite Hsave. unfold FileTree_iter.
    by rewrite file_tree_iterator_preorder by (done || lia).
  - intros Hquit. unfold run. rewrite Hrun. cbn [mbind outcome_bind].
    by rewrite Hquit.
  - by apply NoDup_preorder.
  - done.
  - intros p. unfold collect. rewrite list_elem_of_fmap. split.
    + intros (a & -> & Ha). apply list_elem_of_filter in Ha as [Hpk Ha].
      exists a. by rewrite <- Hvis.
    + intros (a & Ha & Hpk & ->). exists a. split; [done|].
      apply list_elem_of_filter. by rewrite Hvis.
Qed.

Lemma run_collects_witness :
  ∃ s s', init project 6 "/r" 2 = Ok s
    ∧ app_run 6 [Down; Enter; Down; Down; Down; Enter; Left; Up; CtrlS] s = Ok s'
    ∧ (let h' := store s' in
       let visited := preorder (length h') h' false (root (file_tree s')) in
       (exit_code s' = QUIT_SAVE ->
        run 6 [Down; Enter; Down; Down; Down; Enter; Left; Up; CtrlS] s
        = Ok (Some (collect h' visited)))
       ∧ (exit_code s' = QUIT_NOSAVE ->
          run 6 [Down; Enter; Down; Down; Down; Enter; Left; Up; CtrlS] s = Ok None)
       ∧ NoDup visited
       ∧ (∀ a, a ∈ visited ↔ descendant h' (root (file_tree s')) a)
       ∧ (∀ p, p ∈ collect h' visited ↔
               ∃ a, descendant h' (root (file_tree s')) a
                    ∧ is_package (h' !!! a) = true
                    ∧ p = mkSelectedPackage (full_path (h' !!! a)))).
Proof.
  eexists _, _. split; [vm_compute; reflexivity|]. split; [vm_compute; reflexivity|].
  eapply (run_collects project 6 "/r" 2 _ 6);
    [apply project_sane|vm_compute; reflexivity|vm_compute; lia|vm_compute; reflexivity].
Defined.

(** * Further properties of the code *)

(** ** What construction keeps *)

(** A property of the store and the index that survives the creation of
    one child node survives [_build_subtree]. *)
Section Preservation.
Context (E : environment) (Q : list FileNode * FileTree -> Prop).
Context (Hstep : ∀ h t r d e,
            Q (h, t) -> r < length h -> hidden e = false ->
            isdir E (posixpath.join (full_path (h !!! r)) e) = true ->
            Q (linked h r (new_child E r d (posixpath.join (full_path (h !!! r)) e)),
               set_node (posixpath.join (full_path (h !!! r)) e) (length h) t)).

Lemma build_entry_preserves
    (rec : nat -> Z -> list FileNode * FileTree -> option (list FileNode * FileTree))
    (r : nat) (d : Z) (st st' : list FileNode * FileTree) (e : string) :
  (∀ c dd x y, rec c dd x = Some y -> c < length x.1 -> Q x ->
               Q y ∧ length x.1 ≤ length y.1) ->
  r < length st.1 -> Q st ->
  build_entry E rec r d st e = Some st' ->
  Q st' ∧ length st.1 ≤ length st'.1.
Proof using Hstep.
  intros Hrec Hr HQ. destruct st as [h t]. unfold build_entry. simpl in Hr.
  fold (hidden e). destruct (hidden e) eqn:Hh; [by intros [= <-]|].
  destruct (isdir E (posixpath.join (full_path (h !!! r)) e)) eqn:Hd; simpl;
    [|by intros [= <-]].
  set (q := posixpath.join (full_path (h !!! r)) e) in *.
  fold (new_child E r d q). fold (linked h r (new_child E r d q)).
  replace (is_dir (if (d >? 0)%Z
                   then set_expanded true (FileNode_build_from_path E q)
                   else FileNode_build_from_path E q))
    with true by (destruct (d >? 0)%Z; simpl; by rewrite Hd).
  intros Hcall. apply Hrec in Hcall as [HQ' Hlen].
  - split; [done|]. simpl in *. rewrite linked_length in Hlen. lia.
  - simpl. rewrite linked_length. lia.
  - by apply Hstep.
Qed.

Lemma build_subtree_preserves (fuel : nat) (r : nat) (d : Z)
    (st st' : list FileNode * FileTree) :
  _build_subtree E fuel r d st = Some st' -> r < length st.1 -> Q st ->
  Q st' ∧ length st.1 ≤ length st'.1.
Proof using Hstep.
  revert r d st st'. induction fuel as [|fuel IH]; intros r d st st'; [done|].
  simpl. intros Hb Hr HQ.
  destruct (is_dir (st.1 !!! r)); [|by injection Hb as <-].
  destruct (listdir E (full_path (st.1 !!! r))) as [es|]; [|by injection Hb as <-].
  assert (∀ st1, Q st1 -> length st.1 ≤ length st1.1 ->
                 foldl (fun acc entry =>
                          x ← acc; build_entry E (_build_subtree E fuel) r d x entry)
                       (Some st1) es = Some st' ->
                 Q st' ∧ length st.1 ≤ length st'.1) as Hloop.
  { clear Hb HQ. induction es as [|e es IHes]; intros st1 HQ1 Hlen1; simpl.
    - by intros [= <-].
    - destruct (build_entry E (_build_subtree E fuel) r d st1 e) as [st2|] eqn:He;
        [|by rewrite foldl_None].
      apply build_entry_preserves in He as [HQ2 Hlen2]; [|by apply IH|lia|done].
      apply IHes; [done|lia]. }
  by apply (Hloop st).
Qed.

End Preservation.

Lemma elem_of_subdirectories (E : environment) (p q : string) :
  q ∈ subdirectories E p ↔
  ∃ es e, listdir E p = Entries es ∧ e ∈ es ∧ hidden e = false
          ∧ q = posixpath.join p e ∧ isdir E q = true.
Proof.
  unfold subdirectories, subdirectories_among.
  destruct (listdir E p) as [es|].
  - rewrite list_elem_of_filter, list_elem_of_fmap. split.
    + intros (Hd & e & -> & He). apply list_elem_of_filter in He as [Hh He].
      by exists es, e.
    + intros (es' & e & [= <-] & He & Hh & -> & Hd). split; [done|].
      exists e. split; [done|]. by apply list_elem_of_filter.
  - split; [by intros ?%elem_of_nil|]. by intros (? & ? & ? & _).
Qed.

(** *** The flags of a new node *)

Lemma seeded_step (E : environment) h t r d e :
  seeded E (h, t) -> r < length h -> hidden e = false ->
  isdir E (posixpath.join (full_path (h !!! r)) e) = true ->
  seeded E (linked h r (new_child E r d (posixpath.join (full_path (h !!! r)) e)),
            set_node (posixpath.join (full_path (h !!! r)) e) (length h) t).
Proof.
  intros Hs Hr _ _ a. simpl. rewrite linked_length. intros Ha. unfold path_of.
  destruct (decide (a = length h)) as [->|Hne].
  - rewrite linked_new by done. unfold new_child. by destruct (_ >? _)%Z.
  - destruct (decide (a = r)) as [->|Hne'].
    + rewrite linked_parent by done. simpl. by apply (Hs r).
    + rewrite linked_other by lia. apply (Hs a). simpl. lia.
Qed.

Lemma build_from_path_seeded (E : environment) (fuel : nat) (path : string) (depth : Z)
    (h : heap) (t : FileTree) :
  FileTree_build_from_path E fuel path depth = Some (h, t) ->
  ∀ a, a < length h ->
       is_package (h !!! a) = isfile E (marker_file E (full_path (h !!! a)))
       ∧ is_dir (h !!! a) = isdir E (full_path (h !!! a)).
Proof.
  rewrite build_from_path_unfold. intros Hb.
  apply (build_subtree_preserves E (seeded E) (seeded_step E)) in Hb as [Hs _];
    [exact Hs|simpl; lia|].
  intros a Ha. simpl in Ha. assert (a = 0) as -> by lia. done.
Qed.

(** X2: [build_from_path] reads the flags of every node from the file
    system: a node is marked as a package exactly when its directory
    holds the package file, and [is_dir] says whether its path is a
    directory. *)
Theorem build_from_path_seeds (E : environment) (fuel : nat) (path : string) (depth : Z)
    (h : heap) (t : FileTree) (a : addr) :
  FileTree_build_from_path E fuel path depth = Some (h, t) ->
  a < length h ->
  is_package (h !!! a) = isfile E (marker_file E (full_path (h !!! a)))
  ∧ is_dir (h !!! a) = isdir E (full_path (h !!! a)).
Proof.
  rewrite build_from_path_unfold. intros Hb Ha.
  apply (build_subtree_preserves E (seeded E) (seeded_step E)) in Hb as [Hs _];
    [by apply (Hs a)|simpl; lia|].
  intros b Hb'. simpl in Hb'. by assert (b = 0) as -> by lia.
Qed.

Lemma build_from_path_seeds_witness :
  ∃ h t, FileTree_build_from_path project 5 "/r" 2 = Some (h, t)
    ∧ is_package (h !!! 2) = isfile project (marker_file project (full_path (h !!! 2)))
    ∧ is_dir (h !!! 2) = isdir project (full_path (h !!! 2)).
Proof.
  eexists _, _. split; [vm_compute; reflexivity|].
  eapply (build_from_path_seeds project 5 "/r" 2); [vm_compute; reflexivity|vm_compute; lia].
Defined.

(** *** The paths of the nodes *)

Section Paths.
Context (E : environment) (fuel : nat) (path : string) (depth : Z).
Context (h : heap) (t : FileTree).
Context (Hb : FileTree_build_from_path E fuel path depth = Some (h, t)).

(** A directory node has a child for each of its subdirectories. *)
Lemma build_from_path_children a :
  a < length h -> isdir E (path_of h a) = true ->
  path_of h <$> children (h !!! a) = subdirectories E (path_of h a).
Proof using Hb.
  intros Ha Hd. destruct (decide (a = 0)) as [->|Hne].
  - destruct (build_from_path_root _ _ _ _ _ _ Hb) as (_ & _ & Hfp & _ & _ & _ & Hc & _).
    unfold path_of in *. rewrite Hfp in Hd |- *. by rewrite Hc, Hd.
  - by destruct (build_from_path_node _ _ _ _ _ _ a Hb) as (_ & _ & Hc & _); [lia|done|].
Qed.

(** A node below the root stands for a subdirectory of its parent. *)
Lemma build_from_path_child a :
  0 < a -> a < length h ->
  ∃ p, parent (h !!! a) = Some p ∧ p < a
       ∧ isdir E (path_of h p) = true
       ∧ path_of h a ∈ subdirectories E (path_of h p).
Proof using Hb.
  intros Ha Hlt.
  destruct (build_from_path_node _ _ _ _ _ _ a Hb Ha Hlt)
    as (_ & _ & _ & _ & (p & Hp & Hpa & Hin)).
  exists p. split; [done|]. split; [done|].
  assert (isdir E (path_of h p) = true) as Hd.
  { destruct (build_from_path_seeded E fuel path depth h t Hb p) as [_ Hdir]; [lia|].
    unfold path_of. rewrite <- Hdir. destruct (decide (p = 0)) as [->|Hne].
    - destruct (build_from_path_root _ _ _ _ _ _ Hb) as (_ & _ & _ & Hd0 & _ & _ & Hc & _).
      rewrite Hd0. destruct (isdir E (canonical E path)); [done|].
      apply (list_elem_of_fmap_2 (path_of h)) in Hin. rewrite Hc in Hin.
      by apply elem_of_nil in Hin.
    - by destruct (build_from_path_node _ _ _ _ _ _ p Hb) as (? & _); [lia..|]. }
  split; [done|]. rewrite <- build_from_path_children by (lia || done).
  by apply list_elem_of_fmap_2.
Qed.

Lemma build_from_path_explored a :
  a < length h -> explored E (canonical E path) (path_of h a).
Proof using Hb.
  induction a as [a IH] using lt_wf_ind. intros Ha.
  destruct (decide (a = 0)) as [->|Hne].
  - destruct (build_from_path_root _ _ _ _ _ _ Hb) as (_ & _ & Hfp & _).
    unfold path_of. rewrite Hfp. constructor.
  - destruct (build_from_path_child a) as (p & _ & Hpa & Hd & Hin); [lia|done|].
    apply elem_of_subdirectories in Hin as (es & e & Hl & He & Hh & Hq & Hdq).
    rewrite Hq in Hdq |- *.
    apply (explored_sub E _ (path_of h p) es e); [apply IH; lia|done..].
Qed.

Lemma explored_built p :
  explored E (canonical E path) p -> ∃ a, a < length h ∧ path_of h a = p.
Proof using Hb.
  induction 1 as [|p es e _ (a & Ha & <-) Hd Hl He Hh Hdq].
  - destruct (build_from_path_root _ _ _ _ _ _ Hb) as (_ & ? & ? & _). by exists 0.
  - assert (posixpath.join (path_of h a) e ∈ subdirectories E (path_of h a)) as Hq
      by (apply elem_of_subdirectories; by exists es, e).
    rewrite <- build_from_path_children in Hq by done.
    apply list_elem_of_fmap in Hq as (c & -> & Hc). exists c. split; [|done].
    destruct (decide (a = 0)) as [->|Hne].
    + destruct (build_from_path_root _ _ _ _ _ _ Hb) as (_ & _ & _ & _ & _ & _ & _ & Hk).
      by apply Hk in Hc as (_ & ? & _).
    + destruct (build_from_path_node _ _ _ _ _ _ a Hb) as (_ & _ & _ & Hk & _);
        [lia|done|]. by apply Hk in Hc as (_ & ? & _).
Qed.

End Paths.

(** X1: the nodes of the built tree stand for the directories that can
    be reached from the root through listings: the root, and in every
    directory that is reached and can be listed the entries that are
    directories and not hidden.  No such directory is left out, at any
    depth, and no node stands for anything else. *)
Theorem build_from_path_paths (E : environment) (fuel : nat) (path : string)
    (depth : Z) (h : heap) (t : FileTree) (p : string) :
  FileTree_build_from_path E fuel path depth = Some (h, t) ->
  (∃ a, a < length h ∧ full_path (h !!! a) = p) ↔ explored E (canonical E path) p.
Proof.
  intros Hb. split.
  - intros (a & Ha & <-). by eapply build_from_path_explored.
  - by eapply explored_built.
Qed.

Lemma build_from_path_paths_witness :
  ∃ h t, FileTree_build_from_path project 5 "." 0 = Some (h, t)
    ∧ ((∃ a, a < length h ∧ full_path (h !!! a) = "/r/a/x/deep")
       ↔ explored project (canonical project ".") "/r/a/x/deep").
Proof.
  eexists _, _. split; [vm_compute; reflexivity|].
  eapply (build_from_path_paths project 5 "." 0). vm_compute; reflexivity.
Defined.

(** *** The index *)

Lemma indexed_step (E : environment) (n0 : nat) h t r d e :
  indexed_from n0 (h, t) -> r < length h -> hidden e = false ->
  isdir E (posixpath.join (full_path (h !!! r)) e) = true ->
  indexed_from n0
    (linked h r (new_child E r d (posixpath.join (full_path (h !!! r)) e)),
     set_node (posixpath.join (full_path (h !!! r)) e) (length h) t).
Proof.
  intros Hi Hr _ _ a Hlo. simpl. rewrite linked_length. intros Ha.
  rewrite lookup_insert_is_Some.
  destruct (decide (a = length h)) as [->|Hne].
  - left. unfold path_of. rewrite linked_new by done.
    unfold new_child. by destruct (_ >? _)%Z.
  - destruct (decide (posixpath.join (full_path (h !!! r)) e
                      = path_of (linked h r (new_child E r d
                                   (posixpath.join (full_path (h !!! r)) e))) a));
      [by left|right]. split; [done|].
    replace (path_of (linked h r (new_child E r d
               (posixpath.join (full_path (h !!! r)) e))) a) with (path_of h a).
    + apply (Hi a); simpl; [done|lia].
    + unfold path_of. destruct (decide (a = r)) as [->|Hne'].
      * by rewrite linked_parent.
      * by rewrite linked_other by lia.
Qed.

(** X3: every node below the root is entered in the index under its own
    path, so that [expand_path] on the path of such a node does not end
    in the not-found error. *)
Theorem build_from_path_indexes (E : environment) (fuel fuel' : nat) (path : string)
    (depth : Z) (h : heap) (t : FileTree) (a : addr) :
  FileTree_build_from_path E fuel path depth = Some (h, t) ->
  a < length h -> a ≠ root t ->
  is_Some (nodes t !! full_path (h !!! a))
  ∧ (expand_path E fuel' (full_path (h !!! a)) (h, t)).2
    ≠ Raise (not_found (full_path (h !!! a))).
Proof.
  intros Hb Ha Hne.
  destruct (build_from_path_root _ _ _ _ _ _ Hb) as (Hr & _).
  assert (is_Some (nodes t !! full_path (h !!! a))) as Hin.
  { rewrite build_from_path_unfold in Hb.
    apply (build_subtree_preserves E (indexed_from 1) (indexed_step E 1)) in Hb
      as [Hi _]; [|simpl; lia|].
    - apply (Hi a); simpl; [lia|done].
    - intros b Hlo Hb'. simpl in Hb'. lia. }
  split; [done|].
  destruct (expand_path_errors E fuel' (full_path (h !!! a)) h t) as (Hnf & _).
  rewrite Hnf. destruct Hin as [b Hb']. congruence.
Qed.

Lemma build_from_path_indexes_witness :
  ∃ h t, FileTree_build_from_path project 5 "." 1 = Some (h, t)
    ∧ is_Some (nodes t !! full_path (h !!! 3))
    ∧ (expand_path project 5 (full_path (h !!! 3)) (h, t)).2
      ≠ Raise (not_found (full_path (h !!! 3))).
Proof.
  eexists _, _. split; [vm_compute; reflexivity|].
  eapply (build_from_path_indexes project 5 5 "." 1);
    [vm_compute; reflexivity|vm_compute; lia|vm_compute; lia].
Defined.

(** ** [expand_path] on a node that has children *)

Lemma wf_heap_node (h : heap) (a : addr) :
  a < length h -> wf_node h a = false -> wf_heap h = false.
Proof.
  intros Ha Hn. apply not_true_is_false. intros Hwf.
  rewrite (wf_node_at h Hwf a) in Hn. done.
Qed.

(** X4: [expand_path] does not look at the children that a node has
    already: it appends one new child for each subdirectory.  On a node
    that has been explored before, a subdirectory gets a second node,
    and the store no longer keeps the paths of siblings apart. *)
Theorem expand_path_appends (E : environment) (fuel n : nat) (path : string)
    (h : heap) (t : FileTree) (a : addr) :
  wf_heap h = true ->
  nodes t !! path = Some a -> a < length h -> is_dir (h !!! a) = true ->
  bounded E n (path_of h a) = true -> n ≤ fuel ->
  ∃ h' t' new,
    expand_path E fuel path (h, t) = ((h', t'), Ok tt)
    ∧ children (h' !!! a) = children (h !!! a) ++ new
    ∧ path_of h' <$> new = subdirectories E (path_of h a)
    ∧ (∀ c, c ∈ new -> length h ≤ c ∧ c < length h')
    ∧ path_of h' <$> children (h' !!! a)
      = (path_of h <$> children (h !!! a)) ++ subdirectories E (path_of h a)
    ∧ ((∃ c, c ∈ children (h !!! a) ∧ path_of h c ∈ subdirectories E (path_of h a)) ->
       wf_heap h' = false).
Proof.
  intros Hwf Hk Ha Hd Hb Hfuel. unfold expand_path. simpl. rewrite Hk, Hd. simpl.
  destruct (build_subtree_total E n fuel a 1 (h, t) Hb Hfuel Ha) as [[h' t'] Hst].
  rewrite Hst. apply build_subtree_spec in Hst; [|done].
  destruct Hst as (L & _ & F & S & (new & C & P & N) & _). simpl in *.
  rewrite Hd in P.
  assert (path_of h' <$> children (h' !!! a)
          = (path_of h <$> children (h !!! a)) ++ subdirectories E (path_of h a)) as Hpaths.
  { rewrite C, fmap_app, P. f_equal. apply list_fmap_ext. intros i c Hc.
    apply list_elem_of_lookup_2, (wf_children h Hwf) in Hc as (Hlt & Hc & _).
    unfold path_of. rewrite F; [done..|lia]. }
  exists h', t', new. split_and!; try done.
  - intros c Hc. apply N in Hc. tauto.
  - intros (c & Hc & Hsub). apply (wf_heap_node h' a); [lia|].
    apply not_true_is_false. intros Hnode. unfold wf_node in Hnode.
    apply andb_true_iff in Hnode as [[_ Hdist]%andb_true_iff _].
    apply distinct_NoDup in Hdist. rewrite Hpaths in Hdist.
    apply NoDup_app in Hdist as (_ & Hdisj & _).
    apply (Hdisj (path_of h c)); [|done]. by apply list_elem_of_fmap_2.
Qed.

Lemma expand_path_appends_witness :
  ∃ h t, FileTree_build_from_path project 5 "/r" 2 = Some (h, t)
    ∧ ∃ h' t' new,
        expand_path project 5 "/r/a" (h, t) = ((h', t'), Ok tt)
        ∧ children (h' !!! 2) = children (h !!! 2) ++ new
        ∧ path_of h' <$> new = subdirectories project (path_of h 2)
        ∧ (∀ c, c ∈ new -> length h ≤ c ∧ c < length h')
        ∧ path_of h' <$> children (h' !!! 2)
          = (path_of h <$> children (h !!! 2)) ++ subdirectories project (path_of h 2)
        ∧ ((∃ c, c ∈ children (h !!! 2)
                 ∧ path_of h c ∈ subdirectories project (path_of h 2)) ->
           wf_heap h' = false).
Proof.
  eexists _, _. split; [vm_compute; reflexivity|].
  apply (expand_path_appends project 5 5 "/r/a" _ _ 2);
    [vm_compute; reflexivity|vm_compute; reflexivity|vm_compute; lia
    |vm_compute; reflexivity|vm_compute; reflexivity|lia].
Defined.

(** ** One tree *)

Lemma hops_on_path (h : heap) (a b : addr) (k : nat) :
  hops h a k b -> on_path h a b.
Proof.
  induction 1 as [|a p k b Hp _ IH]; [constructor|]. by eapply on_path_step.
Qed.

Lemma on_path_hops (h : heap) (a r : addr) : on_path h a r -> ∃ k, hops h a k r.
Proof.
  induction 1 as [|b p _ [k Hk] Hp]; [exists 0; constructor|].
  exists (S k). by eapply hops_snoc.
Qed.

Lemma build_from_path_connected (E : environment) (fuel : nat) (path : string)
    (depth : Z) (h : heap) (t : FileTree) :
  FileTree_build_from_path E fuel path depth = Some (h, t) -> connected h 0.
Proof.
  intros Hb a Ha. destruct (decide (a = 0)) as [->|Hne]; [constructor|].
  destruct (build_from_path_node _ _ _ _ _ _ a Hb) as (_ & (k & _ & Hk & _) & _);
    [lia|done|].
  by eapply hops_on_path.
Qed.

Lemma descendant_trans (h : heap) (a b c : addr) :
  descendant h a b -> descendant h b c -> descendant h a c.
Proof. intros Hab. induction 1; [done|by econstructor]. Qed.

Lemma on_path_descendant (h : heap) (a r : addr) :
  wf_heap h = true -> on_path h a r -> descendant h r a.
Proof.
  intros Hwf. induction 1 as [|b p Hb IH Hp]; [constructor|].
  apply (wf_parent h Hwf) in Hp as [_ Hin].
  eapply descendant_trans; [|exact IH]. econstructor; [constructor|done].
Qed.

Lemma descendant_bound (h : heap) (r a : addr) :
  wf_heap h = true -> r < length h -> descendant h r a -> a < length h.
Proof.
  intros Hwf Hr. induction 1 as [|b c _ _ Hc]; [done|].
  by apply (wf_children h Hwf) in Hc as (_ & ? & _).
Qed.

Lemma descendant_all (h : heap) (r a : addr) :
  wf_heap h = true -> connected h r -> r < length h ->
  descendant h r a ↔ a < length h.
Proof.
  intros Hwf Hc Hr. split; [by apply descendant_bound|].
  intros Ha. by apply on_path_descendant, Hc.
Qed.

Lemma connected_root (h : heap) (r a : addr) :
  connected h r -> parent (h !!! r) = None -> a < length h ->
  parent (h !!! a) = None -> a = r.
Proof.
  intros Hc Hr Ha Hp. apply Hc, on_path_inv in Ha as [->|(p & Hp' & _)]; [done|congruence].
Qed.

(** *** Equality of nodes is identity *)

Lemma node_eq_S (fuel : nat) (h : heap) (a b : addr) :
  node_eq (S fuel) h a b
  = if Nat.eqb a b then Some true
    else
      if negb (String.eqb (full_path (h !!! a)) (full_path (h !!! b))) then Some false
      else if negb (Bool.eqb (is_dir (h !!! a)) (is_dir (h !!! b))) then Some false
      else if negb (Bool.eqb (expanded (h !!! a)) (expanded (h !!! b))) then Some false
      else if negb (Bool.eqb (is_package (h !!! a)) (is_package (h !!! b))) then Some false
      else
        match option_eq (node_eq fuel h) (parent (h !!! a)) (parent (h !!! b)) with
        | Some true => list_eq (node_eq fuel h) (children (h !!! a)) (children (h !!! b))
        | r => r
        end.
Proof. done. Qed.

(** In a well-formed store that hangs below one root, two distinct nodes
    differ in a field that [==] reads before it gets to the children:
    the path, a flag, or, further up, the parent. *)
Lemma node_eq_distinct (h : heap) (r : addr) :
  wf_heap h = true -> connected h r -> parent (h !!! r) = None ->
  ∀ n a b, a ≤ n -> a < length h -> b < length h -> a ≠ b ->
           node_eq (S n) h a b = Some false.
Proof.
  intros Hwf Hc Hr. induction n as [|n IH]; intros a b Hn Ha Hb Hne;
    rewrite node_eq_S;
    (destruct (Nat.eqb_spec a b) as [|_]; [done|]);
    (destruct (String.eqb_spec (full_path (h !!! a)) (full_path (h !!! b))) as [Hpath|];
      [|done]); cbn [negb];
    repeat (destruct (negb _); [done|]);
    (destruct (parent (h !!! a)) as [pa|] eqn:Hpa;
      destruct (parent (h !!! b)) as [pb|] eqn:Hpb; cbn [option_eq]; try done);
    try (exfalso; apply Hne;
         rewrite (connected_root h r a), (connected_root h r b); done).
  - apply (wf_parent h Hwf) in Hpa. lia.
  - pose proof (wf_parent h Hwf _ _ Hpa) as [Hlt Hina].
    pose proof (wf_parent h Hwf _ _ Hpb) as [Hltb Hinb].
    rewrite IH; [done|lia|lia|lia|].
    intros <-. apply Hne.
    eapply (inj_on_NoDup (path_of h)); [apply (wf_distinct h Hwf pa)|done..].
Qed.

Lemma node_eq_identity_wf (h : heap) (r : addr) (fuel : nat) (a b : addr) :
  wf_heap h = true -> connected h r -> parent (h !!! r) = None ->
  a < length h -> b < length h -> a < fuel ->
  node_eq fuel h a b = Some (bool_decide (a = b)).
Proof.
  intros Hwf Hc Hr Ha Hb Hfuel. destruct (decide (a = b)) as [->|Hne].
  - by rewrite node_eq_refl, bool_decide_true.
  - rewrite bool_decide_false by done. destruct fuel as [|n]; [lia|].
    eapply node_eq_distinct; eauto. lia.
Qed.

(** X5: on the nodes of a built tree the [==] that the dataclass
    generates is identity: it returns, and two nodes are equal exactly
    when they are the same object, also when their paths and flags agree. *)
Theorem node_eq_identity (E : environment) (fuel0 : nat) (path : string) (depth : Z)
    (h : heap) (t : FileTree) (fuel : nat) (a b : addr) :
  sane E ->
  FileTree_build_from_path E fuel0 path depth = Some (h, t) ->
  a < length h -> b < length h -> a < fuel ->
  node_eq fuel h a b = Some (bool_decide (a = b)).
Proof.
  intros Hsane Hb.
  destruct (build_from_path_root _ _ _ _ _ _ Hb) as (_ & _ & _ & _ & _ & Hp & _).
  eapply node_eq_identity_wf;
    [by eapply build_from_path_wf|by eapply build_from_path_connected|done].
Qed.

Lemma node_eq_identity_witness :
  ∃ h t, FileTree_build_from_path project 5 "/r" 2 = Some (h, t)
    ∧ node_eq 3 h 2 1 = Some (bool_decide (2 = 1)).
Proof.
  eexists _, _. split; [vm_compute; reflexivity|].
  eapply (node_eq_identity project 5 "/r" 2 _ _ 3 2 1);
    [apply project_sane|vm_compute; reflexivity|vm_compute; lia..].
Defined.

(** *** The full traversal reaches every node *)

Lemma preorder_all (h : heap) (r : addr) :
  wf_heap h = true -> connected h r -> r < length h ->
  preorder (length h) h false r ≡ₚ seq 0 (length h).
Proof.
  intros Hwf Hc Hr. apply NoDup_Permutation.
  - by apply NoDup_preorder.
  - apply NoDup_seq.
  - intros a. rewrite elem_of_preorder, descendant_all by done.
    rewrite elem_of_seq. lia.
Qed.

(** X6: the full traversal of a built tree returns, and yields every
    node of the store once: no node that construction has created is out
    of reach of the root. *)
Theorem full_traversal_all_nodes (E : environment) (fuel0 : nat) (path : string)
    (depth : Z) (h : heap) (t : FileTree) (fuel : nat) :
  sane E ->
  FileTree_build_from_path E fuel0 path depth = Some (h, t) ->
  length h < fuel ->
  ∃ l, FileTree_iter fuel h t = Some l ∧ l ≡ₚ seq 0 (length h).
Proof.
  intros Hsane Hb Hfuel.
  pose proof (build_from_path_wf _ _ _ _ _ _ Hsane Hb) as Hwf.
  destruct (build_from_path_root _ _ _ _ _ _ Hb) as (Hr & Hlen & _).
  eexists. split; [by apply file_tree_iterator_preorder|].
  rewrite Hr. apply preorder_all; [done| |done].
  by eapply build_from_path_connected.
Qed.

Lemma full_traversal_all_nodes_witness :
  ∃ h t, FileTree_build_from_path project 5 "/r" 2 = Some (h, t)
    ∧ ∃ l, FileTree_iter 6 h t = Some l ∧ l ≡ₚ seq 0 (length h).
Proof.
  eexists _, _. split; [vm_compute; reflexivity|].
  eapply (full_traversal_all_nodes project 5 "/r" 2 _ _ 6);
    [apply project_sane|vm_compute; reflexivity|vm_compute; lia].
Defined.

(** ** What a key event changes *)

Lemma update_display_inv (fuel : nat) (s s' : InteractivePackageTree) :
  _update_display fuel s = Ok s' -> s' = s.
Proof.
  unfold _update_display. destruct (_render_tree fuel (store s) (file_tree s)); simpl;
    congruence.
Qed.

Lemma same_shape_refl (h : heap) : same_shape h h.
Proof. by split. Qed.

Lemma same_shape_trans (h1 h2 h3 : heap) :
  same_shape h1 h2 -> same_shape h2 h3 -> same_shape h1 h3.
Proof.
  intros [L1 S1] [L2 S2]. split; [congruence|]. intros a.
  destruct (S1 a) as (<- & <- & <-). apply S2.
Qed.

Lemma up_frame (fuel : nat) (s s' : InteractivePackageTree) :
  up fuel s = Ok s' ->
  store s' = store s ∧ file_tree s' = file_tree s ∧ exit_code s' = exit_code s.
Proof.
  unfold up. destruct (prev_sibling fuel (store s) (selected_node s)) as [[b|]| |];
    cbn [mbind outcome_bind]; try done.
  - destruct (last_descendant fuel (store s) b); [|done].
    by intros ->%update_display_inv.
  - destruct (parent (store s !!! selected_node s)).
    + by intros ->%update_display_inv.
    + by intros [= <-].
Qed.

Lemma down_frame (fuel : nat) (s s' : InteractivePackageTree) :
  down fuel s = Ok s' ->
  store s' = store s ∧ file_tree s' = file_tree s ∧ exit_code s' = exit_code s.
Proof.
  unfold down.
  destruct (sorted_by_path (store s) (visible_children (store s) (selected_node s))).
  - destruct (parent (store s !!! selected_node s)); [|by intros [= <-]].
    destruct (next_sibling fuel (store s) (selected_node s)) as [next| |];
      cbn [mbind outcome_bind]; try done.
    destruct (bubble_up fuel fuel (store s) (selected_node s) next) as [[ns|]| |];
      cbn [mbind outcome_bind]; try done.
    + by intros ->%update_display_inv.
    + by intros [= <-].
  - by intros ->%update_display_inv.
Qed.

Lemma handle_shape (fuel : nat) (k : key) (s s' : InteractivePackageTree)
    (exited : bool) :
  handle fuel k s = Ok (s', exited) ->
  file_tree s' = file_tree s ∧ same_shape (store s) (store s').
Proof.
  assert (∀ f : FileNode -> FileNode,
            (∀ n, full_path (f n) = full_path n ∧ parent (f n) = parent n
                  ∧ children (f n) = children n) ->
            ∀ x, _update_display fuel
                   (with_store (<[selected_node s := f (store s !!! selected_node s)]>
                                  (store s)) s) = x ->
                 (s' ← x; Ok (s', false)) = Ok (s', exited) ->
                 file_tree s' = file_tree s ∧ same_shape (store s) (store s')) as Hflag.
  { intros f Hf [s1| |] Hd; cbn [mbind outcome_bind]; try done.
    intros [= <- <-]. apply update_display_inv in Hd as ->. simpl.
    split; [done|by apply update_shape]. }
  destruct k; simpl.
  - destruct (up fuel s) as [s1| |] eqn:Hup; cbn [mbind outcome_bind]; try done.
    intros [= <- <-]. apply up_frame in Hup as (-> & -> & _).
    split; [done|apply same_shape_refl].
  - destruct (down fuel s) as [s1| |] eqn:Hd; cbn [mbind outcome_bind]; try done.
    intros [= <- <-]. apply down_frame in Hd as (-> & -> & _).
    split; [done|apply same_shape_refl].
  - by apply (Hflag (set_expanded true)).
  - by apply (Hflag (set_expanded false)).
  - by apply (Hflag (fun n => set_is_package (negb (is_package n)) n)).
  - intros [= <- <-]. split; [done|apply same_shape_refl].
  - intros [= <- <-]. split; [done|apply same_shape_refl].
Qed.

(** X8: what a key event can change.  No key changes the index of the
    tree, nor the path, the parent, the children or [is_dir] of any
    node, nor any field of a node other than the selected one; [up] and
    [down] leave the store and the exit code as they are; [right],
    [left] and [enter] keep the selection and write one flag of the
    selected node, [expanded] or [is_package]; [c-c] and [c-s] only set
    the exit code, and they are the keys that end the session. *)
Theorem handle_frame (fuel : nat) (k : key) (s s' : InteractivePackageTree)
    (exited : bool) :
  handle fuel k s = Ok (s', exited) ->
  file_tree s' = file_tree s
  ∧ same_shape (store s) (store s')
  ∧ (∀ a, is_dir (store s' !!! a) = is_dir (store s !!! a))
  ∧ (∀ a, a ≠ selected_node s -> store s' !!! a = store s !!! a)
  ∧ match k with
    | Up | Down => store s' = store s ∧ exit_code s' = exit_code s
    | Right =>
        selected_node s' = selected_node s
        ∧ is_package (store s' !!! selected_node s) = is_package (store s !!! selected_node s)
        ∧ (selected_node s < length (store s) ->
           expanded (store s' !!! selected_node s) = true)
    | Left =>
        selected_node s' = selected_node s
        ∧ is_package (store s' !!! selected_node s) = is_package (store s !!! selected_node s)
        ∧ (selected_node s < length (store s) ->
           expanded (store s' !!! selected_node s) = false)
    | Enter =>
        selected_node s' = selected_node s
        ∧ expanded (store s' !!! selected_node s) = expanded (store s !!! selected_node s)
        ∧ (selected_node s < length (store s) ->
           is_package (store s' !!! selected_node s)
           = negb (is_package (store s !!! selected_node s)))
    | CtrlC => s' = with_exit_code QUIT_NOSAVE s
    | CtrlS => s' = with_exit_code QUIT_SAVE s
    end
  ∧ (exited = true ↔ k = CtrlC ∨ k = CtrlS).
Proof.
  assert (∀ f : FileNode -> FileNode,
            (∀ n, full_path (f n) = full_path n ∧ parent (f n) = parent n
                  ∧ children (f n) = children n) ->
            (∀ n, is_dir (f n) = is_dir n) ->
            let h' := <[selected_node s := f (store s !!! selected_node s)]> (store s) in
            same_shape (store s) h'
            ∧ (∀ a, is_dir (h' !!! a) = is_dir (store s !!! a))
            ∧ (∀ a, a ≠ selected_node s -> h' !!! a = store s !!! a)
            ∧ (selected_node s < length (store s) ->
               h' !!! selected_node s = f (store s !!! selected_node s))
            ∧ (length (store s) ≤ selected_node s -> h' = store s)) as Hflag.
  { intros f Hf Hd h'. split_and!.
    - by apply update_shape.
    - intros a. subst h'. destruct (decide (a = selected_node s)) as [->|Hne];
        [|by rewrite update_lookup].
      destruct (decide (selected_node s < length (store s))).
      + by rewrite list_lookup_total_insert_eq.
      + by rewrite list_insert_ge by lia.
    - intros a Hne. by apply update_lookup.
    - intros Hlt. by apply list_lookup_total_insert_eq.
    - intros Hge. by apply list_insert_ge. }
  destruct k; simpl.
  - destruct (up fuel s) as [s1| |] eqn:Hup; cbn [mbind outcome_bind]; try done.
    intros [= <- <-]. apply up_frame in Hup as (Hst & Ht & Hc). rewrite Hst.
    split_and!; try done. split; [done|]. by intros [|].
  - destruct (down fuel s) as [s1| |] eqn:Hd; cbn [mbind outcome_bind]; try done.
    intros [= <- <-]. apply down_frame in Hd as (Hst & Ht & Hc). rewrite Hst.
    split_and!; try done. split; [done|]. by intros [|].
  - destruct (right fuel s) as [s1| |] eqn:Hr; cbn [mbind outcome_bind]; try done.
    intros [= <- <-]. apply update_display_inv in Hr as ->. simpl.
    destruct (Hflag (set_expanded true)) as (H1 & H2 & H3 & H4 & H5); [done..|].
    split_and!; try done.
    + destruct (decide (selected_node s < length (store s))).
      * by rewrite H4.
      * by rewrite H5 by lia.
    + intros Hlt. by rewrite H4.
    + split; [done|]. by intros [|].
  - destruct (left fuel s) as [s1| |] eqn:Hr; cbn [mbind outcome_bind]; try done.
    intros [= <- <-]. apply update_display_inv in Hr as ->. simpl.
    destruct (Hflag (set_expanded false)) as (H1 & H2 & H3 & H4 & H5); [done..|].
    split_and!; try done.
    + destruct (decide (selected_node s < length (store s))).
      * by rewrite H4.
      * by rewrite H5 by lia.
    + intros Hlt. by rewrite H4.
    + split; [done|]. by intros [|].
  - destruct (enter fuel s) as [s1| |] eqn:Hr; cbn [mbind outcome_bind]; try done.
    intros [= <- <-]. apply update_display_inv in Hr as ->. simpl.
    destruct (Hflag (fun n => set_is_package (negb (is_package n)) n))
      as (H1 & H2 & H3 & H4 & H5); [done..|].
    split_and!; try done.
    + destruct (decide (selected_node s < length (store s))).
      * by rewrite H4.
      * by rewrite H5 by lia.
    + intros Hlt. by rewrite H4.
    + split; [done|]. by intros [|].
  - intros [= <- <-]. simpl. split_and!; try done. split; [by left|done].
  - intros [= <- <-]. simpl. split_and!; try done. split; [by right|done].
Qed.


Lemma handle_frame_witness :
  ∃ s s', init project 6 "/r" 2 = Ok s
    ∧ handle 6 Enter s = Ok (s', false)
    ∧ file_tree s' = file_tree s
    ∧ same_shape (store s) (store s')
    ∧ (∀ a, is_dir (store s' !!! a) = is_dir (store s !!! a))
    ∧ (∀ a, a ≠ selected_node s -> store s' !!! a = store s !!! a)
    ∧ (selected_node s' = selected_node s
       ∧ expanded (store s' !!! selected_node s) = expanded (store s !!! selected_node s)
       ∧ (selected_node s < length (store s) ->
          is_package (store s' !!! selected_node s)
          = negb (is_package (store s !!! selected_node s))))
    ∧ (false = true ↔ Enter = CtrlC ∨ Enter = CtrlS).
Proof.
  eexists _, _. split; [vm_compute; reflexivity|]. split; [vm_compute; reflexivity|].
  apply (handle_frame 6 Enter). vm_compute; reflexivity.
Defined.

(** The full traversal reads paths and children only. *)
Lemma iterate_same_shape (h h' : heap) (fuel : nat) (stack : list addr) :
  same_shape h h' -> iterate fuel h' false stack = iterate fuel h false stack.
Proof.
  intros [_ Hsh]. revert stack. induction fuel as [|fuel IH]; intros [|a stack]; try done.
  simpl. rewrite IH. destruct (Hsh a) as (_ & _ & ->).
  unfold sorted_reverse.
  rewrite (sorted_ext (path_of h') (path_of h)); [done|].
  intros x. unfold path_of. by destruct (Hsh x) as (-> & _).
Qed.

Lemma navigate_shape (fuel : nat) (keys : list key) (s s' : InteractivePackageTree) :
  navigate fuel keys s = Ok s' ->
  file_tree s' = file_tree s ∧ same_shape (store s) (store s').
Proof.
  revert s. induction keys as [|k keys IH]; intros s; simpl.
  - intros [= <-]. split; [done|apply same_shape_refl].
  - destruct (handle fuel k s) as [[s1 exited]| |] eqn:Hk; cbn [mbind outcome_bind];
      try done.
    apply handle_shape in Hk as (Ht & Hsh).
    destruct exited.
    + intros [= <-]. done.
    + intros Hn. apply IH in Hn as [Ht' Hsh']. split; [congruence|].
      by eapply same_shape_trans.
Qed.

(** X9: no sequence of key events changes what the full traversal
    yields, nor the path of any node: what [left] hides on the screen
    stays in the tree that [run] reads when the session is saved. *)
Theorem keys_keep_full_traversal (fuel fuel' : nat) (keys : list key)
    (s s' : InteractivePackageTree) :
  navigate fuel keys s = Ok s' ->
  FileTree_iter fuel' (store s') (file_tree s')
  = FileTree_iter fuel' (store s) (file_tree s)
  ∧ ∀ a, full_path (store s' !!! a) = full_path (store s !!! a).
Proof.
  intros Hk. apply navigate_shape in Hk as (Ht & Hsh).
  split.
  - unfold FileTree_iter, file_tree_iterator. rewrite Ht. by apply iterate_same_shape.
  - intros a. destruct Hsh as [_ Hsh]. by destruct (Hsh a) as (-> & _).
Qed.

Lemma keys_keep_full_traversal_witness :
  ∃ s s', init project 6 "/r" 2 = Ok s
    ∧ navigate 6 [Down; Down; Left; Enter; Up; Left] s = Ok s'
    ∧ FileTree_iter 6 (store s') (file_tree s') = FileTree_iter 6 (store s) (file_tree s)
    ∧ ∀ a, full_path (store s' !!! a) = full_path (store s !!! a).
Proof.
  eexists _, _. split; [vm_compute; reflexivity|]. split; [vm_compute; reflexivity|].
  apply (keys_keep_full_traversal 6 6 [Down; Down; Left; Enter; Up; Left]).
  vm_compute; reflexivity.
Defined.

(** ** Toggles *)

Lemma update_twice (h : heap) (a : addr) (f g : FileNode -> FileNode) :
  <[a := f (<[a := g (h !!! a)]> h !!! a)]> (<[a := g (h !!! a)]> h)
  = <[a := f (g (h !!! a))]> h.
Proof.
  destruct (decide (a < length h)) as [Hlt|Hge].
  - rewrite list_lookup_total_insert_eq by done. apply list_insert_insert_eq.
  - by rewrite !(list_insert_ge h) by lia.
Qed.

Lemma update_id (h : heap) (a : addr) : <[a := h !!! a]> h = h.
Proof.
  destruct (decide (a < length h)) as [Hlt|Hge].
  - apply list_insert_id. by apply list_lookup_lookup_total_lt.
  - apply list_insert_ge. lia.
Qed.

Lemma reached_inv (E : environment) (fuel0 : nat) (path : string) (depth : Z)
    (s0 : InteractivePackageTree) (fuel : nat) (keys : list key)
    (s : InteractivePackageTree) :
  sane E ->
  init E fuel0 path depth = Ok s0 ->
  length (store s0) < fuel ->
  navigate fuel keys s0 = Ok s ->
  session_inv s ∧ length (store s) < fuel.
Proof.
  intros Hsane Hinit Hfuel Hnav.
  destruct (init_inv E fuel0 path depth s0 Hsane Hinit) as (Hinv0 & _).
  destruct (navigate_inv fuel keys s0 Hinv0 Hfuel) as (s' & Hs' & Hinv & Hlen).
  assert (s' = s) as -> by congruence. split; [done|lia].
Qed.

(** X10: [enter] toggles the mark of the selected node: in every state
    that a session reaches, pressed twice it leaves the session exactly
    as it was. *)
Theorem enter_twice (E : environment) (fuel0 : nat) (path : string) (depth : Z)
    (s0 : InteractivePackageTree) (fuel : nat) (keys : list key)
    (s : InteractivePackageTree) :
  sane E ->
  init E fuel0 path depth = Ok s0 ->
  length (store s0) < fuel ->
  navigate fuel keys s0 = Ok s ->
  ∃ s1, enter fuel s = Ok s1 ∧ enter fuel s1 = Ok s.
Proof.
  intros Hsane Hinit Hfuel Hnav.
  destruct (reached_inv E fuel0 path depth s0 fuel keys s) as [Hinv Hfuel']; [done..|].
  assert (_update_display fuel s = Ok s) as Hdisp.
  { destruct Hinv as (? & ? & _). by apply update_display_ok. }
  destruct (enter_inv fuel s Hinv Hfuel') as (s1 & Hs1 & Hinv1 & Hlen1).
  exists s1. split; [done|].
  pose proof Hs1 as Heq. apply update_display_inv in Heq. subst s1.
  unfold enter. simpl.
  rewrite (update_twice (store s) (selected_node s)
             (fun n => set_is_package (negb (is_package n)) n)
             (fun n => set_is_package (negb (is_package n)) n)).
  replace (set_is_package _ (set_is_package _ (store s !!! selected_node s)))
    with (store s !!! selected_node s)
    by (destruct (store s !!! selected_node s) as [? ? ? []]; done).
  rewrite update_id. unfold with_store. simpl.
  by destruct s.
Qed.

Lemma enter_twice_witness :
  ∃ s0 s, init project 6 "/r" 2 = Ok s0
    ∧ navigate 6 [Down; Down; Enter; Down] s0 = Ok s
    ∧ ∃ s1, enter 6 s = Ok s1 ∧ enter 6 s1 = Ok s.
Proof.
  eexists _, _. split; [vm_compute; reflexivity|]. split; [vm_compute; reflexivity|].
  eapply (enter_twice project 6 "/r" 2 _ 6 [Down; Down; Enter; Down]);
    [apply project_sane|vm_compute; reflexivity|vm_compute; lia|vm_compute; reflexivity].
Defined.

(** X11: [right] and [left] write the [expanded] flag of the selected
    node: in every state that a session reaches, the later of the two
    decides, each of them pressed again changes nothing, and the one
    that writes the value that the flag has already leaves the session
    as it is; so [left] and then [right] on an expanded node lead back
    to the session before. *)
Theorem expand_collapse (E : environment) (fuel0 : nat) (path : string) (depth : Z)
    (s0 : InteractivePackageTree) (fuel : nat) (keys : list key)
    (s : InteractivePackageTree) :
  sane E ->
  init E fuel0 path depth = Ok s0 ->
  length (store s0) < fuel ->
  navigate fuel keys s0 = Ok s ->
  ∃ s1 s2, right fuel s = Ok s1 ∧ left fuel s = Ok s2
           ∧ left fuel s1 = Ok s2 ∧ right fuel s2 = Ok s1
           ∧ right fuel s1 = Ok s1 ∧ left fuel s2 = Ok s2
           ∧ (if expanded (store s !!! selected_node s) then s1 = s else s2 = s).
Proof.
  intros Hsane Hinit Hfuel Hnav.
  destruct (reached_inv E fuel0 path depth s0 fuel keys s) as [Hinv Hfuel']; [done..|].
  destruct (right_inv fuel s Hinv Hfuel') as (s1 & Hs1 & Hinv1 & Hlen1).
  destruct (left_inv fuel s Hinv Hfuel') as (s2 & Hs2 & Hinv2 & Hlen2).
  exists s1, s2. split; [done|]. split; [done|].
  pose proof Hs1 as Heq1. apply update_display_inv in Heq1.
  pose proof Hs2 as Heq2. apply update_display_inv in Heq2.
  assert (∀ b c (x : InteractivePackageTree),
            x = with_store (<[selected_node s := set_expanded b (store s !!! selected_node s)]>
                              (store s)) s ->
            with_store (<[selected_node x := set_expanded c (store x !!! selected_node x)]>
                          (store x)) x
            = with_store (<[selected_node s := set_expanded c (store s !!! selected_node s)]>
                            (store s)) s) as Hlast.
  { intros b c x ->. unfold with_store. simpl. f_equal.
    by rewrite (update_twice (store s) (selected_node s) (set_expanded c) (set_expanded b)). }
  assert (if expanded (store s !!! selected_node s) then s1 = s else s2 = s) as Hsame.
  { destruct (expanded (store s !!! selected_node s)) eqn:He.
    - rewrite Heq1.
      replace (set_expanded true (store s !!! selected_node s))
        with (store s !!! selected_node s)
        by (destruct (store s !!! selected_node s); simpl in *; by subst).
      rewrite update_id. by destruct s.
    - rewrite Heq2.
      replace (set_expanded false (store s !!! selected_node s))
        with (store s !!! selected_node s)
        by (destruct (store s !!! selected_node s); simpl in *; by subst).
      rewrite update_id. by destruct s. }
  split_and!; [..|done]; unfold right, left in *; cbv zeta in *.
  - by rewrite (Hlast true false s1 Heq1).
  - by rewrite (Hlast false true s2 Heq2).
  - by rewrite (Hlast true true s1 Heq1).
  - by rewrite (Hlast false false s2 Heq2).
Qed.

Lemma expand_collapse_witness :
  ∃ s0 s, init project 6 "/r" 2 = Ok s0
    ∧ navigate 6 [Down; Down] s0 = Ok s
    ∧ ∃ s1 s2, right 6 s = Ok s1 ∧ left 6 s = Ok s2
               ∧ left 6 s1 = Ok s2 ∧ right 6 s2 = Ok s1
               ∧ right 6 s1 = Ok s1 ∧ left 6 s2 = Ok s2
               ∧ (if expanded (store s !!! selected_node s) then s1 = s else s2 = s).
Proof.
  eexists _, _. split; [vm_compute; reflexivity|]. split; [vm_compute; reflexivity|].
  eapply (expand_collapse project 6 "/r" 2 _ 6 [Down; Down]);
    [apply project_sane|vm_compute; reflexivity|vm_compute; lia|vm_compute; reflexivity].
Defined.

(** ** The rows of the display *)

Lemma next_in_list {A} (L X Y : list A) (x y : A) (i : nat) :
  NoDup L -> L = X ++ x :: y :: Y -> L !! i = Some x -> L !! S i = Some y.
Proof.
  intros Hnd -> Hi.
  assert (i = length X) as ->.
  { eapply NoDup_lookup; [exact Hnd|exact Hi|]. by apply list_lookup_middle. }
  change (X ++ x :: y :: Y) with (X ++ [x] ++ y :: Y). rewrite app_assoc.
  apply list_lookup_middle. rewrite length_app. simpl. lia.
Qed.

Lemma last_in_list {A} (L : list A) (x : A) (i : nat) :
  NoDup L -> last L = Some x -> L !! i = Some x -> L !! S i = None.
Proof.
  intros Hnd Hl Hi. rewrite last_lookup in Hl.
  pose proof (NoDup_lookup _ _ _ _ Hnd Hi Hl) as ->.
  apply lookup_ge_None. pose proof (lookup_lt_Some _ _ _ Hl). lia.
Qed.

Lemma last_cons_app {A} (x : A) (l1 l2 : list A) :
  l2 ≠ [] -> last (x :: l1 ++ l2) = last l2.
Proof.
  intros Hne. rewrite app_comm_cons, last_app.
  destruct (last l2) eqn:Hl; [done|]. by apply last_None in Hl.
Qed.

Lemma shown_trans (h : heap) (a b c : addr) :
  shown h a b -> shown h b c -> shown h a c.
Proof. intros Hab. induction 1; [done|by econstructor]. Qed.

Section Rows.
Context (h : heap) (Hwf : wf_heap h = true).

Local Abbreviation pre := (preorder (length h) h true).
Local Abbreviation K a := (sorted_by_path h (visible_children h a)).

Lemma pre_unfold a : pre a = a :: concat (pre <$> K a).
Proof using Hwf. exact (preorder_unfold h Hwf true a). Qed.

Lemma pre_nonempty a : pre a ≠ [].
Proof using Hwf. by rewrite pre_unfold. Qed.

Lemma shown_parent a c :
  c ∈ visible_children h a ->
  expanded (h !!! a) = true ∧ a < c ∧ c < length h ∧ parent (h !!! c) = Some a.
Proof using Hwf.
  intros [He Hc]%wf_visible_children. by apply (wf_children h Hwf) in Hc.
Qed.

(** The rows of a subtree are the nodes that it shows. *)
Lemma elem_of_pre a b : b ∈ pre a ↔ shown h a b.
Proof using Hwf.
  split.
  - generalize (length h). intros n. revert a.
    induction n as [|n IH]; intros a; simpl.
    + intros ->%list_elem_of_singleton. constructor.
    + intros [->|Hb]%elem_of_cons; [constructor|].
      apply elem_of_concat in Hb as (l & Hb & Hl).
      apply list_elem_of_fmap in Hl as (c & -> & Hc).
      apply elem_of_sorted in Hc. apply IH in Hb.
      eapply shown_trans; [|exact Hb]. econstructor; [constructor|done].
  - induction 1 as [|b c Hb IH Hc]; [apply preorder_head|].
    rewrite <- (preorder_stable h Hwf true) by lia.
    by eapply preorder_kid.
Qed.

Lemma shown_visible r a :
  parent (h !!! r) = None -> shown h r a -> visible h a.
Proof using Hwf.
  intros Hr. induction 1 as [|b c Hb IH Hc]; [by apply visible_root|].
  apply shown_parent in Hc as (He & _ & _ & Hp). by eapply visible_child.
Qed.

Lemma shown_bound r a : r < length h -> shown h r a -> a < length h.
Proof using Hwf.
  intros Hr. induction 1 as [|b c Hb IH Hc]; [done|].
  by apply shown_parent in Hc as (_ & _ & ? & _).
Qed.

(** The ancestors of a row up to the root of the display are rows. *)
Lemma shown_up r x y :
  parent (h !!! r) = None -> shown h r x -> on_path h x y -> shown h r y.
Proof using Hwf.
  intros Hr Hx. revert y. induction Hx as [|b c Hb IH Hc]; intros y Hy.
  - apply on_path_inv in Hy as [->|(p & Hp & _)]; [constructor|congruence].
  - pose proof (shown_parent _ _ Hc) as (_ & _ & _ & Hp).
    apply on_path_inv in Hy as [->|(p & Hp' & Hy)]; [by econstructor|].
    simplify_eq. by apply IH.
Qed.

(** A visible node below [r] is a row of the subtree of [r]. *)
Lemma visible_shown r a k :
  hops h a k r -> visible h a -> shown h r a.
Proof using Hwf.
  induction 1 as [|a p k r Hp _ IH]; [constructor|]. intros Hv.
  destruct (visible_parent h _ _ Hv Hp) as [He Hvp].
  econstructor; [by apply IH|].
  rewrite visible_children_expanded by done. by apply (wf_parent h Hwf) in Hp as [_ ?].
Qed.

(** The rows of a subtree end with the node that move-up looks for. *)
Lemma last_pre n a b : last_descendant n h a = Some b -> last (pre a) = Some b.
Proof using Hwf.
  revert a. induction n as [|n IH]; intros a; simpl;
    destruct (last (K a)) as [c|] eqn:Hl; intros Hd; simplify_eq.
  - apply last_None in Hl. by rewrite pre_unfold, Hl.
  - apply IH in Hd. apply last_Some in Hl as [K' HK].
    rewrite pre_unfold, HK, fmap_app, concat_app. simpl. rewrite app_nil_r.
    rewrite last_cons_app; [done|apply pre_nonempty].
  - apply last_None in Hl. by rewrite pre_unfold, Hl.
Qed.

(** The rows of a subtree are a segment of the rows of the tree. *)
Lemma shown_segment r x : shown h r x -> ∃ A B, pre r = A ++ pre x ++ B.
Proof using Hwf.
  induction 1 as [|b c Hb (A & B & IH) Hc].
  - exists [], []. by rewrite app_nil_r.
  - assert (c ∈ K b) as Hin by (by apply elem_of_sorted).
    apply list_elem_of_split in Hin as (K1 & K2 & HK).
    rewrite (pre_unfold b), HK, fmap_app, fmap_cons, concat_app in IH. simpl in IH.
    exists (A ++ b :: concat (pre <$> K1)), (concat (pre <$> K2) ++ B).
    rewrite IH. by rewrite <- !app_assoc.
Qed.

(** The rows of two neighbours follow each other. *)
Lemma neighbours_segment p i x y :
  K p !! i = Some x -> K p !! S i = Some y ->
  ∃ A B, pre p = A ++ pre x ++ pre y ++ B.
Proof using Hwf.
  intros Hx Hy.
  pose proof (take_drop_middle _ _ _ Hx) as HK. rewrite (drop_S _ y (S i)) in HK by done.
  rewrite (pre_unfold p), <- HK, fmap_app, !fmap_cons, concat_app. simpl.
  exists (p :: concat (pre <$> take i (K p))), (concat (pre <$> drop (S (S i)) (K p))).
  done.
Qed.

(** Below a chain of last children, the rows end with the rows of the
    lowest of them. *)
Lemma last_chain fuel r x :
  shown h r x ->
  (∀ b, on_path h x b -> next_sibling (S fuel) h b = Ok None) ->
  last (pre r) = last (pre x).
Proof using Hwf.
  induction 1 as [|b c Hb IH Hc]; intros Hall; [done|].
  pose proof (shown_parent _ _ Hc) as (He & _ & _ & Hp).
  rewrite IH by (intros b' Hb'; apply Hall; by eapply on_path_step).
  pose proof (next_sibling_None h Hwf fuel c b Hp He (Hall c (on_path_self h c))) as Hl.
  apply last_Some in Hl as [K' HK].
  rewrite (pre_unfold b), HK, fmap_app, concat_app. simpl. rewrite app_nil_r.
  apply last_cons_app, pre_nonempty.
Qed.

End Rows.

(** *** Moving by one row *)

Lemma select_cursor_back (s : InteractivePackageTree) (x : addr) :
  select (selected_node s)
         (move_cursor_down (select x (move_cursor_up s) s))
         (select x (move_cursor_up s) s) = s.
Proof.
  destruct s as [e h t sel [cx cy]]. unfold select, move_cursor_up, move_cursor_down.
  simpl. do 2 f_equal. lia.
Qed.

Section MoveRows.
Context (fuel : nat) (s : InteractivePackageTree).
Context (Hinv : session_inv s) (Hfuel : length (store s) < fuel).

Lemma rows_visible : FileTree_visible fuel (store s) (file_tree s) = Some (rows s).
Proof using Hinv Hfuel.
  destruct Hinv as (Hwf & _). by apply file_tree_iterator_preorder.
Qed.

Lemma down_row (i : nat) :
  rows s !! i = Some (selected_node s) ->
  down fuel s = Ok (moved_to (rows s) (Some (S i)) (move_cursor_down s) s).
Proof using Hinv Hfuel.
  intros Hi. pose proof Hinv as (Hwf & Hroot & Hv).
  assert (∀ a c, _update_display fuel (select a c s) = Ok (select a c s)) as Hdisp
    by (intros; by apply update_display_ok).
  assert (NoDup (rows s)) as Hnd by (by apply NoDup_preorder).
  assert (shown (store s) (root (file_tree s)) (selected_node s)) as Hsh
    by (eapply elem_of_pre, list_elem_of_lookup_2, Hi; done).
  destruct (shown_segment _ Hwf _ _ Hsh) as (A & B & HL). fold (rows s) in HL.
  clear Hinv. destruct fuel as [|f]; [lia|].
  unfold moved_to. cbn [mbind option_bind].
  set (h := store s) in *. set (sel := selected_node s) in *.
  assert ((∀ b, on_path h sel b -> next_sibling (S f) h b = Ok None) ->
          visible_children h sel = [] -> rows s !! S i = None) as Hlast.
  { intros Hall Hnil. eapply last_in_list; [done| |exact Hi].
    unfold rows. fold h. rewrite (last_chain h Hwf f _ _ Hsh Hall).
    by rewrite (pre_unfold h Hwf sel), Hnil. }
  unfold down. fold h sel.
  destruct (sorted_by_path h (visible_children h sel)) as [|c l] eqn:Hs.
  - apply sorted_nil_inv in Hs.
    destruct (parent (h !!! sel)) as [p|] eqn:Hp.
    + destruct (next_sibling_total h Hwf f sel) as [next Hn].
      rewrite Hn. cbn [mbind outcome_bind].
      pose proof (wf_parent _ Hwf _ _ Hp) as [_ Hin].
      apply (wf_children _ Hwf) in Hin as (_ & Hlt & _).
      destruct (bubble_up_total h Hwf (S f) f sel next) as [r Hr]; [lia|].
      rewrite Hr. cbn [mbind outcome_bind].
      assert (last_descendant 0 h sel = Some sel) as Hd by (simpl; by rewrite Hs).
      pose proof (bubble_up_spec h Hwf _ _ _ _ _ _ _ Hv Hn Hd Hr) as Hspec.
      destruct r as [ns|]; [|by rewrite Hlast].
      destruct Hspec as (curr & m & Hvc & Hpath & Hm & Hnc & Hdc).
      pose proof (next_sibling_Some h Hwf _ _ _ Hnc) as (q & Hq & Hqn & He & Hne & _).
      destruct (sibling_position h Hwf curr q Hq) as [j Hj].
      rewrite (next_sibling_spec h Hwf f curr q j Hq He Hj) in Hnc.
      destruct (Nat.eqb j _); [done|]. injection Hnc as Hj'.
      replace (j + 1) with (S j) in Hj' by lia.
      rewrite <- (visible_children_expanded h q He) in Hj, Hj'.
      destruct (neighbours_segment h Hwf q j curr ns Hj Hj') as (A1 & B1 & Hq1).
      assert (shown h (root (file_tree s)) q) as Hshq.
      { apply (shown_up h Hwf _ sel); [done..|]. by econstructor. }
      destruct (shown_segment _ Hwf _ _ Hshq) as (A2 & B2 & Hq2).
      pose proof (last_pre h Hwf _ _ _ Hdc) as Hl. apply last_Some in Hl as [F HF].
      rewrite (next_in_list (rows s) (A2 ++ A1 ++ F)
                 (concat (preorder (length h) h true <$>
                            sorted_by_path h (visible_children h ns)) ++ B1 ++ B2)
                 sel ns i Hnd); [apply Hdisp| |done].
      unfold rows. fold h.
      rewrite Hq2, Hq1, HF, (pre_unfold h Hwf ns). by rewrite <- !app_assoc.
    + rewrite Hlast; [done| |done]. intros b Hb.
      apply on_path_inv in Hb as [->|(p & Hp' & _)]; [|congruence].
      apply next_sibling_hidden. intros; congruence.
  - rewrite (next_in_list (rows s) A
               (concat (preorder (length h) h true <$>
                          sorted_by_path h (visible_children h c))
                ++ concat (preorder (length h) h true <$> l) ++ B)
               sel c i Hnd); [apply Hdisp| |done].
    rewrite HL, (pre_unfold h Hwf sel), Hs. simpl.
    rewrite (pre_unfold h Hwf c). simpl. by rewrite <- !app_assoc.
Qed.

End MoveRows.

Lemma up_row (fuel : nat) (s : InteractivePackageTree) (i : nat) :
  session_inv s -> length (store s) < fuel ->
  rows s !! i = Some (selected_node s) ->
  up fuel s = Ok (moved_to (rows s) (if i is S j then Some j else None)
                    (move_cursor_up s) s).
Proof.
  intros Hinv Hfuel Hi. pose proof Hinv as (Hwf & Hroot & Hv).
  assert (NoDup (rows s)) as Hnd by (by apply NoDup_preorder).
  destruct i as [|j]; unfold moved_to; cbn [mbind option_bind].
  - destruct (down_then_up_inv fuel s Hinv Hfuel) as (_ & _ & _ & Hup).
    apply Hup. unfold rows in Hi. rewrite (pre_unfold _ Hwf) in Hi.
    injection Hi as <-. done.
  - destruct (rows s !! j) as [x|] eqn:Hj;
      [|apply lookup_ge_None in Hj; apply lookup_lt_Some in Hi; lia].
    assert (visible (store s) x) as Hvx.
    { apply (shown_visible _ Hwf (root (file_tree s))); [done|].
      eapply elem_of_pre, list_elem_of_lookup_2, Hj. done. }
    set (sx := select x (move_cursor_up s) s).
    assert (session_inv sx) as Hinvx by (by split_and!).
    pose proof (down_row fuel sx Hinvx Hfuel j Hj) as Hdown.
    unfold moved_to in Hdown. cbn [mbind option_bind] in Hdown.
    change (rows sx) with (rows s) in Hdown. rewrite Hi in Hdown.
    unfold sx in Hdown at 2 3. rewrite select_cursor_back in Hdown.
    destruct (down_then_up_inv fuel sx Hinvx Hfuel) as (s1 & Hs1 & Hcase & _).
    rewrite Hdown in Hs1. injection Hs1 as <-.
    destruct Hcase as [[_ Heq]|(_ & _ & Hup)]; [|done].
    exfalso. apply (f_equal selected_node) in Heq. simpl in Heq.
    rewrite Heq in Hi. pose proof (NoDup_lookup _ _ _ _ Hnd Hi Hj). lia.
Qed.

(** *** Writing a flag keeps the rows above *)

Section FlagRows.
Context (h h' : heap) (x : addr).
Context (Hwf : wf_heap h = true) (Hsh : same_shape h h').
Context (Hother : ∀ a, a ≠ x -> h' !!! a = h !!! a).

Lemma sorted_visible_same a :
  a ≠ x ->
  sorted_by_path h' (visible_children h' a) = sorted_by_path h (visible_children h a).
Proof using Hsh Hother.
  intros Ha. unfold sorted_by_path, visible_children. rewrite (Hother a Ha).
  apply sorted_ext. intros c. unfold path_of. destruct Hsh as [_ Hs].
  by destruct (Hs c) as (-> & _).
Qed.

(** The rows of a subtree that does not hold [x] are as before. *)
Lemma preorder_same n k :
  (∀ a, on_path h a k -> a ≠ x) ->
  preorder n h' true k = preorder n h true k.
Proof using Hwf Hsh Hother.
  revert k. induction n as [|n IH]; intros k Hk; [done|]. simpl.
  change (kids h' true k) with (visible_children h' k).
  change (kids h true k) with (visible_children h k).
  rewrite sorted_visible_same by (apply Hk; constructor).
  f_equal. f_equal. apply list_fmap_ext. intros i c Hc. apply IH.
  apply list_elem_of_lookup_2, elem_of_sorted, (shown_parent h Hwf) in Hc
    as (_ & _ & _ & Hp).
  intros a Ha. apply Hk. by econstructor.
Qed.

(** The rows before and after the subtree of [y], an ancestor of [x] or
    [x] itself, are as before. *)
Lemma flag_segment r y :
  shown h r y -> on_path h x y ->
  ∃ A B, preorder (length h) h true r = A ++ preorder (length h) h true y ++ B
         ∧ preorder (length h) h' true r = A ++ preorder (length h) h' true y ++ B.
Proof using Hwf Hsh Hother.
  assert (wf_heap h' = true) as Hwf' by (by rewrite (same_shape_wf h h')).
  assert (length h' = length h) as Hlen by apply Hsh.
  assert (∀ a, preorder (length h) h' true a
               = a :: concat (preorder (length h) h' true <$>
                                sorted_by_path h' (visible_children h' a))) as Hpre'.
  { intros a. rewrite <- Hlen. apply (pre_unfold h' Hwf'). }
  induction 1 as [|b c Hb IH Hc]; intros Hy.
  - exists [], []. by rewrite !app_nil_r.
  - pose proof (shown_parent h Hwf _ _ Hc) as (_ & Hlt & _ & Hp).
    destruct IH as (A & B & IH1 & IH2); [by econstructor|].
    assert (b ≠ x) as Hbx.
    { intros ->. apply (on_path_le h Hwf) in Hy. lia. }
    assert (c ∈ sorted_by_path h (visible_children h b)) as Hin
      by (by apply elem_of_sorted).
    pose proof (NoDup_sorted (path_of h) _
                  (NoDup_fmap_1 _ _ (wf_distinct_visible h Hwf b))) as Hnd.
    apply list_elem_of_split in Hin as (K1 & K2 & HK).
    fold (sorted_by_path h (visible_children h b)) in Hnd. rewrite HK in Hnd.
    assert (∀ k, k ∈ K1 ++ K2 ->
                 preorder (length h) h' true k = preorder (length h) h true k) as Hsame.
    { intros k Hk. apply preorder_same. intros a Ha ->.
      assert (k ∈ sorted_by_path h (visible_children h b)) as Hkb.
      { rewrite HK. apply elem_of_app in Hk as [|]; set_solver. }
      apply elem_of_sorted, (shown_parent h Hwf) in Hkb as (_ & Hltk & _ & Hpk).
      assert (k ≠ c) as Hne.
      { intros ->. apply NoDup_app in Hnd as (_ & Hd & Hc2).
        apply NoDup_cons in Hc2 as [Hc2 _].
        apply elem_of_app in Hk as [Hk|Hk]; [|done]. apply (Hd c Hk). constructor. }
      destruct (on_path_comparable h _ _ _ Ha Hy) as [H1|H1];
        apply on_path_inv in H1 as [?|(p & Hp' & H1)]; try done;
        simplify_eq; apply (on_path_le h Hwf) in H1; lia. }
    exists (A ++ b :: concat (preorder (length h) h true <$> K1)),
           (concat (preorder (length h) h true <$> K2) ++ B).
    split.
    + rewrite IH1, (pre_unfold h Hwf b), HK, fmap_app, fmap_cons, concat_app. simpl.
      by rewrite <- !app_assoc.
    + rewrite IH2, (Hpre' b).
      rewrite (sorted_visible_same b Hbx), HK, fmap_app, fmap_cons, concat_app. simpl.
      assert (preorder (length h) h' true <$> K1 = preorder (length h) h true <$> K1)
        as ->.
      { apply list_fmap_ext. intros i k Hk. apply Hsame.
        apply elem_of_app. left. by eapply list_elem_of_lookup_2. }
      assert (preorder (length h) h' true <$> K2 = preorder (length h) h true <$> K2)
        as ->.
      { apply list_fmap_ext. intros i k Hk. apply Hsame.
        apply elem_of_app. right. by eapply list_elem_of_lookup_2. }
      by rewrite <- !app_assoc.
Qed.

(** Writing the flags of a row keeps the row where it is. *)
Lemma flag_row r i :
  preorder (length h) h true r !! i = Some x ->
  preorder (length h') h' true r !! i = Some x.
Proof using Hwf Hsh Hother.
  assert (wf_heap h' = true) as Hwf' by (by rewrite (same_shape_wf h h')).
  assert (length h' = length h) as Hlen by apply Hsh.
  intros Hi.
  assert (shown h r x) as Hx by (eapply elem_of_pre, list_elem_of_lookup_2, Hi; done).
  destruct (flag_segment r x Hx (on_path_self h x)) as (A & B & H1 & H2).
  assert (i = length A) as ->.
  { eapply NoDup_lookup; [apply (NoDup_preorder h Hwf true)|exact Hi|].
    rewrite H1, (pre_unfold h Hwf x). simpl. by apply list_lookup_middle. }
  rewrite Hlen, H2. rewrite <- Hlen. rewrite (pre_unfold h' Hwf' x). simpl.
  by apply list_lookup_middle.
Qed.

End FlagRows.

(** *** The selected row and the cursor *)

Section RowHandlers.
Context (fuel : nat) (s : InteractivePackageTree).
Context (Hinv : row_inv s) (Hfuel : length (store s) < fuel).

Lemma flag_row_inv (f : FileNode -> FileNode) :
  (∀ n, full_path (f n) = full_path n ∧ parent (f n) = parent n
        ∧ children (f n) = children n) ->
  let s' := with_store (<[selected_node s := f (store s !!! selected_node s)]> (store s)) s in
  _update_display fuel s' = Ok s' ∧ row_inv s' ∧ length (store s') = length (store s).
Proof using Hinv Hfuel.
  intros Hf s'. destruct Hinv as (Hsess & i & Hi & Hc).
  destruct (flag_inv fuel s Hsess Hfuel f Hf) as (Hd & Hsess' & Hlen).
  split_and!; [done| |done]. split; [done|]. exists i. split; [|done].
  destruct Hsess as (Hwf & _).
  apply (flag_row (store s) _ (selected_node s) Hwf); [by apply update_shape| |done].
  intros a Ha. by apply update_lookup.
Qed.

Lemma up_row_inv : ∃ s', up fuel s = Ok s' ∧ row_inv s' ∧ store s' = store s.
Proof using Hinv Hfuel.
  destruct Hinv as (Hsess & i & Hi & Hc).
  destruct (up_inv fuel s Hsess Hfuel) as (s' & Hup & Hsess' & Hst).
  exists s'. split_and!; [done| |done]. split; [done|].
  rewrite (up_row fuel s i Hsess Hfuel Hi) in Hup. injection Hup as <-.
  unfold moved_to. destruct i as [|j]; cbn [mbind option_bind]; [by exists 0|].
  destruct (rows s !! j) as [x|] eqn:Hj;
    [|apply lookup_ge_None in Hj; apply lookup_lt_Some in Hi; lia].
  exists j. split; [done|]. simpl. unfold move_cursor_up. rewrite Hc. simpl.
  f_equal. lia.
Qed.

Lemma down_row_inv : ∃ s', down fuel s = Ok s' ∧ row_inv s' ∧ store s' = store s.
Proof using Hinv Hfuel.
  destruct Hinv as (Hsess & i & Hi & Hc).
  destruct (down_inv fuel s Hsess Hfuel) as (s' & Hdown & Hsess' & Hst).
  exists s'. split_and!; [done| |done]. split; [done|].
  rewrite (down_row fuel s Hsess Hfuel i Hi) in Hdown. injection Hdown as <-.
  unfold moved_to. cbn [mbind option_bind].
  destruct (rows s !! S i) as [x|] eqn:Hj; [|by exists i].
  exists (S i). split; [done|]. simpl. unfold move_cursor_down. rewrite Hc. simpl.
  f_equal. lia.
Qed.

Lemma handle_row_inv k :
  ∃ s' exited, handle fuel k s = Ok (s', exited) ∧ row_inv s'
                ∧ length (store s') = length (store s).
Proof using Hinv Hfuel.
  destruct k; simpl.
  - destruct up_row_inv as (s' & -> & ? & Hst). exists s', false. by rewrite Hst.
  - destruct down_row_inv as (s' & -> & ? & Hst). exists s', false. by rewrite Hst.
  - destruct (flag_row_inv (set_expanded true)) as (Hd & ? & ?); [done|].
    unfold right. rewrite Hd. by eexists _, false.
  - destruct (flag_row_inv (set_expanded false)) as (Hd & ? & ?); [done|].
    unfold left. rewrite Hd. by eexists _, false.
  - destruct (flag_row_inv (fun n => set_is_package (negb (is_package n)) n))
      as (Hd & ? & ?); [done|].
    unfold enter. rewrite Hd. by eexists _, false.
  - eexists _, true. split; [done|]. by split.
  - eexists _, true. split; [done|]. by split.
Qed.

End RowHandlers.

Lemma navigate_row_inv (fuel : nat) (keys : list key) (s : InteractivePackageTree) :
  row_inv s -> length (store s) < fuel ->
  ∃ s', navigate fuel keys s = Ok s' ∧ row_inv s'
        ∧ length (store s') = length (store s).
Proof.
  revert s. induction keys as [|k keys IH]; intros s Hinv Hfuel; simpl; [by exists s|].
  destruct (handle_row_inv fuel s Hinv Hfuel k) as (s' & exited & -> & Hinv' & Hlen).
  cbn [mbind outcome_bind]. destruct exited; [by exists s'|].
  destruct (IH s' Hinv') as (s'' & ? & ? & ?); [lia|].
  exists s''. split_and!; [done..|lia].
Qed.

Lemma init_row_inv (E : environment) (fuel : nat) (path : string) (depth : Z)
    (s : InteractivePackageTree) :
  sane E -> init E fuel path depth = Ok s -> row_inv s.
Proof.
  intros Hsane Hinit.
  destruct (init_inv E fuel path depth s Hsane Hinit) as (Hinv & Hsel & _).
  split; [done|]. exists 0. destruct Hinv as (Hwf & _).
  split; [unfold rows; by rewrite (pre_unfold _ Hwf), Hsel|].
  unfold init in Hinit.
  destruct (FileTree_build_from_path E fuel path depth) as [[h t]|]; [|done].
  by apply update_display_inv in Hinit as ->.
Qed.

Lemma reached_row_inv (E : environment) (fuel0 : nat) (path : string) (depth : Z)
    (s0 : InteractivePackageTree) (fuel : nat) (keys : list key)
    (s : InteractivePackageTree) :
  sane E ->
  init E fuel0 path depth = Ok s0 ->
  length (store s0) < fuel ->
  navigate fuel keys s0 = Ok s ->
  row_inv s ∧ length (store s) = length (store s0).
Proof.
  intros Hsane Hinit Hfuel Hnav.
  pose proof (init_row_inv E fuel0 path depth s0 Hsane Hinit) as Hinv.
  destruct (navigate_row_inv fuel keys s0 Hinv Hfuel) as (s' & Hs' & Hinv' & Hlen).
  by assert (s' = s) as -> by congruence.
Qed.

(** *** Down, then up *)

Lemma StronglySorted_lookup {A} (R : A -> A -> Prop) (l : list A) (i j : nat) (x y : A) :
  StronglySorted R l -> l !! i = Some x -> l !! j = Some y -> i < j -> R x y.
Proof.
  intros Hs. revert i j. induction Hs as [|z l Hl IH Hz]; intros i j Hi Hj Hlt; [done|].
  destruct j as [|j]; [lia|]. destruct i as [|i]; simplify_eq/=.
  - rewrite Forall_forall in Hz. by eapply Hz, list_elem_of_lookup_2.
  - apply (IH i j); [done..|lia].
Qed.

Section Bottom.
Context (h : heap) (Hwf : wf_heap h = true).

Lemma shows_no_children a :
  visible_children h a = [] ↔ expanded (h !!! a) = false ∨ children (h !!! a) = [].
Proof.
  unfold visible_children. destruct (expanded (h !!! a)); simpl.
  - split; [by right|]. by intros [|].
  - split; [by left|done].
Qed.

(** [next_sibling] finds nothing exactly when no sibling is shown after
    the node. *)
Lemma next_sibling_None_iff fuel a :
  next_sibling (S fuel) h a = Ok None ↔ ∀ c, ¬ later_sibling h a c.
Proof using Hwf.
  destruct (parent (h !!! a)) as [p|] eqn:Hp.
  - destruct (expanded (h !!! p)) eqn:He.
    + destruct (sibling_position h Hwf a p Hp) as [i Hi].
      rewrite (next_sibling_spec h Hwf fuel a p i Hp He Hi).
      set (K := sorted_by_path h (children (h !!! p))) in *.
      assert (StronglySorted
                (fun x y => String.ltb (path_of h x) (path_of h y) = true) K) as Hs
        by (apply sorted_strict, wf_distinct, Hwf).
      pose proof (lookup_lt_Some _ _ _ Hi) as Hlt.
      destruct (Nat.eqb_spec i (length K - 1)) as [Hlast|Hmore].
      * split; [|done]. intros _ c (q & Hq & _ & Hc & Hab).
        assert (q = p) as -> by congruence.
        apply (elem_of_sorted (path_of h)), list_elem_of_lookup in Hc as [j Hj].
        fold (sorted_by_path h (children (h !!! p))) in Hj. fold K in Hj.
        pose proof (lookup_lt_Some _ _ _ Hj) as Hltj.
        destruct (decide (j = i)) as [->|Hne].
        -- assert (c = a) as -> by congruence.
           pose proof (ltb_asym _ _ Hab). congruence.
        -- pose proof (StronglySorted_lookup _ K j i c a Hs Hj Hi ltac:(lia)) as Hca.
           simpl in Hca. pose proof (ltb_asym _ _ Hab). congruence.
      * destruct (K !! (i + 1)) as [c|] eqn:Hc;
          [|apply lookup_ge_None in Hc; lia].
        split; [done|]. intros Hnone. exfalso. apply (Hnone c).
        exists p. split_and!; [done..| |].
        -- eapply (elem_of_sorted (path_of h)), list_elem_of_lookup_2, Hc.
        -- apply (StronglySorted_lookup _ K i (i + 1) a c Hs Hi Hc). lia.
    + rewrite next_sibling_hidden by (intros; congruence).
      split; [|done]. intros _ c (q & Hq & Heq & _). congruence.
  - rewrite next_sibling_hidden by (intros; congruence).
    split; [|done]. intros _ c (q & Hq & _). congruence.
Qed.

(** The boundary case as the loop of [down] meets it is the boundary
    case of the tree. *)
Lemma no_next_anywhere_at_bottom fuel a :
  no_next_anywhere (S fuel) h a ↔ at_bottom h a.
Proof using Hwf.
  unfold no_next_anywhere, at_bottom. rewrite shows_no_children.
  split; intros [Hc Hall]; (split; [done|]).
  - intros b c Hb. by apply (next_sibling_None_iff fuel b), Hall.
  - intros b Hb. apply next_sibling_None_iff. intros c. by apply Hall.
Qed.

End Bottom.

(** C3: in every state that a session reaches, move-down either is at
    its boundary case and leaves the session as it is, or it selects
    another node, from which move-up leads back to the session before
    the two moves.  The boundary case is a property of the tree: the
    selected node shows no children and neither it nor any of its
    ancestors has a sibling that is shown after it; it holds exactly
    when the selected node is the last row of the display.  And move-up
    on the root, the one node without parent, leaves the session as it
    is. *)
Theorem down_then_up (E : environment) (fuel0 : nat) (path : string) (depth : Z)
    (s0 : InteractivePackageTree) (fuel : nat) (keys : list key)
    (s : InteractivePackageTree) :
  sane E ->
  init E fuel0 path depth = Ok s0 ->
  length (store s0) < fuel ->
  navigate fuel keys s0 = Ok s ->
  (∃ s1, down fuel s = Ok s1
     ∧ ((at_bottom (store s) (selected_node s) ∧ s1 = s)
        ∨ (¬ at_bottom (store s) (selected_node s)
           ∧ selected_node s1 ≠ selected_node s
           ∧ up fuel s1 = Ok s)))
  ∧ (∃ L, FileTree_visible fuel (store s) (file_tree s) = Some L
          ∧ (at_bottom (store s) (selected_node s) ↔ last L = Some (selected_node s)))
  ∧ (parent (store s !!! selected_node s) = None
     ↔ selected_node s = root (file_tree s))
  ∧ (selected_node s = root (file_tree s) -> up fuel s = Ok s).
Proof.
  intros Hsane Hinit Hfuel Hnav.
  destruct (reached_row_inv E fuel0 path depth s0 fuel keys s) as [Hinv Hlen]; [done..|].
  destruct Hinv as (Hsess & i & Hi & _). pose proof Hsess as (Hwf & Hroot & Hv).
  assert (length (store s) < fuel) as Hfuel' by lia.
  destruct (down_then_up_inv fuel s Hsess Hfuel') as (s1 & Hdown & Hcase & Hup).
  pose proof (down_row fuel s Hsess Hfuel' i Hi) as Hrow.
  assert (NoDup (rows s)) as Hnd by (by apply NoDup_preorder).
  assert (∀ a, no_next_anywhere fuel (store s) a ↔ at_bottom (store s) a) as Hiff.
  { intros a. destruct fuel as [|f]; [lia|]. by apply no_next_anywhere_at_bottom. }
  assert (parent (store s !!! selected_node s) = None
          ↔ selected_node s = root (file_tree s)) as Hrootiff.
  { split; [|by intros ->]. intros Hp.
    assert (shown (store s) (root (file_tree s)) (selected_node s)) as Hsh
      by (eapply elem_of_pre, list_elem_of_lookup_2, Hi; done).
    destruct Hsh as [|b c _ Hc]; [done|].
    apply (shown_parent _ Hwf) in Hc as (_ & _ & _ & Hpc). congruence. }
  split_and!.
  - exists s1. split; [done|]. rewrite <- Hiff. exact Hcase.
  - exists (rows s). split; [by apply rows_visible|]. rewrite <- Hiff.
    rewrite Hrow in Hdown. injection Hdown as Hs1.
    unfold moved_to in Hs1. cbn [mbind option_bind] in Hs1. split.
    + intros Hno. destruct Hcase as [[_ ->]|(Hnot & _)]; [|done].
      destruct (rows s !! S i) as [b|] eqn:Hb.
      * apply (f_equal selected_node) in Hs1. simpl in Hs1. subst b.
        pose proof (NoDup_lookup _ _ _ _ Hnd Hi Hb). lia.
      * rewrite last_lookup. rewrite <- Hi. f_equal.
        apply lookup_ge_None in Hb. apply lookup_lt_Some in Hi. lia.
    + intros Hl. rewrite (last_in_list _ _ _ Hnd Hl Hi) in Hs1. subst s1.
      by destruct Hcase as [[? _]|(_ & ? & _)].
  - done.
  - intros Heq. apply Hup. by apply Hrootiff.
Qed.

Lemma down_then_up_witness :
  ∃ s0 s, init project 6 "/r" 2 = Ok s0
    ∧ navigate 6 [Down; Down; Down] s0 = Ok s
    ∧ (∃ s1, down 6 s = Ok s1
         ∧ ((at_bottom (store s) (selected_node s) ∧ s1 = s)
            ∨ (¬ at_bottom (store s) (selected_node s)
               ∧ selected_node s1 ≠ selected_node s
               ∧ up 6 s1 = Ok s)))
    ∧ (∃ L, FileTree_visible 6 (store s) (file_tree s) = Some L
            ∧ (at_bottom (store s) (selected_node s) ↔ last L = Some (selected_node s)))
    ∧ (parent (store s !!! selected_node s) = None
       ↔ selected_node s = root (file_tree s))
    ∧ (selected_node s = root (file_tree s) -> up 6 s = Ok s).
Proof.
  eexists _, _. split; [vm_compute; reflexivity|]. split; [vm_compute; reflexivity|].
  eapply (down_then_up project 6 "/r" 2 _ 6 [Down; Down; Down]);
    [apply project_sane|vm_compute; reflexivity|vm_compute; lia|vm_compute; reflexivity].
Defined.

(** X13: the [up] and [down] handlers move the selection by one row of
    the display: in every state that a session reaches, the selected
    node is one of the rows that [visible] yields, [down] selects the
    node of the next row and [up] the node of the row before, each
    moving the cursor by one line, and on the last and on the first row
    they leave the session as it is. *)
Theorem moves_follow_rows (E : environment) (fuel0 : nat) (path : string) (depth : Z)
    (s0 : InteractivePackageTree) (fuel : nat) (keys : list key)
    (s : InteractivePackageTree) :
  sane E ->
  init E fuel0 path depth = Ok s0 ->
  length (store s0) < fuel ->
  navigate fuel keys s0 = Ok s ->
  ∃ L i, FileTree_visible fuel (store s) (file_tree s) = Some L
    ∧ NoDup L
    ∧ L !! i = Some (selected_node s)
    ∧ down fuel s = Ok (moved_to L (Some (S i)) (move_cursor_down s) s)
    ∧ up fuel s = Ok (moved_to L (if i is S j then Some j else None)
                        (move_cursor_up s) s).
Proof.
  intros Hsane Hinit Hfuel Hnav.
  destruct (reached_row_inv E fuel0 path depth s0 fuel keys s) as [Hinv Hlen]; [done..|].
  destruct Hinv as (Hsess & i & Hi & _).
  exists (rows s), i. split_and!.
  - apply rows_visible; [done|lia].
  - destruct Hsess as (Hwf & _). by apply NoDup_preorder.
  - done.
  - apply down_row; [done|lia|done].
  - apply up_row; [done|lia|done].
Qed.

Lemma moves_follow_rows_witness :
  ∃ s0 s, init project 6 "/r" 2 = Ok s0
    ∧ navigate 6 [Down; Down; Left; Up] s0 = Ok s
    ∧ ∃ L i, FileTree_visible 6 (store s) (file_tree s) = Some L
        ∧ NoDup L
        ∧ L !! i = Some (selected_node s)
        ∧ down 6 s = Ok (moved_to L (Some (S i)) (move_cursor_down s) s)
        ∧ up 6 s = Ok (moved_to L (if i is S j then Some j else None)
                         (move_cursor_up s) s).
Proof.
  eexists _, _. split; [vm_compute; reflexivity|]. split; [vm_compute; reflexivity|].
  eapply (moves_follow_rows project 6 "/r" 2 _ 6 [Down; Down; Left; Up]);
    [apply project_sane|vm_compute; reflexivity|vm_compute; lia|vm_compute; reflexivity].
Defined.

(** X14: the hidden cursor follows the selection: in every state that a
    session reaches, the selected node is one of the rows that [visible]
    yields and the line of the cursor is the line on which that row is
    drawn, line 1 for the first row, below the header. *)
Theorem cursor_on_selected_row (E : environment) (fuel0 : nat) (path : string)
    (depth : Z) (s0 : InteractivePackageTree) (fuel : nat) (keys : list key)
    (s : InteractivePackageTree) :
  sane E ->
  init E fuel0 path depth = Ok s0 ->
  length (store s0) < fuel ->
  navigate fuel keys s0 = Ok s ->
  ∃ L i, FileTree_visible fuel (store s) (file_tree s) = Some L
    ∧ L !! i = Some (selected_node s)
    ∧ cursor_point s = (0, Z.of_nat i + 1)%Z.
Proof.
  intros Hsane Hinit Hfuel Hnav.
  destruct (reached_row_inv E fuel0 path depth s0 fuel keys s) as [Hinv Hlen]; [done..|].
  destruct Hinv as (Hsess & i & Hi & Hc).
  exists (rows s), i. split_and!; [|done..]. apply rows_visible; [done|lia].
Qed.

Lemma cursor_on_selected_row_witness :
  ∃ s0 s, init project 6 "/r" 2 = Ok s0
    ∧ navigate 6 [Down; Down; Down; Left; Up; Left; Down] s0 = Ok s
    ∧ ∃ L i, FileTree_visible 6 (store s) (file_tree s) = Some L
        ∧ L !! i = Some (selected_node s)
        ∧ cursor_point s = (0, Z.of_nat i + 1)%Z.
Proof.
  eexists _, _. split; [vm_compute; reflexivity|]. split; [vm_compute; reflexivity|].
  eapply (cursor_on_selected_row project 6 "/r" 2 _ 6
            [Down; Down; Down; Left; Up; Left; Down]);
    [apply project_sane|vm_compute; reflexivity|vm_compute; lia|vm_compute; reflexivity].
Defined.

(** *** The rows are the visible nodes *)

Lemma on_path_same_shape (h h' : heap) (a b : addr) :
  same_shape h h' -> on_path h a b -> on_path h' a b.
Proof.
  intros [_ Hsh]. induction 1 as [|b p _ IH Hp]; [constructor|].
  econstructor; [exact IH|]. by destruct (Hsh b) as (_ & -> & _).
Qed.

Lemma connected_same_shape (h h' : heap) (r : addr) :
  same_shape h h' -> connected h r -> connected h' r.
Proof.
  intros Hsh Hc a Ha. apply (on_path_same_shape h h' a r Hsh), Hc.
  destruct Hsh as [<- _]. done.
Qed.

Lemma init_connected (E : environment) (fuel : nat) (path : string) (depth : Z)
    (s : InteractivePackageTree) :
  init E fuel path depth = Ok s ->
  connected (store s) (root (file_tree s)) ∧ root (file_tree s) < length (store s).
Proof.
  unfold init.
  destruct (FileTree_build_from_path E fuel path depth) as [[h t]|] eqn:Hb; [|done].
  intros ->%update_display_inv. simpl.
  destruct (build_from_path_root _ _ _ _ _ _ Hb) as (-> & Hlen & _).
  split; [by eapply build_from_path_connected|done].
Qed.

Lemma reached_connected (E : environment) (fuel0 : nat) (path : string) (depth : Z)
    (s0 : InteractivePackageTree) (fuel : nat) (keys : list key)
    (s : InteractivePackageTree) :
  init E fuel0 path depth = Ok s0 ->
  navigate fuel keys s0 = Ok s ->
  connected (store s) (root (file_tree s)) ∧ root (file_tree s) < length (store s).
Proof.
  intros Hinit Hnav. apply init_connected in Hinit as [Hc Hr].
  apply navigate_shape in Hnav as [-> Hsh].
  split; [by eapply connected_same_shape|]. destruct Hsh as [-> _]. done.
Qed.

(** X7: the rows of the display are the visible nodes: in every state
    that a session reaches, [visible] returns, and yields once each node
    of the store all of whose ancestors are expanded, and no other
    node. *)
Theorem rows_are_visible_nodes (E : environment) (fuel0 : nat) (path : string)
    (depth : Z) (s0 : InteractivePackageTree) (fuel : nat) (keys : list key)
    (s : InteractivePackageTree) :
  sane E ->
  init E fuel0 path depth = Ok s0 ->
  length (store s0) < fuel ->
  navigate fuel keys s0 = Ok s ->
  ∃ L, FileTree_visible fuel (store s) (file_tree s) = Some L
    ∧ NoDup L
    ∧ ∀ a, a ∈ L ↔ a < length (store s) ∧ visible (store s) a.
Proof.
  intros Hsane Hinit Hfuel Hnav.
  destruct (reached_row_inv E fuel0 path depth s0 fuel keys s) as [Hinv Hlen]; [done..|].
  destruct (reached_connected E fuel0 path depth s0 fuel keys s) as [Hc Hr]; [done..|].
  destruct Hinv as ((Hwf & Hroot & Hv) & _).
  exists (rows s). split_and!.
  - apply rows_visible; [done|lia].
  - by apply NoDup_preorder.
  - intros a. unfold rows. rewrite (elem_of_pre _ Hwf). split.
    + intros Ha. split; [by eapply shown_bound|by eapply shown_visible].
    + intros [Ha Hva]. destruct (on_path_hops _ _ _ (Hc a Ha)) as [k Hk].
      by eapply visible_shown.
Qed.

Lemma rows_are_visible_nodes_witness :
  ∃ s0 s, init project 6 "/r" 2 = Ok s0
    ∧ navigate 6 [Down; Down; Left; Down] s0 = Ok s
    ∧ ∃ L, FileTree_visible 6 (store s) (file_tree s) = Some L
        ∧ NoDup L
        ∧ ∀ a, a ∈ L ↔ a < length (store s) ∧ visible (store s) a.
Proof.
  eexists _, _. split; [vm_compute; reflexivity|]. split; [vm_compute; reflexivity|].
  eapply (rows_are_visible_nodes project 6 "/r" 2 _ 6 [Down; Down; Left; Down]);
    [apply project_sane|vm_compute; reflexivity|vm_compute; lia|vm_compute; reflexivity].
Defined.

(** *** The arrow *)

(** X15: the arrow is drawn on one row, the row of the selected node:
    in every state that a session reaches, the selected node is one of
    the rows of the display, [_render_node] returns for every row, and
    what it returns holds the arrow exactly for the selected node. *)
Theorem arrow_on_selected_row (E : environment) (fuel0 : nat) (path : string)
    (depth : Z) (s0 : InteractivePackageTree) (fuel : nat) (keys : list key)
    (s : InteractivePackageTree) :
  sane E ->
  init E fuel0 path depth = Ok s0 ->
  length (store s0) < fuel ->
  navigate fuel keys s0 = Ok s ->
  ∃ L, FileTree_visible fuel (store s) (file_tree s) = Some L
    ∧ NoDup L
    ∧ selected_node s ∈ L
    ∧ ∀ a, a ∈ L ->
        ∃ parts, _render_node fuel s a = Some parts
                 ∧ (("-> ", Some "bold cyan") ∈ parts ↔ a = selected_node s).
Proof.
  intros Hsane Hinit Hfuel Hnav.
  destruct (reached_row_inv E fuel0 path depth s0 fuel keys s) as [Hinv Hlen]; [done..|].
  destruct (reached_connected E fuel0 path depth s0 fuel keys s) as [Hc Hr]; [done..|].
  destruct Hinv as ((Hwf & Hroot & Hv) & i & Hi & _).
  assert (∀ a, a ∈ rows s -> a < length (store s)) as Hbound.
  { intros a Ha. apply (elem_of_pre _ Hwf) in Ha. by eapply shown_bound. }
  exists (rows s). split_and!.
  - apply rows_visible; [done|lia].
  - by apply NoDup_preorder.
  - by eapply list_elem_of_lookup_2.
  - intros a Ha. unfold _render_node.
    rewrite (node_eq_identity_wf (store s) (root (file_tree s)) fuel a (selected_node s));
      [|done|done|done|by apply Hbound
       |apply Hbound; by eapply list_elem_of_lookup_2|apply Hbound in Ha; lia].
    cbn [mbind option_bind]. eexists. split; [done|].
    rewrite !elem_of_app.
    destruct (decide (a = selected_node s)) as [->|Hne].
    + rewrite bool_decide_true by done. split; [done|]. intros _. left. constructor.
    + rewrite bool_decide_false by done. split; [|done].
      intros [Hin|[Hin|Hin]]; [by apply elem_of_nil in Hin| |].
      * destruct (is_package _); by apply list_elem_of_singleton in Hin.
      * destruct (negb _ && _); [by apply list_elem_of_singleton in Hin|].
        destruct (negb _); [by apply list_elem_of_singleton in Hin|].
        by apply elem_of_nil in Hin.
Qed.

Lemma arrow_on_selected_row_witness :
  ∃ s0 s, init project 6 "/r" 2 = Ok s0
    ∧ navigate 6 [Down; Down; Enter] s0 = Ok s
    ∧ ∃ L, FileTree_visible 6 (store s) (file_tree s) = Some L
        ∧ NoDup L
        ∧ selected_node s ∈ L
        ∧ ∀ a, a ∈ L ->
            ∃ parts, _render_node 6 s a = Some parts
                     ∧ (("-> ", Some "bold cyan") ∈ parts ↔ a = selected_node s).
Proof.
  eexists _, _. split; [vm_compute; reflexivity|]. split; [vm_compute; reflexivity|].
  eapply (arrow_on_selected_row project 6 "/r" 2 _ 6 [Down; Down; Enter]);
    [apply project_sane|vm_compute; reflexivity|vm_compute; lia|vm_compute; reflexivity].
Defined.

(** *** Collapsing a node *)

Lemma visible_children_collapsed (h : heap) (a : addr) :
  visible_children (<[a := set_expanded false (h !!! a)]> h) a = [].
Proof.
  unfold visible_children. destruct (decide (a < length h)) as [Hlt|Hge].
  - by rewrite list_lookup_total_insert_eq.
  - rewrite list_insert_ge, lookup_total_ge by lia. done.
Qed.

(** X12: [left] hides the rows below the selected node and nothing
    else: in every state that a session reaches, the rows of the display
    are the rows above the selected node, the selected node, the nodes
    that are shown below it, and the rows after them; after [left] the
    rows are the same without the nodes shown below the selected node. *)
Theorem collapse_hides_subtree (E : environment) (fuel0 : nat) (path : string)
    (depth : Z) (s0 : InteractivePackageTree) (fuel : nat) (keys : list key)
    (s : InteractivePackageTree) :
  sane E ->
  init E fuel0 path depth = Ok s0 ->
  length (store s0) < fuel ->
  navigate fuel keys s0 = Ok s ->
  ∃ s' A D B,
    left fuel s = Ok s'
    ∧ FileTree_visible fuel (store s) (file_tree s)
      = Some (A ++ selected_node s :: D ++ B)
    ∧ FileTree_visible fuel (store s') (file_tree s')
      = Some (A ++ selected_node s :: B)
    ∧ ∀ d, d ∈ D ↔ d ≠ selected_node s ∧ shown (store s) (selected_node s) d.
Proof.
  intros Hsane Hinit Hfuel Hnav.
  destruct (reached_row_inv E fuel0 path depth s0 fuel keys s) as [Hinv Hlen]; [done..|].
  pose proof Hinv as ((Hwf & Hroot & Hv) & i & Hi & _).
  assert (length (store s) < fuel) as Hfuel' by lia.
  destruct (flag_row_inv fuel s Hinv Hfuel' (set_expanded false)) as (Hd & (Hsess' & _) & _);
    [done|].
  set (h := store s) in *. set (sel := selected_node s) in *.
  set (h' := <[sel := set_expanded false (h !!! sel)]> h) in *.
  assert (same_shape h h') as Hsh by (by apply update_shape).
  assert (shown h (root (file_tree s)) sel) as Hx
    by (eapply elem_of_pre, list_elem_of_lookup_2, Hi; done).
  destruct (flag_segment h h' sel Hwf Hsh
              ltac:(intros a Ha; by apply update_lookup)
              (root (file_tree s)) sel Hx (on_path_self h sel)) as (A & B & H1 & H2).
  assert (wf_heap h' = true) as Hwf' by apply Hsess'.
  assert (length h' = length h) as Hl by apply Hsh.
  rewrite <- Hl in H2. rewrite (pre_unfold h' Hwf' sel) in H2.
  assert (visible_children h' sel = []) as Hvc by apply visible_children_collapsed.
  rewrite Hvc in H2. simpl in H2.
  rewrite (pre_unfold h Hwf sel) in H1.
  exists (with_store h' s), A,
    (concat (preorder (length h) h true <$> sorted_by_path h (visible_children h sel))), B.
  split_and!.
  - exact Hd.
  - etrans; [apply (rows_visible fuel s); [apply Hinv|done]|].
    f_equal. exact H1.
  - etrans; [apply (rows_visible fuel (with_store h' s)); [done|simpl; lia]|].
    f_equal. exact H2.
  - intros d. rewrite <- (elem_of_pre h Hwf), (pre_unfold h Hwf sel).
    pose proof (NoDup_preorder h Hwf true (length h) sel) as Hnd.
    rewrite (pre_unfold h Hwf sel) in Hnd. apply NoDup_cons in Hnd as [Hnotin _].
    rewrite elem_of_cons. split.
    + intros Hin. split; [by intros ->|by right].
    + by intros [Hne [->|Hin]].
Qed.

Lemma collapse_hides_subtree_witness :
  ∃ s0 s, init project 6 "/r" 2 = Ok s0
    ∧ navigate 6 [Down] s0 = Ok s
    ∧ ∃ s' A D B,
        left 6 s = Ok s'
        ∧ FileTree_visible 6 (store s) (file_tree s)
          = Some (A ++ selected_node s :: D ++ B)
        ∧ FileTree_visible 6 (store s') (file_tree s')
          = Some (A ++ selected_node s :: B)
        ∧ ∀ d, d ∈ D ↔ d ≠ selected_node s ∧ shown (store s) (selected_node s) d.
Proof.
  eexists _, _. split; [vm_compute; reflexivity|]. split; [vm_compute; reflexivity|].
  eapply (collapse_hides_subtree project 6 "/r" 2 _ 6 [Down]);
    [apply project_sane|vm_compute; reflexivity|vm_compute; lia|vm_compute; reflexivity].
Defined.

(** ** Saving at once *)

(** X16: saved at once, the session returns the directories that hold a
    package file already: [get_selected_packages_interactive] returns a
    package for a path exactly when the path is a directory reached from
    the root whose package file exists; and left with [c-c], it returns
    nothing. *)
Theorem save_at_once (E : environment) (fuel : nat) (path : string) (depth : Z)
    (s0 : InteractivePackageTree) (keys : list key) :
  sane E ->
  init E fuel path depth = Ok s0 ->
  length (store s0) < fuel ->
  (∃ l, get_selected_packages_interactive E fuel path depth (CtrlS :: keys) = Ok (Some l)
        ∧ ∀ p, p ∈ l ↔ ∃ q, explored E (canonical E path) q
                            ∧ isfile E (marker_file E q) = true
                            ∧ p = mkSelectedPackage q)
  ∧ get_selected_packages_interactive E fuel path depth (CtrlC :: keys) = Ok None.
Proof.
  intros Hsane Hinit Hfuel.
  destruct (init_inv E fuel path depth s0 Hsane Hinit) as ((Hwf & _) & _).
  destruct (init_connected E fuel path depth s0 Hinit) as [Hc Hr].
  unfold get_selected_packages_interactive. rewrite Hinit. cbn [mbind outcome_bind].
  split; [|done].
  unfold run. simpl. unfold FileTree_iter.
  rewrite file_tree_iterator_preorder by done.
  eexists. split; [done|].
  unfold init in Hinit.
  destruct (FileTree_build_from_path E fuel path depth) as [[h t]|] eqn:Hb; [|done].
  apply update_display_inv in Hinit as ->. simpl in *.
  intros p. unfold collect. rewrite list_elem_of_fmap. split.
  - intros (a & -> & Ha). apply list_elem_of_filter in Ha as [Hpk Ha].
    apply elem_of_preorder, descendant_all in Ha; [|done..].
    exists (full_path (h !!! a)). split_and!; [|
      by destruct (build_from_path_seeded E fuel path depth h t Hb a Ha) as [<- _]|done].
    by apply (build_from_path_explored E fuel path depth h t Hb a).
  - intros (q & Hq & Hf & ->).
    apply (explored_built E fuel path depth h t Hb) in Hq as (a & Ha & <-).
    exists a. split; [done|]. apply list_elem_of_filter. split.
    + by destruct (build_from_path_seeded E fuel path depth h t Hb a Ha) as [-> _].
    + apply elem_of_preorder, descendant_all; done.
Qed.

Lemma save_at_once_witness :
  ∃ s0, init project 6 "/r" 2 = Ok s0
    ∧ (∃ l, get_selected_packages_interactive project 6 "/r" 2 [CtrlS] = Ok (Some l)
            ∧ ∀ p, p ∈ l ↔ ∃ q, explored project (canonical project "/r") q
                                ∧ isfile project (marker_file project q) = true
                                ∧ p = mkSelectedPackage q)
    ∧ get_selected_packages_interactive project 6 "/r" 2 [CtrlC] = Ok None.
Proof.
  eexists. split; [vm_compute; reflexivity|].
  eapply (save_at_once project 6 "/r" 2 _ []);
    [apply project_sane|vm_compute; reflexivity|vm_compute; lia].
Defined.

(** ** Changed files, in general *)

Module git_ops_more.
Import git_ops git_ops_spec.

Section More.
Context {repository path : Type} (G : git repository path).

Lemma truthy_false (s : string) : truthy s = false ↔ s = EmptyString.
Proof. unfold truthy. destruct (String.eqb_spec s ""); split; (done || congruence). Qed.

(** X17: [get_changed_files] lets an exception through in one case
    only: no head was given, the repository opens, the diff succeeds and
    listing the untracked files fails.  With a head it always returns. *)
Theorem get_changed_files_raises_iff (root head base : string) (e : command_exn) :
  get_changed_files G root head base = Raises e ↔
  head = EmptyString
  ∧ ∃ repo out, Repo G root = inr repo
                ∧ diff G repo ["--name-only"; base] = inr out
                ∧ ls_files G repo ["--others"; "--exclude-standard"] = inl e.
Proof.
  unfold get_changed_files. split.
  - destruct (Repo G root) as [|repo] eqn:Hr; [done|].
    destruct (truthy head) eqn:Hh; simpl.
    + by destruct (diff G repo ["--name-only"; head; base]).
    + apply truthy_false in Hh as ->.
      destruct (diff G repo ["--name-only"; base]) as [|out] eqn:Hd; [done|].
      destruct (ls_files G repo ["--others"; "--exclude-standard"]) as [e'|] eqn:Hl;
        [|done].
      intros _. destruct e, e'. split; [done|]. by exists repo, out.
  - intros (-> & repo & out & -> & Hd & Hl). simpl. by rewrite Hd, Hl.
Qed.

(** X18: what [get_changed_files] returns: the reported lines, each
    string once, as paths; nothing when the repository does not open or
    the diff fails.  The paths themselves are distinct when [Path] maps
    distinct strings to distinct paths. *)
Theorem get_changed_files_returns (root head base : string) (l : list path) :
  get_changed_files G root head base = Returns l ->
  ∃ names, l = Path G <$> names
           ∧ NoDup names
           ∧ (∀ s, s ∈ names ↔ reported G root head base s)
           ∧ ((∀ s1 s2, Path G s1 = Path G s2 -> s1 = s2) -> NoDup l).
Proof.
  unfold get_changed_files, reported.
  assert (∀ names : list string, NoDup names ->
            (∀ s1 s2, Path G s1 = Path G s2 -> s1 = s2) -> NoDup (Path G <$> names))
    as Hinj.
  { intros names Hnd Hi. apply NoDup_fmap_2; [|done]. intros s1 s2. apply Hi. }
  destruct (Repo G root) as [|repo] eqn:Hr.
  { intros [= <-]. exists []. split_and!; [done|constructor| |by constructor].
    intros s. split; [by intros ?%elem_of_nil|]. by intros (? & ? & ? & _). }
  destruct (if truthy head then diff G repo ["--name-only"; head; base]
            else diff G repo ["--name-only"; base]) as [|out] eqn:Hd.
  { intros [= <-]. exists []. split_and!; [done|constructor| |by constructor].
    intros s. split; [by intros ?%elem_of_nil|].
    intros (? & ? & [= <-] & ? & _). congruence. }
  destruct (truthy head) eqn:Hh; simpl.
  - intros [= <-]. eexists. split; [done|]. split; [apply NoDup_elements|].
    split; [|apply Hinj, NoDup_elements].
    intros s. rewrite elem_of_elements, elem_of_list_to_set. split.
    + intros Hs. exists repo, out. by split_and!; [..|left].
    + intros (? & ? & [= <-] & Hd' & [Hs|[-> _]]); [congruence|done].
  - apply truthy_false in Hh as ->.
    destruct (ls_files G repo ["--others"; "--exclude-standard"]) as [|untracked] eqn:Hl;
      [done|].
    intros [= <-]. eexists. split; [done|]. split; [apply NoDup_elements|].
    split; [|apply Hinj, NoDup_elements].
    intros s. rewrite elem_of_elements, elem_of_list_to_set, elem_of_app. split.
    + intros [Hs|Hs]; exists repo, out; (split_and!; [done..|]); [by left|].
      right. split; [done|]. by exists untracked.
    + intros (? & ? & [= <-] & Hd' & [Hs|[_ (u & Hu & Hs)]]).
      * left. congruence.
      * right. congruence.
Qed.

End More.

Lemma get_changed_files_raises_iff_witness :
  get_changed_files flaky "/repo" "" "main" = Raises GitCommandError ↔
  "" = EmptyString
  ∧ ∃ repo out, Repo flaky "/repo" = inr repo
                ∧ diff flaky repo ["--name-only"; "main"] = inr out
                ∧ ls_files flaky repo ["--others"; "--exclude-standard"]
                  = inl GitCommandError.
Proof. apply (get_changed_files_raises_iff flaky "/repo" "" "main" GitCommandError). Defined.

Lemma get_changed_files_returns_witness :
  ∃ names, ["a.py"] = Path flaky <$> names
           ∧ NoDup names
           ∧ (∀ s, s ∈ names ↔ reported flaky "/repo" "HEAD" "main" s)
           ∧ ((∀ s1 s2, Path flaky s1 = Path flaky s2 -> s1 = s2) -> NoDup ["a.py"]).
Proof. apply (get_changed_files_returns flaky "/repo" "HEAD" "main"). reflexivity. Defined.

End git_ops_more.
